(** * WALExplorer: byte cursor, LSN values, WAL record decoder and
      transaction tracker, embedded from the Python sources.

    - [src/utils/binary_reader.py]      -> Module [BinaryReader]
    - [src/utils/lsn_utils.py]          -> Module [LSN]
    - [src/core/wal_parser.py]          -> Modules [WalParser], [WALFile]
    - [src/core/transaction_manager.py] -> Module [TransactionManager]
    - [src/core/xlog_reader.py]         -> Module [XLogReader]

    Python integers are unbounded, so they are [Z].  [bytes] values are
    [list byte].  A [dict] keyed by xid is a [gmap Z _], a [set] of xids a
    [gset Z] (insertion order of the dicts is not modelled; nothing below
    depends on it).  Methods that mutate [self] or may raise are state
    transformers returning an [outcome]. *)

From Stdlib Require Import ZArith String Ascii List Lia Bool.
From Stdlib Require Import Strings.Byte DecimalString.
From Stdlib Require Import HexadecimalN HexadecimalFacts.
From Stdlib Require DecimalPos DecimalZ.
From stdpp Require Import gmap.
Import ListNotations.
Local Open Scope Z_scope.

(** ** Exceptions and outcomes *)

Inductive exn : Type :=
| EOFError
| ValueError
| RuntimeError
| AttributeError
| StructError.

(** What running a piece of code gives: a value, an exception, or
    [Timeout] when a loop was cut off by the iteration budget ([fuel]) the
    embedding gives to every [while] loop; [Timeout] is not a Python
    exception and no handler catches it. *)
Inductive outcome (A : Type) : Type :=
| Ok (a : A)
| Raise (e : exn)
| Timeout.
Arguments Ok {A} a.
Arguments Raise {A} e.
Arguments Timeout {A}.

(** ** Python sequence slicing *)

(** Normalisation of one slice bound against a sequence of length [len]:
    negative bounds count from the end, and every bound is clamped. *)
Definition py_bound (len i : Z) : Z :=
  if i <? 0 then Z.max (i + len) 0 else Z.min i len.

(** [l[lo:hi]] *)
Definition py_slice {A : Type} (l : list A) (lo hi : Z) : list A :=
  let len := Z.of_nat (length l) in
  let lo' := py_bound len lo in
  let hi' := py_bound len hi in
  firstn (Z.to_nat (hi' - lo')) (skipn (Z.to_nat lo') l).

(** [l[lo:]] *)
Definition py_slice_from {A : Type} (l : list A) (lo : Z) : list A :=
  skipn (Z.to_nat (py_bound (Z.of_nat (length l)) lo)) l.

(** ** struct.unpack for the little-endian unsigned formats *)

Definition byte_val (b : byte) : Z := Z.of_N (Byte.to_N b).

Fixpoint le_uint (bs : list byte) : Z :=
  match bs with
  | [] => 0
  | b :: bs' => byte_val b + 256 * le_uint bs'
  end.

(** [struct.unpack(fmt, data)[0]] for [fmt] one of '<B', '<H', '<I', '<Q'
    ([size] = 1, 2, 4, 8): a buffer of the wrong size is a [struct.error]. *)
Definition unpack_uint (size : Z) (bs : list byte) : outcome Z :=
  if Z.of_nat (length bs) =? size then Ok (le_uint bs) else Raise StructError.

(** ** utils/binary_reader.py *)

Module BinaryReader.

Record reader : Type := mkReader {
  data : list byte;
  position : Z;
  length : Z
}.

(** [BinaryReader.__init__] *)
Definition init (d : list byte) : reader :=
  {| data := d; position := 0; length := Z.of_nat (List.length d) |}.

Definition set_position (rd : reader) (p : Z) : reader :=
  {| data := data rd; position := p; length := length rd |}.

(** A method: runs on the cursor, returns a value or raises, and leaves
    the cursor in the state it had when it returned or raised. *)
Definition M (A : Type) : Type := reader -> outcome A * reader.

Definition ret {A : Type} (a : A) : M A := fun rd => (Ok a, rd).

Definition bind {A B : Type} (m : M A) (f : A -> M B) : M B := fun rd =>
  match m rd with
  | (Ok a, rd') => f a rd'
  | (Raise e, rd') => (Raise e, rd')
  | (Timeout, rd') => (Timeout, rd')
  end.

Definition raise {A : Type} (e : exn) : M A := fun rd => (Raise e, rd).
Definition lift {A : Type} (o : outcome A) : M A := fun rd => (o, rd).

Declare Scope reader_scope.
Delimit Scope reader_scope with reader.
Notation "'let!' x ':=' m 'in' k" := (bind m (fun x => k))
  (at level 10, x name, m at level 100, k at level 200) : reader_scope.
Notation "'do!' m 'in' k" := (bind m (fun _ => k))
  (at level 10, m at level 100, k at level 200) : reader_scope.
Local Open Scope reader_scope.

Definition read_bytes (count : Z) : M (list byte) := fun rd =>
  if position rd + count >? length rd then (Raise EOFError, rd)
  else
    let result := py_slice (data rd) (position rd) (position rd + count) in
    (Ok result, set_position rd (position rd + count)).

Definition read_uint8 : M Z :=
  let! d := read_bytes 1 in lift (unpack_uint 1 d).

Definition read_uint16 : M Z :=
  let! d := read_bytes 2 in lift (unpack_uint 2 d).

Definition read_uint32 : M Z :=
  let! d := read_bytes 4 in lift (unpack_uint 4 d).

Definition read_uint64 : M Z :=
  let! d := read_bytes 8 in lift (unpack_uint 8 d).

Definition peek_bytes (count : Z) : M (list byte) := fun rd =>
  if position rd + count >? length rd
  then (Ok (py_slice_from (data rd) (position rd)), rd)
  else (Ok (py_slice (data rd) (position rd) (position rd + count)), rd).

Definition skip_bytes (count : Z) : M unit := fun rd =>
  if position rd + count >? length rd then (Raise EOFError, rd)
  else (Ok tt, set_position rd (position rd + count)).

Definition is_eof (rd : reader) : bool := position rd >=? length rd.

Definition remaining_bytes (rd : reader) : Z :=
  Z.max 0 (length rd - position rd).

Definition tell (rd : reader) : Z := position rd.

Definition seek (pos : Z) : M unit := fun rd =>
  if (pos <? 0) || (pos >? length rd) then (Raise ValueError, rd)
  else (Ok tt, set_position rd pos).

(** The states a cursor can be in: [length] is the length of the buffer
    (set once by [init]) and the position lies in [[0, length]]. *)
Definition valid (rd : reader) : Prop :=
  length rd = Z.of_nat (List.length (data rd)) /\
  0 <= position rd <= length rd.

(** [m] leaves the buffer and its length as they are. *)
Definition frames {A : Type} (m : M A) : Prop :=
  forall rd, data (snd (m rd)) = data rd /\ length (snd (m rd)) = length rd.

End BinaryReader.

(** ** Hexadecimal text: the builtins [int(s, 16)] and [format(n, 'X')] *)

Module Hex.

Import Hexadecimal.

(** One hexadecimal digit, either case, put in front of [d]. *)
Definition digit_of_ascii (c : ascii) : option (uint -> uint) :=
  match c with
  | "0"%char => Some D0 | "1"%char => Some D1 | "2"%char => Some D2
  | "3"%char => Some D3 | "4"%char => Some D4 | "5"%char => Some D5
  | "6"%char => Some D6 | "7"%char => Some D7 | "8"%char => Some D8
  | "9"%char => Some D9
  | "A"%char | "a"%char => Some Da
  | "B"%char | "b"%char => Some Db
  | "C"%char | "c"%char => Some Dc
  | "D"%char | "d"%char => Some Dd
  | "E"%char | "e"%char => Some De
  | "F"%char | "f"%char => Some Df
  | _ => None
  end.

Fixpoint uint_of_string (s : string) : option uint :=
  match s with
  | EmptyString => Some Nil
  | String c s' =>
      match digit_of_ascii c, uint_of_string s' with
      | Some d, Some u => Some (d u)
      | _, _ => None
      end
  end.

(** [int(s, 16)] on a string of hexadecimal digits.  Python's [int] also
    takes surrounding white space, a sign, a [0x] prefix and single
    underscores between digits; those spellings are not covered by this
    embedding (they are reported as [ValueError] here) and no statement
    below ranges over them. *)
Definition int16 (s : string) : outcome Z :=
  match s with
  | EmptyString => Raise ValueError
  | _ =>
      match uint_of_string s with
      | Some u => Ok (Z.of_N (N.of_hex_uint u))
      | None => Raise ValueError
      end
  end.

(** Upper-case digits, most significant first; [Nil] prints nothing. *)
Fixpoint string_of_uint (u : uint) : string :=
  match u with
  | Nil => EmptyString
  | D0 u => String "0" (string_of_uint u)
  | D1 u => String "1" (string_of_uint u)
  | D2 u => String "2" (string_of_uint u)
  | D3 u => String "3" (string_of_uint u)
  | D4 u => String "4" (string_of_uint u)
  | D5 u => String "5" (string_of_uint u)
  | D6 u => String "6" (string_of_uint u)
  | D7 u => String "7" (string_of_uint u)
  | D8 u => String "8" (string_of_uint u)
  | D9 u => String "9" (string_of_uint u)
  | Da u => String "A" (string_of_uint u)
  | Db u => String "B" (string_of_uint u)
  | Dc u => String "C" (string_of_uint u)
  | Dd u => String "D" (string_of_uint u)
  | De u => String "E" (string_of_uint u)
  | Df u => String "F" (string_of_uint u)
  end.

(** [f"{n:X}"]: upper-case hexadecimal, no padding, [-] for negatives. *)
Definition format_X (n : Z) : string :=
  match n with
  | Zneg p => String "-" (string_of_uint (N.to_hex_uint (Npos p)))
  | _ => string_of_uint (N.to_hex_uint (Z.to_N n))
  end.

(** The character class [[0-9A-F]]. *)
Definition is_upper_hex (c : ascii) : bool :=
  match c with
  | "0"%char | "1"%char | "2"%char | "3"%char | "4"%char | "5"%char
  | "6"%char | "7"%char | "8"%char | "9"%char
  | "A"%char | "B"%char | "C"%char | "D"%char | "E"%char | "F"%char => true
  | _ => false
  end.

Fixpoint all_upper_hex (s : string) : bool :=
  match s with
  | EmptyString => true
  | String c s' => is_upper_hex c && all_upper_hex s'
  end.

(** [[0-9A-F]+] *)
Definition upper_hex_word (s : string) : bool :=
  match s with
  | EmptyString => false
  | _ => all_upper_hex s
  end.

(** No leading zero, except for the word that is exactly "0". *)
Definition no_leading_zero (s : string) : bool :=
  match s with
  | String "0" EmptyString => true
  | String "0" _ => false
  | _ => true
  end.

(** The number of digits of a word *)
Fixpoint digits (u : uint) : nat :=
  match u with
  | Nil => O
  | D0 u | D1 u | D2 u | D3 u | D4 u | D5 u | D6 u | D7 u
  | D8 u | D9 u | Da u | Db u | Dc u | Dd u | De u | Df u => S (digits u)
  end.

End Hex.

(** ** utils/lsn_utils.py *)

Module LSN.

(** An [LSN] object holds one attribute, the integer [value]. *)
Record lsn : Type := mkLSN { value : Z }.

(** [sep in s] for a one-character [sep] *)
Fixpoint contains (sep : ascii) (s : string) : bool :=
  match s with
  | EmptyString => false
  | String c s' => Ascii.eqb c sep || contains sep s'
  end.

(** [s.split(sep)] for a one-character [sep] *)
Fixpoint split (sep : ascii) (s : string) : list string :=
  match s with
  | EmptyString => [EmptyString]
  | String c s' =>
      if Ascii.eqb c sep then EmptyString :: split sep s'
      else match split sep s' with
           | [] => [String c EmptyString]
           | p :: ps => String c p :: ps
           end
  end.

(** [LSN._parse_string]; the tuple assignment raises [ValueError] when
    [split] gives more than two parts. *)
Definition _parse_string (lsn_str : string) : outcome Z :=
  if negb (contains "/" lsn_str) then Raise ValueError
  else
    match split "/" lsn_str with
    | [high_str; low_str] =>
        match (match high_str with
               | EmptyString => Ok 0
               | _ => Hex.int16 high_str
               end) with
        | Ok high =>
            match Hex.int16 low_str with
            | Ok low => Ok (Z.lor (Z.shiftl high 32) low)
            | Raise e => Raise e
            | Timeout => Timeout
            end
        | Raise e => Raise e
        | Timeout => Timeout
        end
    | _ => Raise ValueError
    end.

(** [LSN.__init__] on an [int] and on a [str] *)
Definition of_int (v : Z) : lsn := mkLSN v.

Definition of_string (s : string) : outcome lsn :=
  match _parse_string s with
  | Ok v => Ok (mkLSN v)
  | Raise e => Raise e
  | Timeout => Timeout
  end.

Definition file_id (l : lsn) : Z := Z.shiftr (value l) 32.

Definition file_offset (l : lsn) : Z := Z.land (value l) 0xFFFFFFFF.

Definition to_string (l : lsn) : string :=
  (Hex.format_X (file_id l) ++ "/" ++ Hex.format_X (file_offset l))%string.

(** [__eq__], [__lt__], [__le__], [__gt__], [__ge__] between two LSNs *)
Definition eqb (a b : lsn) : bool := value a =? value b.
Definition ltb (a b : lsn) : bool := value a <? value b.
Definition leb (a b : lsn) : bool := eqb a b || ltb a b.
Definition gtb (a b : lsn) : bool := value a >? value b.
Definition geb (a b : lsn) : bool := eqb a b || gtb a b.

(** The regular expression [^[0-9A-F]+/[0-9A-F]+$], with [$] the end of
    the string *)
Definition matches_lsn_text (s : string) : bool :=
  match split "/" s with
  | [h; l] => Hex.upper_hex_word h && Hex.upper_hex_word l
  | _ => false
  end.

(** Neither half of [HIGH/LOW] has a leading zero. *)
Definition no_leading_zeros (s : string) : bool :=
  match split "/" s with
  | [h; l] => Hex.no_leading_zero h && Hex.no_leading_zero l
  | _ => false
  end.

(** The low half has at most eight digits, that is, fits 32 bits. *)
Definition low_fits_32 (s : string) : bool :=
  match split "/" s with
  | [_; l] => (String.length l <=? 8)%nat
  | _ => false
  end.

End LSN.

(** ** core/wal_parser.py *)

Module WalParser.

Import BinaryReader.
Local Open Scope reader_scope.

Definition SIZEOF_XLOG_RECORD : Z := 24.
Definition XLR_INFO_MASK : Z := 0x0F.
Definition XLR_RMGR_INFO_MASK : Z := 0xF0.
Definition SIZEOF_WAL_PAGE_HEADER : Z := 24.

(** [bool(x & mask)] *)
Definition flag (x mask : Z) : bool := negb (Z.land x mask =? 0).

(** The dict stored under ['image'] *)
Record BlockImage : Type := mkBlockImage {
  img_length : Z;
  hole_offset : Z;
  bimg_info : Z;
  has_hole : bool;
  should_apply : bool;
  hole_length : option Z;
  img_data : list byte
}.

(** The dict stored under ['relfilenode'] *)
Record RelFileNode : Type := mkRelFileNode {
  spcNode : Z;
  dbNode : Z;
  relNode : Z
}.

(** The [block_info] dict; a key that is only set under a condition is
    an [option]. *)
Record BlockInfo : Type := mkBlockInfo {
  id : Z;
  fork_flags : Z;
  data_length : Z;
  has_image : bool;
  has_data : bool;
  will_init : bool;
  same_rel : bool;
  fork_num : Z;
  image : option BlockImage;
  relfilenode : option RelFileNode;
  block_num : Z;
  block_data : option (list byte)
}.

Record XLogRecord : Type := mkXLogRecord {
  xl_tot_len : Z;
  xl_xid : Z;
  xl_prev : LSN.lsn;
  xl_info : Z;
  xl_rmid : Z;
  xl_crc : Z;
  blocks : list BlockInfo;
  main_data : list byte
}.

(** [XLogRecord._parse_block_image] *)
Definition _parse_block_image : M BlockImage :=
  let! length := read_uint16 in
  let! hole_offset := read_uint16 in
  let! bimg_info := read_uint8 in
  let! hole_length :=
    (if negb (Z.land bimg_info 0x01 =? 0) && negb (Z.land bimg_info 0x1C =? 0)
     then let! h := read_uint16 in ret (Some h)
     else ret None) in
  let! d := read_bytes length in
  ret {| img_length := length; hole_offset := hole_offset;
         bimg_info := bimg_info;
         has_hole := flag bimg_info 0x01;
         should_apply := flag bimg_info 0x02;
         hole_length := hole_length; img_data := d |}.

(** [XLogRecord._parse_block_reference]; returns the dict it appends
    to [self.blocks]. *)
Definition _parse_block_reference : M BlockInfo :=
  let! block_id := read_uint8 in
  let! fork_flags := read_uint8 in
  let! data_length := read_uint16 in
  let has_image := flag fork_flags 0x10 in
  let has_data := flag fork_flags 0x20 in
  let will_init := flag fork_flags 0x40 in
  let same_rel := flag fork_flags 0x80 in
  let! image :=
    (if has_image then let! i := _parse_block_image in ret (Some i)
     else ret None) in
  let! relfilenode :=
    (if negb same_rel then
       let! spc := read_uint32 in
       let! db := read_uint32 in
       let! rel := read_uint32 in
       ret (Some {| spcNode := spc; dbNode := db; relNode := rel |})
     else ret None) in
  let! block_num := read_uint32 in
  let! d :=
    (if has_data then let! d := read_bytes data_length in ret (Some d)
     else ret None) in
  ret {| id := block_id; fork_flags := fork_flags;
         data_length := data_length;
         has_image := has_image; has_data := has_data;
         will_init := will_init; same_rel := same_rel;
         fork_num := Z.land fork_flags 0x0F;
         image := image; relfilenode := relfilenode;
         block_num := block_num; block_data := d |}.

(** [XLogRecord._parse_data_short]; returns the new [self.main_data]. *)
Definition _parse_data_short : M (list byte) :=
  do! read_bytes 1 in
  let! data_length := read_uint8 in
  read_bytes data_length.

(** [XLogRecord._parse_data_long] *)
Definition _parse_data_long : M (list byte) :=
  do! read_bytes 1 in
  let! data_length := read_uint32 in
  read_bytes data_length.

(** The [while] loop of [XLogRecord._parse_record_data], on the pair
    ([self.blocks], [self.main_data]). *)
Fixpoint _parse_record_loop (fuel : nat) (data_end : Z)
    (blocks : list BlockInfo) (main_data : list byte)
    : M (list BlockInfo * list byte) :=
  fun rd =>
    if tell rd <? data_end then
      match fuel with
      | O => (Timeout, rd)
      | S fuel' =>
          (let! next_byte := peek_bytes 1 in
           match next_byte with
           | [] => ret (blocks, main_data)
           | b :: _ =>
               let block_id := byte_val b in
               if block_id =? 255 then
                 let! m := _parse_data_short in ret (blocks, m)
               else if block_id =? 254 then
                 let! m := _parse_data_long in ret (blocks, m)
               else if (block_id =? 253) || (block_id =? 252) then
                 do! read_bytes 1 in
                 do! (if block_id =? 253 then skip_bytes 2
                      else skip_bytes 4) in
                 _parse_record_loop fuel' data_end blocks main_data
               else
                 let! blk := _parse_block_reference in
                 _parse_record_loop fuel' data_end (blocks ++ [blk])
                                    main_data
           end) rd
      end
    else (Ok (blocks, main_data), rd).

(** [XLogRecord._parse_record_data] *)
Definition _parse_record_data (fuel : nat) (xl_tot_len : Z)
    : M (list BlockInfo * list byte) :=
  fun rd =>
    let data_start := tell rd in
    let data_end := data_start + xl_tot_len - SIZEOF_XLOG_RECORD in
    _parse_record_loop fuel data_end [] [] rd.

(** [XLogRecord.__init__] *)
Definition XLogRecord_init (fuel : nat) : M XLogRecord :=
  let! xl_tot_len := read_uint32 in
  let! xl_xid := read_uint32 in
  let! xl_prev_value := read_uint64 in
  let! xl_info := read_uint8 in
  let! xl_rmid := read_uint8 in
  do! skip_bytes 2 in
  let! xl_crc := read_uint32 in
  let! body := _parse_record_data fuel xl_tot_len in
  ret {| xl_tot_len := xl_tot_len; xl_xid := xl_xid;
         xl_prev := LSN.of_int xl_prev_value;
         xl_info := xl_info; xl_rmid := xl_rmid; xl_crc := xl_crc;
         blocks := fst body; main_data := snd body |}.

Definition get_rmgr_info (r : XLogRecord) : Z :=
  Z.land (xl_info r) XLR_RMGR_INFO_MASK.

Definition get_info (r : XLogRecord) : Z :=
  Z.land (xl_info r) XLR_INFO_MASK.

Record WALPageHeader : Type := mkWALPageHeader {
  magic : Z;
  info : Z;
  tli : Z;
  prev_page_lsn : LSN.lsn;
  page_lsn : LSN.lsn
}.

(** [WALPageHeader.__init__] *)
Definition WALPageHeader_init : M WALPageHeader :=
  let! magic := read_uint16 in
  let! info := read_uint16 in
  let! tli := read_uint32 in
  let! prev := read_uint64 in
  let! page := read_uint64 in
  ret {| magic := magic; info := info; tli := tli;
         prev_page_lsn := LSN.of_int prev; page_lsn := LSN.of_int page |}.

(** The table [RMGR_IDS] *)
Definition RMGR_IDS : list (Z * string) :=
  [ (0, "XLOG"); (1, "Transaction"); (2, "Storage"); (3, "CLOG");
    (4, "Database"); (5, "Tablespace"); (6, "MultiXact"); (7, "RelMap");
    (8, "Standby"); (9, "Heap2"); (10, "Heap"); (11, "Btree");
    (12, "Hash"); (13, "Gin"); (14, "Gist"); (15, "Sequence");
    (16, "SPGist"); (17, "BRIN"); (18, "Generic"); (19, "Logical");
    (20, "Dist"); (21, "CommitTs"); (22, "ReplicationOrigin");
    (23, "ReplicationSlot"); (24, "Heap3") ]%string.

Fixpoint assoc_get (k : Z) (tbl : list (Z * string)) : option string :=
  match tbl with
  | [] => None
  | (k', v) :: tbl' => if k' =? k then Some v else assoc_get k tbl'
  end.

(** [f"{n}"] for an integer *)
Definition format_int (n : Z) : string :=
  DecimalString.NilZero.string_of_int (Z.to_int n).

(** [get_rmgr_name] *)
Definition get_rmgr_name (rmid : Z) : string :=
  match assoc_get rmid RMGR_IDS with
  | Some name => name
  | None => ("Unknown(" ++ format_int rmid ++ ")")%string
  end.

End WalParser.

(** ** core/wal_parser.py: the batch parser [WALFile] *)

Module WALFile.

Import WalParser.

Definition WAL_BLOCK_SIZE : Z := 8192.
Definition XLOG_PAGE_MAGIC : Z := 0xD099.

(** The attributes of a [WALFile] that [parse] sets, next to the cursor
    it reads with: [file_data] is the buffer of the cursor. *)
Record walfile : Type := mkWalFile {
  records : list XLogRecord;
  system_identifier : Z;
  segment_size : Z;
  xlog_blcksz : Z;
  xlog_seg_size : Z
}.

(** [WALFile.__init__] *)
Definition init : walfile :=
  {| records := []; system_identifier := 0; segment_size := 0;
     xlog_blcksz := 0; xlog_seg_size := 0 |}.

Definition set_records (rs : list XLogRecord) (w : walfile) : walfile :=
  {| records := rs; system_identifier := system_identifier w;
     segment_size := segment_size w; xlog_blcksz := xlog_blcksz w;
     xlog_seg_size := xlog_seg_size w |}.

(** A method of [WALFile] that reads with a cursor: it returns or raises,
    and leaves the object and the cursor as they are at that point. *)
Definition W : Type :=
  walfile -> BinaryReader.reader ->
  outcome unit * walfile * BinaryReader.reader.

(** [_parse_wal_file_header] *)
Definition _parse_wal_file_header : W := fun w rd =>
  match BinaryReader.read_uint64 rd with
  | (Ok sysid, rd1) =>
      match BinaryReader.read_uint32 rd1 with
      | (Ok seg, rd2) =>
          match BinaryReader.read_uint32 rd2 with
          | (Ok blcksz, rd3) =>
              match BinaryReader.read_uint32 rd3 with
              | (Ok seg_size, rd4) =>
                  let w' := {| records := records w;
                               system_identifier := sysid;
                               segment_size := seg;
                               xlog_blcksz := blcksz;
                               xlog_seg_size := seg_size |} in
                  match BinaryReader.seek blcksz rd4 with
                  | (Ok _, rd5) => (Ok tt, w', rd5)
                  | (Raise e, rd5) => (Raise e, w', rd5)
                  | (Timeout, rd5) => (Timeout, w', rd5)
                  end
              | (Raise e, rd4) => (Raise e, w, rd4)
              | (Timeout, rd4) => (Timeout, w, rd4)
              end
          | (Raise e, rd3) => (Raise e, w, rd3)
          | (Timeout, rd3) => (Timeout, w, rd3)
          end
      | (Raise e, rd2) => (Raise e, w, rd2)
      | (Timeout, rd2) => (Timeout, w, rd2)
      end
  | (Raise e, rd1) => (Raise e, w, rd1)
  | (Timeout, rd1) => (Timeout, w, rd1)
  end.

(** [except (EOFError, struct.error): break] *)
Definition caught (e : exn) : bool :=
  match e with
  | EOFError | StructError => true
  | _ => false
  end.

(** The [while] loop of [_parse_page_records] *)
Fixpoint page_loop (fuel : nat) (page_end : Z) : W := fun w rd =>
  if BinaryReader.tell rd <? page_end then
    match fuel with
    | O => (Timeout, w, rd)
    | S fuel' =>
        if BinaryReader.remaining_bytes rd <? SIZEOF_XLOG_RECORD
        then (Ok tt, w, rd)
        else
          let record_start := BinaryReader.tell rd in
          match XLogRecord_init fuel' rd with
          | (Ok record, rd1) =>
              let w1 := set_records (records w ++ [record]) w in
              let next_record := record_start + xl_tot_len record in
              if next_record >=? page_end then (Ok tt, w1, rd1)
              else
                match BinaryReader.seek next_record rd1 with
                | (Ok _, rd2) => page_loop fuel' page_end w1 rd2
                | (Raise e, rd2) =>
                    if caught e then (Ok tt, w1, rd2) else (Raise e, w1, rd2)
                | (Timeout, rd2) => (Timeout, w1, rd2)
                end
          | (Raise e, rd1) =>
              if caught e then (Ok tt, w, rd1) else (Raise e, w, rd1)
          | (Timeout, rd1) => (Timeout, w, rd1)
          end
    end
  else (Ok tt, w, rd).

(** [_parse_page_records]; the page header argument is not used. *)
Definition _parse_page_records (fuel : nat) : W := fun w rd =>
  let page_start := BinaryReader.tell rd - SIZEOF_WAL_PAGE_HEADER in
  let page_end := page_start + WAL_BLOCK_SIZE in
  page_loop fuel page_end w rd.

(** [_parse_wal_pages]; [file_len] is [len(self.file_data)]. *)
Fixpoint _parse_wal_pages (fuel : nat) (file_len : Z) : W := fun w rd =>
  if negb (BinaryReader.is_eof rd) then
    match fuel with
    | O => (Timeout, w, rd)
    | S fuel' =>
        let pos := BinaryReader.tell rd in
        if negb (pos mod WAL_BLOCK_SIZE =? 0) then
          let next_page := ((pos / WAL_BLOCK_SIZE) + 1) * WAL_BLOCK_SIZE in
          if next_page >=? file_len then (Ok tt, w, rd)
          else
            match BinaryReader.seek next_page rd with
            | (Ok _, rd1) => _parse_wal_pages fuel' file_len w rd1
            | (Raise e, rd1) => (Raise e, w, rd1)
            | (Timeout, rd1) => (Timeout, w, rd1)
            end
        else if BinaryReader.remaining_bytes rd <? SIZEOF_WAL_PAGE_HEADER
        then (Ok tt, w, rd)
        else
          match WALPageHeader_init rd with
          | (Ok page_header, rd1) =>
              if negb (magic page_header =? XLOG_PAGE_MAGIC)
              then _parse_wal_pages fuel' file_len w rd1
              else
                match _parse_page_records fuel' w rd1 with
                | (Ok _, w2, rd2) => _parse_wal_pages fuel' file_len w2 rd2
                | r => r
                end
          | (Raise e, rd1) => (Raise e, w, rd1)
          | (Timeout, rd1) => (Timeout, w, rd1)
          end
    end
  else (Ok tt, w, rd).

(** [parse] on a file whose content is [file_data] *)
Definition parse (fuel : nat) (file_data : list byte) (w : walfile)
    : outcome unit * walfile :=
  let rd := BinaryReader.init file_data in
  match _parse_wal_file_header w rd with
  | (Ok _, w1, rd1) =>
      fst (_parse_wal_pages fuel (Z.of_nat (length file_data)) w1 rd1)
  | r => fst r
  end.

(** *** Notion used to state the property of [parse] *)

(** [record] is what [XLogRecord] decodes from the bytes of [file] that
    start at some offset [s], taken as they lie in the file. *)
Definition decoded_raw (file : list byte) (record : XLogRecord) : Prop :=
  exists (s : Z) (fuel : nat) (c : BinaryReader.reader),
    XLogRecord_init fuel
      (BinaryReader.set_position (BinaryReader.init file) s)
      = (Ok record, c).

(** The cursor still reads [file], and every record collected so far was
    decoded from its raw bytes. *)
Definition reads_raw (file : list byte) (w : walfile)
    (rd : BinaryReader.reader) : Prop :=
  BinaryReader.data rd = file /\
  BinaryReader.length rd = Z.of_nat (length file) /\
  Forall (decoded_raw file) (records w).

End WALFile.

(** ** core/transaction_manager.py *)

Module TransactionManager.

Import WalParser.

Inductive TransactionState : Type :=
| IN_PROGRESS
| COMMITTED
| ABORTED
| PREPARED.

Record TransactionInfo : Type := mkTransactionInfo {
  xid : Z;
  state : TransactionState;
  start_lsn : option string;
  commit_lsn : option string;
  records : list XLogRecord;
  savepoints : list Z;
  subtransactions : gset Z;
  parent_xid : option Z
}.

(** [TransactionInfo(xid=..., start_lsn=..., parent_xid=...)] with the
    dataclass defaults for the other fields *)
Definition new_info (x : Z) (start : option string) (parent : option Z)
    : TransactionInfo :=
  {| xid := x; state := IN_PROGRESS; start_lsn := start;
     commit_lsn := None; records := []; savepoints := [];
     subtransactions := ∅; parent_xid := parent |}.

(** [TransactionInfo.add_record] *)
Definition add_record (record : XLogRecord) (t : TransactionInfo)
    : TransactionInfo :=
  {| xid := xid t; state := state t; start_lsn := start_lsn t;
     commit_lsn := commit_lsn t; records := records t ++ [record];
     savepoints := savepoints t; subtransactions := subtransactions t;
     parent_xid := parent_xid t |}.

(** [TransactionInfo.add_subtransaction] *)
Definition info_add_subtransaction (subxid : Z) (t : TransactionInfo)
    : TransactionInfo :=
  {| xid := xid t; state := state t; start_lsn := start_lsn t;
     commit_lsn := commit_lsn t; records := records t;
     savepoints := savepoints t;
     subtransactions := {[ subxid ]} ∪ subtransactions t;
     parent_xid := parent_xid t |}.

Definition set_state (s : TransactionState) (t : TransactionInfo)
    : TransactionInfo :=
  {| xid := xid t; state := s; start_lsn := start_lsn t;
     commit_lsn := commit_lsn t; records := records t;
     savepoints := savepoints t; subtransactions := subtransactions t;
     parent_xid := parent_xid t |}.

Definition set_commit_lsn (l : string) (t : TransactionInfo)
    : TransactionInfo :=
  {| xid := xid t; state := state t; start_lsn := start_lsn t;
     commit_lsn := Some l; records := records t;
     savepoints := savepoints t; subtransactions := subtransactions t;
     parent_xid := parent_xid t |}.

(** The attributes of a [TransactionManager]: [transactions] is the map
    of active transactions. *)
Record tracker : Type := mkTracker {
  transactions : gmap Z TransactionInfo;
  committed_transactions : gmap Z TransactionInfo;
  aborted_transactions : gmap Z TransactionInfo;
  subtransaction_map : gmap Z Z;
  total_transactions : Z;
  committed_count : Z;
  aborted_count : Z
}.

(** [TransactionManager.__init__] *)
Definition init : tracker :=
  {| transactions := ∅; committed_transactions := ∅;
     aborted_transactions := ∅; subtransaction_map := ∅;
     total_transactions := 0; committed_count := 0; aborted_count := 0 |}.

Definition set_transactions (m : gmap Z TransactionInfo) (tm : tracker)
    : tracker :=
  {| transactions := m;
     committed_transactions := committed_transactions tm;
     aborted_transactions := aborted_transactions tm;
     subtransaction_map := subtransaction_map tm;
     total_transactions := total_transactions tm;
     committed_count := committed_count tm;
     aborted_count := aborted_count tm |}.

(** [str(record.xl_prev)] *)
Definition prev_text (record : XLogRecord) : string :=
  LSN.to_string (xl_prev record).

(** [_create_transaction] *)
Definition _create_transaction (x : Z) (record : XLogRecord) (tm : tracker)
    : tracker :=
  let transaction :=
    add_record record (new_info x (Some (prev_text record)) None) in
  {| transactions := <[ x := transaction ]> (transactions tm);
     committed_transactions := committed_transactions tm;
     aborted_transactions := aborted_transactions tm;
     subtransaction_map := subtransaction_map tm;
     total_transactions := total_transactions tm + 1;
     committed_count := committed_count tm;
     aborted_count := aborted_count tm |}.

(** One round of the [for subxid in transaction.subtransactions] loop of
    [_commit_transaction]. *)
Definition commit_sub (record : XLogRecord) (subxid : Z) (tm : tracker)
    : tracker :=
  match transactions tm !! subxid with
  | Some subtransaction =>
      let subtransaction :=
        set_commit_lsn (prev_text record)
          (set_state COMMITTED subtransaction) in
      {| transactions := delete subxid (transactions tm);
         committed_transactions :=
           <[ subxid := subtransaction ]> (committed_transactions tm);
         aborted_transactions := aborted_transactions tm;
         subtransaction_map := subtransaction_map tm;
         total_transactions := total_transactions tm;
         committed_count := committed_count tm;
         aborted_count := aborted_count tm |}
  | None => tm
  end.

(** [_commit_transaction].  The loop over the set is a [set_fold]; the
    order of the visits does not matter, since the rounds commute
    ([subtransaction_loop_any_order] below). *)
Definition _commit_transaction (x : Z) (record : XLogRecord) (tm : tracker)
    : tracker :=
  match transactions tm !! x with
  | Some transaction =>
      let transaction :=
        add_record record
          (set_commit_lsn (prev_text record)
             (set_state COMMITTED transaction)) in
      let tm1 :=
        {| transactions := delete x (transactions tm);
           committed_transactions :=
             <[ x := transaction ]> (committed_transactions tm);
           aborted_transactions := aborted_transactions tm;
           subtransaction_map := subtransaction_map tm;
           total_transactions := total_transactions tm;
           committed_count := committed_count tm + 1;
           aborted_count := aborted_count tm |} in
      set_fold (commit_sub record) tm1 (subtransactions transaction)
  | None => tm
  end.

(** One round of the subtransaction loop of [_abort_transaction]. *)
Definition abort_sub (record : XLogRecord) (subxid : Z) (tm : tracker)
    : tracker :=
  match transactions tm !! subxid with
  | Some subtransaction =>
      let subtransaction :=
        set_commit_lsn (prev_text record)
          (set_state ABORTED subtransaction) in
      {| transactions := delete subxid (transactions tm);
         committed_transactions := committed_transactions tm;
         aborted_transactions :=
           <[ subxid := subtransaction ]> (aborted_transactions tm);
         subtransaction_map := subtransaction_map tm;
         total_transactions := total_transactions tm;
         committed_count := committed_count tm;
         aborted_count := aborted_count tm |}
  | None => tm
  end.

(** [_abort_transaction] *)
Definition _abort_transaction (x : Z) (record : XLogRecord) (tm : tracker)
    : tracker :=
  match transactions tm !! x with
  | Some transaction =>
      let transaction :=
        add_record record
          (set_commit_lsn (prev_text record)
             (set_state ABORTED transaction)) in
      let tm1 :=
        {| transactions := delete x (transactions tm);
           committed_transactions := committed_transactions tm;
           aborted_transactions :=
             <[ x := transaction ]> (aborted_transactions tm);
           subtransaction_map := subtransaction_map tm;
           total_transactions := total_transactions tm;
           committed_count := committed_count tm;
           aborted_count := aborted_count tm + 1 |} in
      set_fold (abort_sub record) tm1 (subtransactions transaction)
  | None => tm
  end.

(** [_prepare_transaction] *)
Definition _prepare_transaction (x : Z) (record : XLogRecord) (tm : tracker)
    : tracker :=
  match transactions tm !! x with
  | Some transaction =>
      set_transactions
        (<[ x := add_record record (set_state PREPARED transaction) ]>
           (transactions tm)) tm
  | None => tm
  end.

(** [_commit_prepared_transaction] *)
Definition _commit_prepared_transaction (x : Z) (record : XLogRecord)
    (tm : tracker) : tracker :=
  match transactions tm !! x with
  | Some _ => _commit_transaction x record tm
  | None => tm
  end.

(** [_abort_prepared_transaction] *)
Definition _abort_prepared_transaction (x : Z) (record : XLogRecord)
    (tm : tracker) : tracker :=
  match transactions tm !! x with
  | Some _ => _abort_transaction x record tm
  | None => tm
  end.

(** [_process_assignment]: the body is [pass]. *)
Definition _process_assignment (record : XLogRecord) (tm : tracker)
    : tracker := tm.

(** [_process_invalid]: the body is [pass]. *)
Definition _process_invalid (record : XLogRecord) (tm : tracker)
    : tracker := tm.

(** [_process_other_transaction_record] *)
Definition _process_other_transaction_record (record : XLogRecord)
    (info : Z) (tm : tracker) : tracker :=
  let x := xl_xid record in
  match transactions tm !! x with
  | None => _create_transaction x record tm
  | Some transaction =>
      set_transactions
        (<[ x := add_record record transaction ]> (transactions tm)) tm
  end.

(** [_process_transaction_record] *)
Definition _process_transaction_record (record : XLogRecord) (tm : tracker)
    : tracker :=
  let info := get_info record in
  let x := xl_xid record in
  if info =? 0x00 then _commit_transaction x record tm
  else if info =? 0x10 then _abort_transaction x record tm
  else if info =? 0x20 then _prepare_transaction x record tm
  else if info =? 0x30 then _commit_prepared_transaction x record tm
  else if info =? 0x40 then _abort_prepared_transaction x record tm
  else if info =? 0x50 then _process_assignment record tm
  else if info =? 0x60 then _process_invalid record tm
  else _process_other_transaction_record record info tm.

(** [_process_general_record]: the second [if] appends the record also
    when the first one has just created the transaction. *)
Definition _process_general_record (record : XLogRecord) (tm : tracker)
    : tracker :=
  let x := xl_xid record in
  let tm1 :=
    match transactions tm !! x with
    | None => _create_transaction x record tm
    | Some _ => tm
    end in
  match transactions tm1 !! x with
  | Some transaction =>
      set_transactions
        (<[ x := add_record record transaction ]> (transactions tm1)) tm1
  | None => tm1
  end.

(** [process_record] *)
Definition process_record (record : XLogRecord) (tm : tracker) : tracker :=
  let rmgr_name := get_rmgr_name (xl_rmid record) in
  if String.eqb rmgr_name "Transaction" then
    _process_transaction_record record tm
  else if negb (xl_xid record =? 0) then
    _process_general_record record tm
  else tm.

(** [get_transaction] *)
Definition get_transaction (x : Z) (tm : tracker)
    : option TransactionInfo :=
  match transactions tm !! x with
  | Some t => Some t
  | None =>
      match committed_transactions tm !! x with
      | Some t => Some t
      | None => aborted_transactions tm !! x
      end
  end.

(** [add_subtransaction] *)
Definition add_subtransaction (parent_xid subxid : Z) (tm : tracker)
    : tracker :=
  let submap := <[ subxid := parent_xid ]> (subtransaction_map tm) in
  let active1 :=
    match transactions tm !! parent_xid with
    | Some parent =>
        <[ parent_xid := info_add_subtransaction subxid parent ]>
          (transactions tm)
    | None => transactions tm
    end in
  let active2 :=
    match active1 !! subxid with
    | None => <[ subxid := new_info subxid None (Some parent_xid) ]> active1
    | Some _ => active1
    end in
  {| transactions := active2;
     committed_transactions := committed_transactions tm;
     aborted_transactions := aborted_transactions tm;
     subtransaction_map := submap;
     total_transactions := total_transactions tm;
     committed_count := committed_count tm;
     aborted_count := aborted_count tm |}.

(** [get_parent_transaction] *)
Definition get_parent_transaction (subxid : Z) (tm : tracker) : option Z :=
  subtransaction_map tm !! subxid.

Definition is_transaction_active (x : Z) (tm : tracker) : bool :=
  bool_decide (is_Some (transactions tm !! x)).

Definition is_transaction_committed (x : Z) (tm : tracker) : bool :=
  bool_decide (is_Some (committed_transactions tm !! x)).

Definition is_transaction_aborted (x : Z) (tm : tracker) : bool :=
  bool_decide (is_Some (aborted_transactions tm !! x)).

(** The two entry points a client drives the tracker with. *)
Inductive call : Type :=
| ProcessRecord (record : XLogRecord)
| AddSubtransaction (parent_xid subxid : Z).

Definition step (tm : tracker) (c : call) : tracker :=
  match c with
  | ProcessRecord record => process_record record tm
  | AddSubtransaction p s => add_subtransaction p s tm
  end.

(** A sequence of calls, first call first. *)
Definition run (calls : list call) (tm : tracker) : tracker :=
  fold_left step calls tm.

(** *** Notions used to state the properties of the tracker *)

(** [x] is a key of the committed or of the aborted map. *)
Definition is_terminal (x : Z) (tm : tracker) : bool :=
  is_transaction_committed x tm || is_transaction_aborted x tm.

(** A late call: the xid it may create as active (the xid of the record,
    the subxid of an assignment) is terminal when the call is made. *)
Definition late (tm : tracker) (c : call) : bool :=
  match c with
  | ProcessRecord record => is_terminal (xl_xid record) tm
  | AddSubtransaction _ subxid => is_terminal subxid tm
  end.

Fixpoint no_late_call (calls : list call) (tm : tracker) : bool :=
  match calls with
  | [] => true
  | c :: calls' => negb (late tm c) && no_late_call calls' (step tm c)
  end.

(** No key is shared by two of the maps [A] (active), [C] (committed)
    and [B] (aborted). *)
Definition exclusive_maps (A C B : gmap Z TransactionInfo) : Prop :=
  forall x : Z,
    (is_Some (A !! x) -> C !! x = None /\ B !! x = None) /\
    (is_Some (C !! x) -> B !! x = None).

(** No xid is a key of two of the three maps of the tracker. *)
Definition exclusive (tm : tracker) : Prop :=
  exclusive_maps (transactions tm) (committed_transactions tm)
    (aborted_transactions tm).

(** Every key of a terminal map of [tm] is a key of that map in [tm']. *)
Definition terminal_kept (tm tm' : tracker) : Prop :=
  dom (committed_transactions tm) ⊆ dom (committed_transactions tm') /\
  dom (aborted_transactions tm) ⊆ dom (aborted_transactions tm').

(** [x] has left the active map and sits in the committed map, in state
    committed and with the text of [record.xl_prev] as its commit LSN. *)
Definition committed_by (record : XLogRecord) (x : Z) (tm : tracker) : Prop :=
  transactions tm !! x = None /\
  exists t, committed_transactions tm !! x = Some t /\
            state t = COMMITTED /\
            commit_lsn t = Some (prev_text record).

End TransactionManager.

(** ** core/xlog_reader.py *)

Module XLogReader.

Import WalParser.

Definition WAL_BLOCK_SIZE : Z := 8192.
Definition XLOG_PAGE_MAGIC : Z := 0xD099.

(** An [XLogReader] together with the file it reads: [wal_file] is the
    content of the file at [wal_file_path], and [file_handle] is [None]
    or the offset of the open file object. *)
Record reader : Type := mkReader {
  wal_file : list byte;
  file_size : Z;
  file_handle : option Z;
  current_position : Z
}.

(** [XLogReader.__init__] *)
Definition init (content : list byte) : reader :=
  {| wal_file := content; file_size := Z.of_nat (length content);
     file_handle := None; current_position := 0 |}.

(** [__enter__] and [__exit__] *)
Definition enter (rd : reader) : reader :=
  {| wal_file := wal_file rd; file_size := file_size rd;
     file_handle := Some 0; current_position := current_position rd |}.

Definition exit (rd : reader) : reader :=
  {| wal_file := wal_file rd; file_size := file_size rd;
     file_handle := None; current_position := current_position rd |}.

(** [self.file_handle.read(n)]: the bytes from the offset of the handle,
    at most [n] of them; the attribute access on [None] raises. *)
Definition handle_read (n : Z) (rd : reader) : outcome (list byte) * reader :=
  match file_handle rd with
  | None => (Raise AttributeError, rd)
  | Some off =>
      let bytes := firstn (Z.to_nat n) (skipn (Z.to_nat off) (wal_file rd)) in
      (Ok bytes,
       {| wal_file := wal_file rd; file_size := file_size rd;
          file_handle := Some (off + Z.of_nat (length bytes));
          current_position := current_position rd |})
  end.

(** [_seek_to_lsn]; [read_records] calls it with the handle open. *)
Definition _seek_to_lsn (lsn : LSN.lsn) (rd : reader) : outcome unit * reader :=
  let file_offset := LSN.file_offset lsn in
  let page_aligned_offset := (file_offset / WAL_BLOCK_SIZE) * WAL_BLOCK_SIZE in
  match file_handle rd with
  | None => (Raise AttributeError, rd)
  | Some _ =>
      (Ok tt,
       {| wal_file := wal_file rd; file_size := file_size rd;
          file_handle := Some page_aligned_offset;
          current_position := page_aligned_offset |})
  end.

(** [_current_lsn] and [_record_lsn] *)
Definition _current_lsn (rd : reader) : LSN.lsn :=
  LSN.of_int (current_position rd).

Definition _record_lsn (record : XLogRecord) : LSN.lsn := xl_prev record.

(** [except (struct.error, EOFError): break] *)
Definition caught (e : exn) : bool :=
  match e with
  | EOFError | StructError => true
  | _ => false
  end.

Definition on_exception (e : exn) (records : list XLogRecord)
    : outcome (list XLogRecord) :=
  if caught e then Ok records else Raise e.

(** The record loop of [_read_page_records] on the cursor of the page;
    [page_len] is [len(page_data)]. *)
Fixpoint page_loop (fuel : nat) (page_len : Z) (records : list XLogRecord)
    (rd : BinaryReader.reader) : outcome (list XLogRecord) :=
  if BinaryReader.tell rd <? page_len then
    match fuel with
    | O => Timeout
    | S fuel' =>
        if BinaryReader.remaining_bytes rd <? SIZEOF_XLOG_RECORD
        then Ok records
        else
          let record_start := BinaryReader.tell rd in
          match BinaryReader.peek_bytes 4 rd with
          | (Ok xl_tot_len, rd1) =>
              if Z.of_nat (length xl_tot_len) <? 4 then Ok records
              else
                match unpack_uint 4 xl_tot_len with
                | Ok total_len =>
                    if record_start + total_len >? page_len then Ok records
                    else
                      match XLogRecord_init fuel' rd1 with
                      | (Ok record, rd2) =>
                          let records := records ++ [record] in
                          let next_record := record_start + total_len in
                          if next_record >=? page_len then Ok records
                          else
                            match BinaryReader.seek next_record rd2 with
                            | (Ok _, rd3) =>
                                page_loop fuel' page_len records rd3
                            | (Raise e, _) => on_exception e records
                            | (Timeout, _) => Timeout
                            end
                      | (Raise e, _) => on_exception e records
                      | (Timeout, _) => Timeout
                      end
                | Raise e => on_exception e records
                | Timeout => Timeout
                end
          | (Raise e, _) => on_exception e records
          | (Timeout, _) => Timeout
          end
    end
  else Ok records.

Definition advance (n : Z) (rd : reader) : reader :=
  {| wal_file := wal_file rd; file_size := file_size rd;
     file_handle := file_handle rd;
     current_position := current_position rd + n |}.

(** [_read_page_records] *)
Definition _read_page_records (fuel : nat) (rd : reader)
    : outcome (list XLogRecord) * reader :=
  if current_position rd + WAL_BLOCK_SIZE >? file_size rd then (Ok [], rd)
  else
    match handle_read WAL_BLOCK_SIZE rd with
    | (Ok page_data, rd1) =>
        let page_len := Z.of_nat (length page_data) in
        let rd2 := advance page_len rd1 in
        if page_len <? WAL_BLOCK_SIZE then (Ok [], rd2)
        else
          match WALPageHeader_init (BinaryReader.init page_data) with
          | (Ok page_header, cursor) =>
              if negb (magic page_header =? XLOG_PAGE_MAGIC) then (Ok [], rd2)
              else (page_loop fuel page_len [] cursor, rd2)
          | (Raise _, _) => (Ok [], rd2)
          | (Timeout, _) => (Timeout, rd2)
          end
    | (Raise e, rd1) => (Raise e, rd1)
    | (Timeout, rd1) => (Timeout, rd1)
    end.

(** [read_records] is a generator function.  Calling it runs none of
    its body: it gives a generator object, whose body runs when the
    consumer asks for the next item. *)
Inductive generator : Type :=
| Created (start_lsn end_lsn : option LSN.lsn)
    (** not started: the body has not run yet *)
| Suspended (end_lsn : option LSN.lsn) (page_records : list XLogRecord)
    (** stopped at [yield record]; [page_records] is what the [for]
        loop has still to visit *)
| Finished.

(** What [next(generator)] gives. *)
Inductive item : Type :=
| Yield (record : XLogRecord)
| StopIteration
| Raised (e : exn)
| OutOfFuel.

Definition read_records (start_lsn end_lsn : option LSN.lsn) : generator :=
  Created start_lsn end_lsn.

(** [end_lsn and l > end_lsn]: an [LSN] object is always true. *)
Definition past_end (end_lsn : option LSN.lsn) (l : LSN.lsn) : bool :=
  match end_lsn with
  | Some e => LSN.gtb l e
  | None => false
  end.

(** The [for record in page_records] loop, up to its next [yield];
    [None] when the list is used up and the [while] loop goes on. *)
Definition for_records (end_lsn : option LSN.lsn)
    (page_records : list XLogRecord) (rd : reader)
    : option (item * generator * reader) :=
  match page_records with
  | [] => None
  | record :: rest =>
      if past_end end_lsn (_record_lsn record)
      then Some (StopIteration, Finished, rd)
      else Some (Yield record, Suspended end_lsn rest, rd)
  end.

(** The [while self.current_position < self.file_size] loop, up to its
    next [yield]. *)
Fixpoint while_pages (fuel : nat) (end_lsn : option LSN.lsn) (rd : reader)
    : item * generator * reader :=
  if current_position rd <? file_size rd then
    match fuel with
    | O => (OutOfFuel, Finished, rd)
    | S fuel' =>
        if past_end end_lsn (_current_lsn rd)
        then (StopIteration, Finished, rd)
        else
          match _read_page_records fuel' rd with
          | (Ok page_records, rd') =>
              match for_records end_lsn page_records rd' with
              | Some r => r
              | None => while_pages fuel' end_lsn rd'
              end
          | (Raise e, rd') => (Raised e, Finished, rd')
          | (Timeout, rd') => (OutOfFuel, Finished, rd')
          end
    end
  else (StopIteration, Finished, rd).

(** [next(g)]: runs the body of [read_records] from where [g] stands
    to its next [yield], [return] or exception. *)
Definition next (fuel : nat) (g : generator) (rd : reader)
    : item * generator * reader :=
  match g with
  | Created start_lsn end_lsn =>
      match file_handle rd with
      | None => (Raised RuntimeError, Finished, rd)
      | Some _ =>
          match start_lsn with
          | Some l =>
              match _seek_to_lsn l rd with
              | (Ok _, rd') => while_pages fuel end_lsn rd'
              | (Raise e, rd') => (Raised e, Finished, rd')
              | (Timeout, rd') => (OutOfFuel, Finished, rd')
              end
          | None => while_pages fuel end_lsn rd
          end
      end
  | Suspended end_lsn page_records =>
      match for_records end_lsn page_records rd with
      | Some r => r
      | None => while_pages fuel end_lsn rd
      end
  | Finished => (StopIteration, Finished, rd)
  end.

(** [list(g)], asking for at most [n] items: the records yielded, and
    what ended the iteration. *)
Fixpoint drain (fuel : nat) (n : nat) (g : generator) (rd : reader)
    : list XLogRecord * item * reader :=
  match n with
  | O => ([], OutOfFuel, rd)
  | S n' =>
      match next fuel g rd with
      | (Yield record, g', rd') =>
          let '(records, last, rd'') := drain fuel n' g' rd' in
          (record :: records, last, rd'')
      | (last, _, rd') => ([], last, rd')
      end
  end.

(** *** Notions used to state the properties of the reader *)

(** The page the next [_read_page_records] reads from the file. *)
Definition current_page (rd : reader) : list byte :=
  match file_handle rd with
  | Some off =>
      firstn (Z.to_nat WAL_BLOCK_SIZE) (skipn (Z.to_nat off) (wal_file rd))
  | None => []
  end.

(** [record] is what [XLogRecord] decodes at some offset [s] of [page]
    behind the page header, and [s + total_len] does not pass the end of
    the page. *)
Definition decoded_within (page : list byte) (record : XLogRecord) : Prop :=
  exists (s : Z) (fuel : nat) (c : BinaryReader.reader),
    SIZEOF_WAL_PAGE_HEADER <= s /\
    s + xl_tot_len record <= Z.of_nat (length page) /\
    XLogRecord_init fuel
      (BinaryReader.set_position (BinaryReader.init page) s)
      = (Ok record, c).


End XLogReader.

(** ** Sample inputs *)

Module Fixtures.

Import WalParser.

Definition RM_XACT_ID : Z := 1.
Definition RM_HEAP_ID : Z := 10.

(** A decoded record with an empty body. *)
Definition bare_record (rmid info x prev : Z) : XLogRecord :=
  {| xl_tot_len := 24; xl_xid := x; xl_prev := LSN.of_int prev;
     xl_info := info; xl_rmid := rmid; xl_crc := 0;
     blocks := []; main_data := [] |}.

(** The byte [v mod 256] *)
Definition byte_of_Z (v : Z) : byte :=
  match Byte.of_N (Z.to_N (v mod 256)) with
  | Some b => b
  | None => "000"%byte
  end.

(** [v] on [n] bytes, least significant byte first *)
Fixpoint le_bytes (n : nat) (v : Z) : list byte :=
  match n with
  | O => []
  | S n' => byte_of_Z v :: le_bytes n' (v / 256)
  end.

Definition zeros (n : nat) : list byte := repeat "000"%byte n.

(** A page header with the magic number 0xD099 *)
Definition page_header_bytes (info tli prev page : Z) : list byte :=
  le_bytes 2 0xD099 ++ le_bytes 2 info ++ le_bytes 4 tli ++
  le_bytes 8 prev ++ le_bytes 8 page.

(** The 24 bytes of a record header *)
Definition record_header_bytes (tot_len x prev info rmid : Z) : list byte :=
  le_bytes 4 tot_len ++ le_bytes 4 x ++ le_bytes 8 prev ++
  le_bytes 1 info ++ le_bytes 1 rmid ++ zeros 2 ++ le_bytes 4 0.

(** A record of [tot_len >= 29] bytes whose body is one long main-data
    entry of zero bytes *)
Definition record_bytes (tot_len x prev info rmid : Z) : list byte :=
  record_header_bytes tot_len x prev info rmid ++
  le_bytes 1 254 ++ le_bytes 4 (tot_len - 29) ++
  zeros (Z.to_nat (tot_len - 29)).

(** The record [XLogRecord_init] decodes from [record_bytes] *)
Definition record_value (tot_len x prev info rmid : Z) : XLogRecord :=
  {| xl_tot_len := tot_len; xl_xid := x; xl_prev := LSN.of_int prev;
     xl_info := info; xl_rmid := rmid; xl_crc := 0; blocks := [];
     main_data := zeros (Z.to_nat (tot_len - 29)) |}.

(** One page holding records at the byte offsets 0x18, 0x100, 0x200 and
    0x300, each pointing back to the one before; the last one ends with
    the page. *)
Definition four_record_page : list byte :=
  page_header_bytes 0 1 0 0 ++
  record_bytes 0xE8 7 0 0 10 ++
  record_bytes 0x100 7 0x18 0 10 ++
  record_bytes 0x100 7 0x100 0 10 ++
  record_bytes (8192 - 0x300) 7 0x200 0 10.

(** A record of [total_len = 200] for xid 9: its header, and one long
    main-data entry of 171 bytes 0xFF. *)
Definition crossing_record : list byte :=
  record_header_bytes 200 9 0x18 0 10 ++
  le_bytes 1 254 ++ le_bytes 4 171 ++ repeat "255"%byte 171.

(** The record [XLogRecord_init] decodes from [crossing_record] *)
Definition crossing_value : XLogRecord :=
  {| xl_tot_len := 200; xl_xid := 9; xl_prev := LSN.of_int 0x18;
     xl_info := 0; xl_rmid := 10; xl_crc := 0; blocks := [];
     main_data := repeat "255"%byte 171 |}.

(** Two pages.  Page 0 is filled up to 16 bytes before its end by one
    record; there [crossing_record] starts, and its remaining 184 bytes
    follow the header of page 1. *)
Definition cross_page_file : list byte :=
  page_header_bytes 0 1 0 0 ++
  record_bytes (8192 - 24 - 16) 7 0 0 10 ++
  firstn 16 crossing_record ++
  page_header_bytes 2 1 0 0x2000 ++
  skipn 16 crossing_record ++
  repeat "255"%byte (Z.to_nat (8192 - 24 - 184)).

End Fixtures.

(** ** utils/binary_reader.py: the signed and the string readers *)

Module BinaryReaderMore.

Import BinaryReader.
Local Open Scope reader_scope.

(** The value of a [bits]-wide two's complement pattern [v]. *)
Definition to_signed (bits v : Z) : Z :=
  if v <? 2 ^ (bits - 1) then v else v - 2 ^ bits.

(** [struct.unpack(fmt, data)[0]] for [fmt] one of '<i', '<q'
    ([size] = 4, 8) *)
Definition unpack_int (size : Z) (bs : list byte) : outcome Z :=
  if Z.of_nat (List.length bs) =? size
  then Ok (to_signed (8 * size) (le_uint bs))
  else Raise StructError.

Definition read_int32 : M Z :=
  let! d := read_bytes 4 in lift (unpack_int 4 d).

Definition read_int64 : M Z :=
  let! d := read_bytes 8 in lift (unpack_int 8 d).




Section Decoding.

(** [bytes.decode(encoding, errors='ignore')] for the encoding the caller
    names. *)
Variable decode : list byte -> string.



End Decoding.


End BinaryReaderMore.

(** ** utils/lsn_utils.py: distances, segments and ranges *)

Module LSNMore.

Import LSN.

(** [LSN.distance] *)
Definition distance (a b : lsn) : outcome Z :=
  if negb (file_id a =? file_id b) then Raise ValueError
  else Ok (Z.abs (file_offset a - file_offset b)).

(** What an expression with [//] or [%] gives: a value, or
    [ZeroDivisionError] when the divisor is 0. *)
Inductive quotient (A : Type) : Type :=
| Quot (a : A)
| ZeroDivisionError.
Arguments Quot {A} a.
Arguments ZeroDivisionError {A}.

Definition DEFAULT_SEGMENT_SIZE : Z := 16 * 1024 * 1024.

(** [LSN.next_segment]; [//] rounds towards minus infinity, as [Z.div]
    does. *)
Definition next_segment (segment_size : Z) (l : lsn) : quotient lsn :=
  if segment_size =? 0 then ZeroDivisionError
  else
    let next_offset := (file_offset l / segment_size + 1) * segment_size in
    Quot (of_int (Z.lor (Z.shiftl (file_id l) 32) next_offset)).

(** [LSN.is_segment_boundary] *)
Definition is_segment_boundary (segment_size : Z) (l : lsn) : quotient bool :=
  if segment_size =? 0 then ZeroDivisionError
  else Quot (file_offset l mod segment_size =? 0).

(** [c.isspace()] for a character below U+0100 *)
Definition is_space (c : ascii) : bool :=
  let n := N_of_ascii c in
  ((9 <=? n) && (n <=? 13) || (28 <=? n) && (n <=? 32)
   || (n =? 133) || (n =? 160))%N.

(** [s.lstrip()], [s.rstrip()] and [s.strip()] *)
Fixpoint lstrip (s : string) : string :=
  match s with
  | EmptyString => EmptyString
  | String c s' => if is_space c then lstrip s' else s
  end.

Fixpoint rstrip (s : string) : string :=
  match s with
  | EmptyString => EmptyString
  | String c s' =>
      match rstrip s' with
      | EmptyString => if is_space c then EmptyString else String c EmptyString
      | r => String c r
      end
  end.

Definition strip (s : string) : string := rstrip (lstrip s).

(** [parse_lsn_range] *)
Definition parse_lsn_range (range_str : string) : outcome (lsn * lsn) :=
  if negb (contains "-" range_str) then Raise ValueError
  else
    match split "-" range_str with
    | [start_str; end_str] =>
        match of_string (strip start_str) with
        | Ok s =>
            match of_string (strip end_str) with
            | Ok e => Ok (s, e)
            | Raise x => Raise x
            | Timeout => Timeout
            end
        | Raise x => Raise x
        | Timeout => Timeout
        end
    | _ => Raise ValueError
    end.

(** [format_lsn_range] *)
Definition format_lsn_range (start end_ : lsn) : string :=
  (to_string start ++ "-" ++ to_string end_)%string.

(** Every character of [s] satisfies [p]. *)
Fixpoint string_all (p : ascii -> bool) (s : string) : bool :=
  match s with
  | EmptyString => true
  | String c s' => p c && string_all p s'
  end.

End LSNMore.

(** ** Notions used to state more properties of the record decoder *)

Module RecordLayout.

Import BinaryReader.

(** The bytes the cursor has still to read. *)
Definition unread (rd : reader) : list byte :=
  skipn (Z.to_nat (position rd)) (data rd).

(** The [n] bytes that lie [off] bytes behind the cursor, and the
    little-endian number they spell. *)
Definition field (off n : Z) (rd : reader) : list byte :=
  firstn (Z.to_nat n) (skipn (Z.to_nat off) (unread rd)).

Definition uint_at (off n : Z) (rd : reader) : Z := le_uint (field off n rd).

(** The number of bytes left, as an iteration budget. *)
Definition bytes_left (rd : reader) : nat :=
  Z.to_nat (length rd - position rd).

(** The fields of a record header end 4, 8, 16, 17, 18, 20 and 24 bytes
    behind its start; with [left < 24] bytes left, [fields_that_fit left]
    is the end of the last field that is still complete. *)
Definition fields_that_fit (left : Z) : Z :=
  if left <? 4 then 0
  else if left <? 8 then 4
  else if left <? 16 then 8
  else if left <? 17 then 16
  else if left <? 18 then 17
  else if left <? 20 then 18
  else 20.

(** A run that started on the cursor [rd] ended well: it returned or
    raised [EOFError], it left the buffer as it is and the cursor inside
    it, not before where it was and at least [k] bytes further when it
    returned, and what it returned satisfies [Q]. *)
Definition ends_well {A : Type} (rd : reader) (k : Z) (Q : A -> Prop)
    (r : outcome A * reader) : Prop :=
  match r with
  | (Ok a, rd') =>
      Q a /\ valid rd' /\ data rd' = data rd /\
      position rd + k <= position rd'
  | (Raise e, rd') =>
      e = EOFError /\ valid rd' /\ data rd' = data rd /\
      position rd <= position rd'
  | (Timeout, _) => False
  end.

(** [m] ends well on every valid cursor. *)
Definition advances {A : Type} (m : M A) (k : Z) (Q : A -> Prop) : Prop :=
  forall rd, valid rd -> ends_well rd k Q (m rd).

End RecordLayout.

(** ** Notions used to state more properties of the reader *)

Module ReaderNotions.

Import XLogReader.

(** The reader knows the size of its file, its file object stands where
    [current_position] says, and that is a page boundary. *)
Definition in_step (rd : reader) : Prop :=
  file_size rd = Z.of_nat (length (wal_file rd)) /\
  file_handle rd = Some (current_position rd) /\
  current_position rd mod WAL_BLOCK_SIZE = 0 /\
  0 <= current_position rd.

(** A generator made without [start_lsn] and [end_lsn] that has not
    finished. *)
Definition open_ended (g : generator) : Prop :=
  match g with
  | Created None None | Suspended None _ => True
  | _ => False
  end.

End ReaderNotions.

(** ** core/transaction_manager.py: queries, and notions for more
       properties of the tracker *)

Module TrackerMore.

Import WalParser TransactionManager.

(** [get_transaction_records] *)
Definition get_transaction_records (x : Z) (tm : tracker)
    : list XLogRecord :=
  match get_transaction x tm with
  | Some transaction => records transaction
  | None => []
  end.

(** Every entry sits under its own xid; an active entry is in progress
    and has no commit LSN, a committed entry is in state committed and has
    one. *)
Definition well_kept (tm : tracker) : Prop :=
  (forall x t, transactions tm !! x = Some t ->
     xid t = x /\ state t = IN_PROGRESS /\ commit_lsn t = None) /\
  (forall x t, committed_transactions tm !! x = Some t ->
     xid t = x /\ state t = COMMITTED /\ is_Some (commit_lsn t)).

End TrackerMore.

(** * Properties *)

(** ** The byte cursor *)

Module BinaryReaderFacts.

Import BinaryReader.

Lemma py_bound_inside (len i : Z) :
  0 <= i <= len -> py_bound len i = i.
Proof.
  intros Hi. unfold py_bound.
  destruct (i <? 0) eqn:E; lia.
Qed.

Lemma py_bound_beyond (len i : Z) :
  0 <= len <= i -> py_bound len i = len.
Proof.
  intros Hi. unfold py_bound.
  destruct (i <? 0) eqn:E; lia.
Qed.

(** Inside the buffer a slice is [firstn] of [skipn]. *)
Lemma py_slice_inside {A : Type} (l : list A) (lo n : Z) :
  0 <= lo -> 0 <= n -> lo + n <= Z.of_nat (List.length l) ->
  py_slice l lo (lo + n) = firstn (Z.to_nat n) (skipn (Z.to_nat lo) l).
Proof.
  intros Hlo Hn Hhi. unfold py_slice.
  rewrite !py_bound_inside by lia.
  do 2 f_equal. lia.
Qed.

Lemma py_slice_inside_length {A : Type} (l : list A) (lo n : Z) :
  0 <= lo -> 0 <= n -> lo + n <= Z.of_nat (List.length l) ->
  Z.of_nat (List.length (py_slice l lo (lo + n))) = n.
Proof.
  intros Hlo Hn Hhi. rewrite py_slice_inside by lia.
  rewrite length_firstn, length_skipn. lia.
Qed.

Lemma py_slice_from_inside {A : Type} (l : list A) (lo : Z) :
  0 <= lo <= Z.of_nat (List.length l) ->
  py_slice_from l lo = skipn (Z.to_nat lo) l.
Proof.
  intros Hlo. unfold py_slice_from. now rewrite py_bound_inside.
Qed.

(** *** C8 *)

(** C8. On every valid cursor and for every count [n >= 0],
    [peek_bytes n] returns normally with the cursor exactly as it was;
    what it returns is the prefix of length [n] of the unread bytes,
    which has [n] bytes when at least [n] remain and is all the unread
    bytes (possibly none) otherwise. *)
Theorem peek_bytes_never_fails_never_moves (rd : reader) (n : Z) :
  valid rd -> 0 <= n ->
  let unread := skipn (Z.to_nat (position rd)) (data rd) in
  peek_bytes n rd = (Ok (firstn (Z.to_nat n) unread), rd) /\
  (n <= length rd - position rd ->
     Z.of_nat (List.length (firstn (Z.to_nat n) unread)) = n) /\
  (length rd - position rd < n -> firstn (Z.to_nat n) unread = unread).
Proof.
  intros [Hlen Hpos] Hn unread. subst unread.
  assert (Hrest : List.length (skipn (Z.to_nat (position rd)) (data rd))
                  = Z.to_nat (length rd - position rd)).
  { rewrite length_skipn. lia. }
  split; [| split].
  - unfold peek_bytes.
    destruct (position rd + n >? length rd) eqn:E.
    + rewrite py_slice_from_inside by lia.
      rewrite firstn_all2; [reflexivity | lia].
    + rewrite py_slice_inside by lia. reflexivity.
  - intros Hle. rewrite length_firstn, Hrest. lia.
  - intros Hlt. apply firstn_all2. lia.
Qed.

Lemma peek_bytes_never_fails_never_moves_witness :
  let rd := {| data := ["a"%byte; "b"%byte; "c"%byte];
               position := 2; length := 3 |} in
  peek_bytes 2 rd = (Ok ["c"%byte], rd) /\
  peek_bytes 1 rd = (Ok ["c"%byte], rd) /\
  peek_bytes 0 (set_position rd 3) = (Ok [], set_position rd 3).
Proof.
  intros rd.
  assert (Hv : valid rd) by (unfold valid; simpl; lia).
  assert (Hv3 : valid (set_position rd 3)) by (unfold valid; simpl; lia).
  split; [| split].
  - exact (proj1 (peek_bytes_never_fails_never_moves rd 2 Hv ltac:(lia))).
  - exact (proj1 (peek_bytes_never_fails_never_moves rd 1 Hv ltac:(lia))).
  - exact (proj1 (peek_bytes_never_fails_never_moves
                    (set_position rd 3) 0 Hv3 ltac:(lia))).
Defined.

(** *** C9 *)

(** C9. [read_bytes n] and [skip_bytes n] raise exactly when fewer than
    [n] bytes remain ([position + n > length]); the exception is
    [EOFError] and the cursor the failed call leaves is the cursor it
    was given: position, buffer and length are untouched. *)
Theorem failed_read_or_skip_leaves_cursor (rd rd' : reader) (n : Z) (e : exn) :
  (read_bytes n rd = (Raise e, rd') <->
     e = EOFError /\ rd' = rd /\ length rd - position rd < n) /\
  (skip_bytes n rd = (Raise e, rd') <->
     e = EOFError /\ rd' = rd /\ length rd - position rd < n).
Proof.
  unfold read_bytes, skip_bytes.
  destruct (position rd + n >? length rd) eqn:E.
  - split; (split; [intros H; injection H as <- <-; repeat split; lia
                   | intros (-> & -> & _); reflexivity]).
  - split; (split; [intros H; discriminate H | intros (_ & _ & H); lia]).
Qed.

Lemma failed_read_or_skip_leaves_cursor_witness :
  let rd := {| data := ["a"%byte; "b"%byte; "c"%byte];
               position := 2; length := 3 |} in
  read_bytes 2 rd = (Raise EOFError, rd) /\
  skip_bytes 2 rd = (Raise EOFError, rd).
Proof.
  intros rd.
  destruct (failed_read_or_skip_leaves_cursor rd rd 2 EOFError) as [Hr Hs].
  split.
  - apply (proj2 Hr). split; [reflexivity | split; [reflexivity | simpl; lia]].
  - apply (proj2 Hs). split; [reflexivity | split; [reflexivity | simpl; lia]].
Defined.

End BinaryReaderFacts.

(** ** LSN text *)

Module LSNFacts.

Import Hexadecimal.

(** *** Hexadecimal words *)

(** An upper-case word is read digit by digit and printed back as it was. *)
Lemma uint_of_upper_string (s : string) :
  Hex.all_upper_hex s = true ->
  exists u, Hex.uint_of_string s = Some u /\ Hex.string_of_uint u = s.
Proof.
  induction s as [| c s IH]; intros Hs.
  - exists Nil. split; reflexivity.
  - simpl in Hs. apply andb_prop in Hs as [Hc Hs].
    destruct (IH Hs) as (u & Hu & Hp).
    destruct c as [[] [] [] [] [] [] [] []]; simpl in Hc; try discriminate Hc;
      simpl; rewrite Hu; eexists; (split; [reflexivity |]); simpl;
      now rewrite Hp.
Qed.

(** Without a leading zero the digits are already in normal form. *)
Lemma unorm_no_leading_zero (s : string) (u : uint) :
  Hex.upper_hex_word s = true -> Hex.no_leading_zero s = true ->
  Hex.uint_of_string s = Some u -> unorm u = u.
Proof.
  destruct s as [| c s]; [discriminate |].
  intros Hw Hz Hu. simpl in Hw. apply andb_prop in Hw as [Hc Hs].
  simpl in Hu.
  destruct (Hex.uint_of_string s) as [u' |] eqn:Hu'.
  2:{ destruct (Hex.digit_of_ascii c); discriminate Hu. }
  destruct c as [[] [] [] [] [] [] [] []]; simpl in Hc; try discriminate Hc;
    simpl in Hu; injection Hu as <-; try reflexivity.
  (* the digit is 0: the word is exactly "0" *)
  destruct s as [| c' s']; [| discriminate Hz].
  simpl in Hu'. injection Hu' as <-. reflexivity.
Qed.

(** Reading a printed word back: [format_X (int16 s) = s]. *)
Lemma format_int16 (s : string) :
  Hex.upper_hex_word s = true -> Hex.no_leading_zero s = true ->
  exists v, Hex.int16 s = Ok v /\ 0 <= v /\ Hex.format_X v = s.
Proof.
  intros Hw Hz.
  assert (Hall : Hex.all_upper_hex s = true).
  { destruct s; [discriminate | exact Hw]. }
  destruct (uint_of_upper_string s Hall) as (u & Hu & Hp).
  exists (Z.of_N (N.of_hex_uint u)). split; [| split].
  - unfold Hex.int16. destruct s; [discriminate |]. now rewrite Hu.
  - lia.
  - assert (Hf : forall n, Hex.format_X (Z.of_N n)
                           = Hex.string_of_uint (N.to_hex_uint n)).
    { intros [| p]; reflexivity. }
    rewrite Hf, HexadecimalN.Unsigned.to_of.
    now rewrite (unorm_no_leading_zero s u Hw Hz Hu).
Qed.

(** *** The size of a word bounds its value *)

Lemma of_hex_uint_acc_bound (u : uint) (acc : positive) :
  Z.pos (Pos.of_hex_uint_acc u acc) < (Z.pos acc + 1) * 16 ^ Z.of_nat (Hex.digits u).
Proof.
  revert acc.
  induction u as [| u IH | u IH | u IH | u IH | u IH | u IH | u IH | u IH
                  | u IH | u IH | u IH | u IH | u IH | u IH | u IH | u IH];
    intros acc;
    [ simpl; lia | .. ];
    cbn [Pos.of_hex_uint_acc Hex.digits];
    rewrite Nat2Z.inj_succ, Z.pow_succ_r by lia;
    match goal with
    | |- Z.pos (Pos.of_hex_uint_acc _ ?a) < _ => specialize (IH a)
    end;
    assert (0 < 16 ^ Z.of_nat (Hex.digits u)) by (apply Z.pow_pos_nonneg; lia);
    nia.
Qed.

Lemma of_hex_uint_bound (u : uint) :
  Z.of_N (Pos.of_hex_uint u) < 16 ^ Z.of_nat (Hex.digits u).
Proof.
  induction u as [| u IH | u IH | u IH | u IH | u IH | u IH | u IH | u IH
                  | u IH | u IH | u IH | u IH | u IH | u IH | u IH | u IH];
    [ simpl; lia | .. ];
    cbn [Pos.of_hex_uint Hex.digits];
    rewrite Nat2Z.inj_succ, Z.pow_succ_r by lia;
    assert (0 < 16 ^ Z.of_nat (Hex.digits u)) by (apply Z.pow_pos_nonneg; lia);
    [ lia | .. ];
    match goal with
    | |- Z.of_N (N.pos (Pos.of_hex_uint_acc _ ?a)) < _ =>
        pose proof (of_hex_uint_acc_bound u a)
    end;
    cbn [Z.of_N]; nia.
Qed.

Lemma digits_uint_of_string (s : string) (u : uint) :
  Hex.uint_of_string s = Some u -> Hex.digits u = String.length s.
Proof.
  revert u. induction s as [| c s IH]; intros u Hu.
  - injection Hu as <-. reflexivity.
  - simpl in Hu.
    destruct (Hex.digit_of_ascii c) as [d |] eqn:Hd; [| discriminate Hu].
    destruct (Hex.uint_of_string s) as [u' |]; [| discriminate Hu].
    injection Hu as <-. specialize (IH u' eq_refl). simpl. rewrite <- IH.
    unfold Hex.digit_of_ascii in Hd.
    destruct c as [[] [] [] [] [] [] [] []]; try discriminate Hd;
      injection Hd as <-; reflexivity.
Qed.

Lemma int16_bound (s : string) (v : Z) :
  Hex.int16 s = Ok v -> 0 <= v < 16 ^ Z.of_nat (String.length s).
Proof.
  unfold Hex.int16. intros H.
  destruct s as [| c s]; [discriminate H |].
  destruct (Hex.uint_of_string (String c s)) as [u |] eqn:Hu; [| discriminate H].
  injection H as <-.
  rewrite <- (digits_uint_of_string _ _ Hu).
  pose proof (of_hex_uint_bound u). unfold N.of_hex_uint. lia.
Qed.

(** *** Splitting at the separator *)

Lemma split_not_nil (sep : ascii) (s : string) : LSN.split sep s <> [].
Proof.
  destruct s as [| c s]; simpl; [discriminate |].
  destruct (Ascii.eqb c sep); [discriminate |].
  destruct (LSN.split sep s); discriminate.
Qed.

Lemma split_one (sep : ascii) (s l : string) :
  LSN.split sep s = [l] -> s = l.
Proof.
  revert l. induction s as [| c s IH]; intros l H; simpl in H.
  - now injection H.
  - destruct (Ascii.eqb c sep).
    + injection H as _ H. now apply split_not_nil in H.
    + destruct (LSN.split sep s) as [| p ps] eqn:E; [now apply split_not_nil in E |].
      injection H as <- ->. now rewrite (IH p eq_refl).
Qed.

Lemma split_two (sep : ascii) (s h l : string) :
  LSN.split sep s = [h; l] ->
  s = (h ++ String sep l)%string /\ LSN.contains sep s = true.
Proof.
  revert h. induction s as [| c s IH]; intros h H; simpl in H.
  - discriminate H.
  - simpl. destruct (Ascii.eqb c sep) eqn:Ec.
    + apply Ascii.eqb_eq in Ec as ->. injection H as <- H.
      apply split_one in H as ->. split; reflexivity.
    + destruct (LSN.split sep s) as [| p ps] eqn:E; [now apply split_not_nil in E |].
      injection H as <- ->. destruct (IH p eq_refl) as [-> Hc].
      split; [reflexivity | exact Hc].
Qed.

(** *** The two halves of the value *)

Lemma halves_of_value (high low : Z) :
  0 <= high -> 0 <= low < 2 ^ 32 ->
  Z.shiftr (Z.lor (Z.shiftl high 32) low) 32 = high /\
  Z.land (Z.lor (Z.shiftl high 32) low) 0xFFFFFFFF = low.
Proof.
  intros Hh Hl. split.
  - rewrite Z.shiftr_lor, Z.shiftr_shiftl_l, Z.sub_diag, Z.shiftl_0_r by lia.
    rewrite (Z.shiftr_div_pow2 low) by lia.
    rewrite Z.div_small by lia. apply Z.lor_0_r.
  - change 0xFFFFFFFF with (Z.ones 32).
    rewrite Z.land_lor_distr_l, !Z.land_ones by lia.
    rewrite Z.shiftl_mul_pow2 by lia.
    rewrite Z.mod_mul by lia. rewrite Z.mod_small by lia. reflexivity.
Qed.

(** *** C7 *)

(** C7 (as amended).  For every text [s] of the shape [[0-9A-F]+/[0-9A-F]+]
    in which neither half has a leading zero (a half that is exactly "0"
    apart) and whose low half has at most eight digits, building an LSN
    from [s] succeeds and [to_string] gives [s] back. *)
Theorem lsn_text_round_trip (s : string) :
  LSN.matches_lsn_text s = true ->
  LSN.no_leading_zeros s = true ->
  LSN.low_fits_32 s = true ->
  exists l, LSN.of_string s = Ok l /\ LSN.to_string l = s.
Proof.
  unfold LSN.matches_lsn_text, LSN.no_leading_zeros, LSN.low_fits_32.
  destruct (LSN.split "/" s) as [| h [| l [| ? ?]]] eqn:Hsplit;
    try discriminate.
  intros Hm Hz H8.
  apply andb_prop in Hm as [Hmh Hml]. apply andb_prop in Hz as [Hzh Hzl].
  apply Nat.leb_le in H8.
  destruct (split_two _ _ _ _ Hsplit) as [Hs Hc].
  destruct (format_int16 h Hmh Hzh) as (high & Hhigh & Hhigh0 & Hph).
  destruct (format_int16 l Hml Hzl) as (low & Hlow & Hlow0 & Hpl).
  assert (Hlt : low < 2 ^ 32).
  { pose proof (int16_bound l low Hlow) as [_ Hb].
    assert (16 ^ Z.of_nat (String.length l) <= 16 ^ 8)
      by (apply Z.pow_le_mono_r; lia).
    change (2 ^ 32) with (16 ^ 8). lia. }
  destruct (halves_of_value high low Hhigh0 (conj Hlow0 Hlt)) as [Hid Hoff].
  exists (LSN.mkLSN (Z.lor (Z.shiftl high 32) low)). split.
  - unfold LSN.of_string, LSN._parse_string.
    rewrite Hc, Hsplit. simpl negb. cbv iota.
    destruct h as [| ch h']; [discriminate Hmh |].
    now rewrite Hhigh, Hlow.
  - unfold LSN.to_string, LSN.file_id, LSN.file_offset. simpl LSN.value.
    now rewrite Hid, Hoff, Hph, Hpl, Hs.
Qed.

Lemma lsn_text_round_trip_witness :
  (exists l, LSN.of_string "0/0" = Ok l /\ LSN.to_string l = "0/0"%string) /\
  (exists l, LSN.of_string "FFFFFFFF/FFFFFFFF" = Ok l /\
             LSN.to_string l = "FFFFFFFF/FFFFFFFF"%string) /\
  (exists l, LSN.of_string "0/16B37B0" = Ok l /\
             LSN.to_string l = "0/16B37B0"%string).
Proof.
  split; [| split].
  - apply (lsn_text_round_trip "0/0"); reflexivity.
  - apply (lsn_text_round_trip "FFFFFFFF/FFFFFFFF"); reflexivity.
  - apply (lsn_text_round_trip "0/16B37B0"); reflexivity.
Defined.

(** C7 as stated fails: the text "0/100000000" has the required shape and
    no leading zero, but its low half needs 33 bits; it is read as the
    value [2^32] and printed as "1/0". *)
Lemma lsn_text_round_trip_fails_on_wide_low_half :
  LSN.matches_lsn_text "0/100000000" = true /\
  LSN.no_leading_zeros "0/100000000" = true /\
  LSN.of_string "0/100000000" = Ok (LSN.mkLSN (2 ^ 32)) /\
  LSN.to_string (LSN.mkLSN (2 ^ 32)) = "1/0"%string /\
  ~ (exists l, LSN.of_string "0/100000000" = Ok l /\
               LSN.to_string l = "0/100000000"%string).
Proof.
  repeat split.
  intros (l & Hl & Hs). vm_compute in Hl. injection Hl as <-.
  vm_compute in Hs. discriminate Hs.
Qed.

End LSNFacts.

(** ** The transaction tracker *)

Module TrackerFacts.

Import WalParser TransactionManager Fixtures.

(** *** The resource manager of a record *)

Lemma transaction_rmgr (record : XLogRecord) :
  xl_rmid record = 1 ->
  String.eqb (get_rmgr_name (xl_rmid record)) "Transaction" = true.
Proof. intros ->. reflexivity. Qed.

Lemma heap_rmgr (record : XLogRecord) :
  xl_rmid record = 10 ->
  String.eqb (get_rmgr_name (xl_rmid record)) "Transaction" = false.
Proof. intros ->. reflexivity. Qed.

(** *** The order in which a set of subxids is visited does not matter *)

Lemma commit_sub_comm (record : XLogRecord) (a b : Z) (tm : tracker) :
  commit_sub record a (commit_sub record b tm)
  = commit_sub record b (commit_sub record a tm).
Proof.
  destruct (decide (a = b)) as [-> | Hne]; [reflexivity |].
  unfold commit_sub.
  destruct (transactions tm !! a) as [ta |] eqn:Ha;
    destruct (transactions tm !! b) as [tb |] eqn:Hb; simpl;
    rewrite ?lookup_delete_ne by done; rewrite ?Ha, ?Hb; simpl;
    try reflexivity.
  f_equal; [apply delete_delete | now apply insert_insert_ne].
Qed.

Lemma abort_sub_comm (record : XLogRecord) (a b : Z) (tm : tracker) :
  abort_sub record a (abort_sub record b tm)
  = abort_sub record b (abort_sub record a tm).
Proof.
  destruct (decide (a = b)) as [-> | Hne]; [reflexivity |].
  unfold abort_sub.
  destruct (transactions tm !! a) as [ta |] eqn:Ha;
    destruct (transactions tm !! b) as [tb |] eqn:Hb; simpl;
    rewrite ?lookup_delete_ne by done; rewrite ?Ha, ?Hb; simpl;
    try reflexivity.
  f_equal; [apply delete_delete | now apply insert_insert_ne].
Qed.

(** Whatever order the interpreter enumerates the set in, the loop ends
    in the tracker [set_fold] gives. *)
Lemma subtransaction_loop_any_order (f : Z -> tracker -> tracker)
    (subs : gset Z) (l : list Z) (tm : tracker) :
  (forall a b t, f a (f b t) = f b (f a t)) ->
  l ≡ₚ elements subs ->
  foldr f tm l = set_fold f tm subs.
Proof.
  intros Hcomm Hperm. unfold set_fold. simpl.
  induction Hperm as [| x l1 l2 _ IH | x y l1 | l1 l2 l3 _ IH1 _ IH2]; simpl.
  - reflexivity.
  - now rewrite IH.
  - apply Hcomm.
  - now rewrite IH1.
Qed.
(** *** The subtransaction loop of a commit *)

Section CommitLoop.

Variable record : XLogRecord.

Lemma commit_sub_count (a : Z) (tm : tracker) :
  committed_count (commit_sub record a tm) = committed_count tm.
Proof. unfold commit_sub. now destruct (transactions tm !! a). Qed.

Lemma commit_sub_inactive (a x : Z) (tm : tracker) :
  transactions tm !! x = None ->
  transactions (commit_sub record a tm) !! x = None /\
  committed_transactions (commit_sub record a tm) !! x
    = committed_transactions tm !! x.
Proof.
  intros Hx. unfold commit_sub.
  destruct (transactions tm !! a) as [t |] eqn:Ha; [| easy].
  assert (a <> x) by congruence. simpl.
  rewrite lookup_delete_ne, lookup_insert_ne by done. easy.
Qed.

Lemma commit_sub_moves (a : Z) (tm : tracker) :
  is_Some (transactions tm !! a) -> committed_by record a (commit_sub record a tm).
Proof.
  intros [t Ht]. unfold committed_by, commit_sub. rewrite Ht. simpl.
  rewrite lookup_delete_eq, lookup_insert_eq. split; [done |].
  eexists. split; [reflexivity |]. split; reflexivity.
Qed.

Lemma commit_sub_keeps (a x : Z) (tm : tracker) :
  committed_by record x tm -> committed_by record x (commit_sub record a tm).
Proof.
  intros [Hx Hc]. unfold committed_by.
  destruct (commit_sub_inactive a x tm Hx) as [-> ->]. easy.
Qed.

Lemma commit_sub_active_or_done (a x : Z) (tm : tracker) :
  is_Some (transactions tm !! x) \/ committed_by record x tm ->
  is_Some (transactions (commit_sub record a tm) !! x) \/
  committed_by record x (commit_sub record a tm).
Proof.
  intros [Hact | Hdone].
  - destruct (decide (a = x)) as [-> | Hne].
    + right. now apply commit_sub_moves.
    + left. unfold commit_sub.
      destruct (transactions tm !! a); [| done]. simpl.
      now rewrite lookup_delete_ne.
  - right. now apply commit_sub_keeps.
Qed.

Lemma commit_loop_count (l : list Z) (tm : tracker) :
  committed_count (foldr (commit_sub record) tm l) = committed_count tm.
Proof.
  induction l as [| a l IH]; [reflexivity |].
  simpl. now rewrite commit_sub_count.
Qed.

Lemma commit_loop_keeps (l : list Z) (x : Z) (tm : tracker) :
  committed_by record x tm -> committed_by record x (foldr (commit_sub record) tm l).
Proof.
  intros H. induction l as [| a l IH]; [exact H |].
  simpl. now apply commit_sub_keeps.
Qed.

Lemma commit_loop_active_or_done (l : list Z) (x : Z) (tm : tracker) :
  is_Some (transactions tm !! x) \/ committed_by record x tm ->
  is_Some (transactions (foldr (commit_sub record) tm l) !! x) \/
  committed_by record x (foldr (commit_sub record) tm l).
Proof.
  intros H. induction l as [| a l IH]; [exact H |].
  simpl. now apply commit_sub_active_or_done.
Qed.

Lemma commit_loop_moves (l : list Z) (x : Z) (tm : tracker) :
  x ∈ l -> is_Some (transactions tm !! x) ->
  committed_by record x (foldr (commit_sub record) tm l).
Proof.
  intros Hin Hact. induction l as [| a l IH]; [by apply elem_of_nil in Hin |].
  simpl. apply elem_of_cons in Hin as [<- | Hin].
  - destruct (commit_loop_active_or_done l x tm (or_introl Hact)) as [H | H].
    + now apply commit_sub_moves.
    + now apply commit_sub_keeps.
  - apply commit_sub_keeps. now apply IH.
Qed.

(** What [_commit_transaction] does to an active xid. *)
Lemma commit_transaction_active (x : Z) (t : TransactionInfo) (tm : tracker) :
  transactions tm !! x = Some t ->
  let tm' := _commit_transaction x record tm in
  committed_count tm' = committed_count tm + 1 /\
  committed_by record x tm' /\
  (forall s, s ∈ subtransactions t -> is_Some (transactions tm !! s) ->
             committed_by record s tm').
Proof.
  intros Ht tm'. subst tm'. unfold _commit_transaction. rewrite Ht.
  unfold set_fold. simpl.
  set (tm1 := {| transactions := delete x (transactions tm) |}).
  assert (Hx : committed_by record x tm1).
  { unfold committed_by, tm1. simpl.
    rewrite lookup_delete_eq, lookup_insert_eq. split; [done |].
    eexists. split; [reflexivity |]. split; reflexivity. }
  split; [| split].
  - now rewrite commit_loop_count.
  - now apply commit_loop_keeps.
  - intros s Hs Hact. destruct (decide (s = x)) as [-> | Hne].
    + now apply commit_loop_keeps.
    + apply commit_loop_moves.
      * now apply elem_of_elements.
      * unfold tm1. simpl. now rewrite lookup_delete_ne.
Qed.

End CommitLoop.

(** *** C2 *)

(** C2 (as amended).  When the xid of a COMMIT record (rmid Transaction,
    info byte 0x00) is active, processing the record raises
    [committed_count] by one and [get_transaction] then gives that xid a
    transaction in state committed whose [commit_lsn] is the text form of
    the record's [xl_prev]. *)
Theorem commit_record_of_active_xid
    (record : XLogRecord) (t : TransactionInfo) (tm : tracker) :
  xl_rmid record = 1 -> xl_info record = 0 ->
  transactions tm !! xl_xid record = Some t ->
  let tm' := process_record record tm in
  committed_count tm' = committed_count tm + 1 /\
  exists t', get_transaction (xl_xid record) tm' = Some t' /\
             state t' = COMMITTED /\
             commit_lsn t' = Some (LSN.to_string (xl_prev record)).
Proof.
  intros Hrm Hinfo Ht tm'. subst tm'.
  unfold process_record. rewrite (transaction_rmgr record Hrm).
  unfold _process_transaction_record, get_info. rewrite Hinfo. simpl.
  destruct (commit_transaction_active record _ _ _ Ht)
    as (Hcount & (Hgone & t' & Ht' & Hstate & Hlsn) & _).
  split; [exact Hcount |].
  exists t'. unfold get_transaction. rewrite Hgone, Ht'. easy.
Qed.

Lemma commit_record_of_active_xid_witness :
  let heap42 := bare_record RM_HEAP_ID 0 42 0x16B3700 in
  let commit42 := bare_record RM_XACT_ID 0 42 0x16B37B0 in
  let tm' := run [ProcessRecord heap42; ProcessRecord commit42] init in
  committed_count tm' = 1 /\
  exists t', get_transaction 42 tm' = Some t' /\
             state t' = COMMITTED /\
             commit_lsn t' = Some "0/16B37B0"%string.
Proof.
  intros heap42 commit42 tm'.
  assert (Hact : is_Some (transactions (process_record heap42 init) !! 42))
    by (vm_compute; eauto).
  destruct Hact as [t Ht].
  exact (commit_record_of_active_xid commit42 t (process_record heap42 init)
           eq_refl eq_refl Ht).
Defined.

(** C2 as stated fails: on a fresh tracker xid 42 is not active, and the
    COMMIT record is ignored. *)
Lemma commit_record_on_fresh_tracker_is_ignored :
  let commit42 := bare_record RM_XACT_ID 0 42 0x16B37B0 in
  let tm' := process_record commit42 init in
  tm' = init /\ committed_count tm' = 0 /\ get_transaction 42 tm' = None /\
  ~ (committed_count tm' = 1).
Proof. repeat split. vm_compute. discriminate. Qed.

(** *** C6 *)




(** A link that is named again with another parent is moved in the
    subtransaction map only: the set of the first parent keeps the
    subxid, and a COMMIT of the first parent still commits it. *)
Lemma renamed_parent_keeps_the_old_link :
  let heap3 := bare_record RM_HEAP_ID 0 3 0x80 in
  let commit3 := bare_record RM_XACT_ID 0 3 0x200 in
  let tm := add_subtransaction 5 7
              (add_subtransaction 3 7 (process_record heap3 init)) in
  get_parent_transaction 7 tm = Some 5 /\
  is_transaction_active 5 tm = false /\
  (exists p, transactions tm !! 3 = Some p /\
             elements (subtransactions p) = [7]) /\
  is_transaction_committed 7 (process_record commit3 tm) = true.
Proof.
  vm_compute. split; [reflexivity |]. split; [reflexivity |].
  split; [| reflexivity]. eexists. split; reflexivity.
Qed.

(** *** C1 *)

(** C1 (the code departs from it).  The tracker dispatches on
    [get_info], the low nibble [info & 0x0F]: an info byte of 0x10 gives 0
    and is handled as COMMIT.  After the three records Heap xid 100,
    Heap xid 101, Transaction info 0x10 xid 100, xid 100 is in the
    committed map, the aborted map is empty, and xid 101 is active. *)
Theorem abort_record_is_handled_as_commit :
  let records :=
    [ ProcessRecord (bare_record RM_HEAP_ID 0 100 0x100);
      ProcessRecord (bare_record RM_HEAP_ID 0 101 0x200);
      ProcessRecord (bare_record RM_XACT_ID 0x10 100 0x300) ] in
  let tm := run records init in
  get_info (bare_record RM_XACT_ID 0x10 100 0x300) = 0 /\
  dom (aborted_transactions tm) = ∅ /\
  dom (committed_transactions tm) = {[ 100 ]} /\
  dom (transactions tm) = {[ 101 ]} /\
  state <$> get_transaction 100 tm = Some COMMITTED /\
  aborted_count tm = 0 /\ committed_count tm = 1.
Proof. vm_compute. repeat split. Qed.

(** *** Moving keys between the three maps *)

Section Exclusive.

Implicit Types A C B : gmap Z TransactionInfo.

Lemma exclusive_move_committed A C B (a : Z) (v : TransactionInfo) :
  exclusive_maps A C B -> is_Some (A !! a) ->
  exclusive_maps (delete a A) (<[a := v]> C) B.
Proof.
  intros H Ha x. destruct (decide (x = a)) as [-> | Hne].
  - rewrite lookup_delete_eq. split.
    + intros [? ?]; discriminate.
    + intros _. destruct (H a) as [H1 _]. now destruct (H1 Ha).
  - rewrite lookup_delete_ne, lookup_insert_ne by done. apply H.
Qed.

Lemma exclusive_move_aborted A C B (a : Z) (v : TransactionInfo) :
  exclusive_maps A C B -> is_Some (A !! a) ->
  exclusive_maps (delete a A) C (<[a := v]> B).
Proof.
  intros H Ha x. destruct (decide (x = a)) as [-> | Hne].
  - rewrite lookup_delete_eq. split.
    + intros [? ?]; discriminate.
    + intros [c Hc]. destruct (H a) as [H1 _].
      destruct (H1 Ha) as [Hnone _]. congruence.
  - rewrite lookup_delete_ne, lookup_insert_ne by done. apply H.
Qed.

Lemma exclusive_update A C B (a : Z) (v : TransactionInfo) :
  exclusive_maps A C B -> is_Some (A !! a) ->
  exclusive_maps (<[a := v]> A) C B.
Proof.
  intros H Ha x. destruct (decide (x = a)) as [-> | Hne].
  - split; [intros _; destruct (H a) as [H1 _]; exact (H1 Ha) | apply H].
  - rewrite lookup_insert_ne by done. apply H.
Qed.

Lemma exclusive_create A C B (a : Z) (v : TransactionInfo) :
  exclusive_maps A C B -> C !! a = None -> B !! a = None ->
  exclusive_maps (<[a := v]> A) C B.
Proof.
  intros H Hc Hb x. destruct (decide (x = a)) as [-> | Hne].
  - split; [intros _; now split | apply H].
  - rewrite lookup_insert_ne by done. apply H.
Qed.

End Exclusive.

Lemma not_terminal (x : Z) (tm : tracker) :
  is_terminal x tm = false ->
  committed_transactions tm !! x = None /\ aborted_transactions tm !! x = None.
Proof.
  unfold is_terminal, is_transaction_committed, is_transaction_aborted.
  intros H. apply orb_false_elim in H as [Hc Ha].
  apply bool_decide_eq_false in Hc, Ha.
  split; apply eq_None_not_Some; assumption.
Qed.

(** *** Every handler keeps the maps exclusive *)

Lemma commit_sub_exclusive (record : XLogRecord) (a : Z) (tm : tracker) :
  exclusive tm -> exclusive (commit_sub record a tm).
Proof.
  unfold exclusive, commit_sub. intros H.
  destruct (transactions tm !! a) eqn:Ha; [| exact H].
  simpl. apply exclusive_move_committed; [exact H | rewrite Ha; eauto].
Qed.

Lemma abort_sub_exclusive (record : XLogRecord) (a : Z) (tm : tracker) :
  exclusive tm -> exclusive (abort_sub record a tm).
Proof.
  unfold exclusive, abort_sub. intros H.
  destruct (transactions tm !! a) eqn:Ha; [| exact H].
  simpl. apply exclusive_move_aborted; [exact H | rewrite Ha; eauto].
Qed.

Lemma commit_loop_exclusive (record : XLogRecord) (l : list Z) (tm : tracker) :
  exclusive tm -> exclusive (foldr (commit_sub record) tm l).
Proof.
  intros H. induction l as [| a l IH]; simpl; [exact H |].
  now apply commit_sub_exclusive.
Qed.

Lemma commit_transaction_exclusive (x : Z) (record : XLogRecord) (tm : tracker) :
  exclusive tm -> exclusive (_commit_transaction x record tm).
Proof.
  intros H. unfold _commit_transaction.
  destruct (transactions tm !! x) eqn:Hx; [| exact H].
  unfold set_fold. simpl. apply commit_loop_exclusive.
  unfold exclusive. simpl.
  apply exclusive_move_committed; [exact H | rewrite Hx; eauto].
Qed.

Lemma abort_loop_exclusive (record : XLogRecord) (l : list Z) (tm : tracker) :
  exclusive tm -> exclusive (foldr (abort_sub record) tm l).
Proof.
  intros H. induction l as [| a l IH]; simpl; [exact H |].
  now apply abort_sub_exclusive.
Qed.

Lemma abort_transaction_exclusive (x : Z) (record : XLogRecord) (tm : tracker) :
  exclusive tm -> exclusive (_abort_transaction x record tm).
Proof.
  intros H. unfold _abort_transaction.
  destruct (transactions tm !! x) eqn:Hx; [| exact H].
  unfold set_fold. simpl. apply abort_loop_exclusive.
  unfold exclusive. simpl.
  apply exclusive_move_aborted; [exact H | rewrite Hx; eauto].
Qed.

Lemma create_transaction_exclusive (x : Z) (record : XLogRecord) (tm : tracker) :
  exclusive tm -> is_terminal x tm = false ->
  exclusive (_create_transaction x record tm).
Proof.
  intros H Hnt. destruct (not_terminal x tm Hnt) as [Hc Ha].
  unfold exclusive, _create_transaction. simpl.
  now apply exclusive_create.
Qed.

Lemma update_active_exclusive (x : Z) (v : TransactionInfo) (tm : tracker) :
  exclusive tm -> is_Some (transactions tm !! x) ->
  exclusive (set_transactions (<[x := v]> (transactions tm)) tm).
Proof.
  intros H Hx. unfold exclusive, set_transactions. simpl.
  now apply exclusive_update.
Qed.

Lemma process_transaction_record_exclusive (record : XLogRecord) (tm : tracker) :
  exclusive tm -> is_terminal (xl_xid record) tm = false ->
  exclusive (_process_transaction_record record tm).
Proof.
  intros H Hnt. unfold _process_transaction_record.
  repeat match goal with
         | |- context [if ?b then _ else _] => destruct b
         end.
  - now apply commit_transaction_exclusive.
  - now apply abort_transaction_exclusive.
  - unfold _prepare_transaction.
    destruct (transactions tm !! xl_xid record) eqn:E; [| exact H].
    apply update_active_exclusive; [exact H | rewrite E; eauto].
  - unfold _commit_prepared_transaction.
    destruct (transactions tm !! xl_xid record); [| exact H].
    now apply commit_transaction_exclusive.
  - unfold _abort_prepared_transaction.
    destruct (transactions tm !! xl_xid record); [| exact H].
    now apply abort_transaction_exclusive.
  - exact H.
  - exact H.
  - unfold _process_other_transaction_record.
    destruct (transactions tm !! xl_xid record) eqn:E.
    + apply update_active_exclusive; [exact H | rewrite E; eauto].
    + now apply create_transaction_exclusive.
Qed.

Lemma process_general_record_exclusive (record : XLogRecord) (tm : tracker) :
  exclusive tm -> is_terminal (xl_xid record) tm = false ->
  exclusive (_process_general_record record tm).
Proof.
  intros H Hnt. unfold _process_general_record.
  set (tm1 := match transactions tm !! xl_xid record with
              | Some _ => tm
              | None => _create_transaction (xl_xid record) record tm
              end).
  assert (H1 : exclusive tm1).
  { unfold tm1. destruct (transactions tm !! xl_xid record); [exact H |].
    now apply create_transaction_exclusive. }
  destruct (transactions tm1 !! xl_xid record) eqn:E; [| exact H1].
  apply update_active_exclusive; [exact H1 | rewrite E; eauto].
Qed.

Lemma add_subtransaction_exclusive (parent sub : Z) (tm : tracker) :
  exclusive tm -> is_terminal sub tm = false ->
  exclusive (add_subtransaction parent sub tm).
Proof.
  intros H Hnt. destruct (not_terminal sub tm Hnt) as [Hc Ha].
  unfold exclusive, add_subtransaction. simpl.
  set (active1 := match transactions tm !! parent with
                  | Some p => <[parent := info_add_subtransaction sub p]>
                                (transactions tm)
                  | None => transactions tm
                  end).
  assert (H1 : exclusive_maps active1 (committed_transactions tm)
                 (aborted_transactions tm)).
  { unfold active1. destruct (transactions tm !! parent) eqn:E; [| exact H].
    apply exclusive_update; [exact H | rewrite E; eauto]. }
  destruct (active1 !! sub); [exact H1 |].
  now apply exclusive_create.
Qed.

Lemma step_exclusive (c : call) (tm : tracker) :
  exclusive tm -> late tm c = false -> exclusive (step tm c).
Proof.
  intros H Hl. destruct c as [record | parent sub]; simpl in *.
  - unfold process_record.
    destruct (String.eqb _ _).
    + now apply process_transaction_record_exclusive.
    + destruct (negb _); [| exact H].
      now apply process_general_record_exclusive.
  - now apply add_subtransaction_exclusive.
Qed.

Lemma run_exclusive (calls : list call) (tm : tracker) :
  exclusive tm -> no_late_call calls tm = true -> exclusive (run calls tm).
Proof.
  revert tm. induction calls as [| c calls IH]; intros tm H Hl; [exact H |].
  simpl in Hl. apply andb_prop in Hl as [Hc Hrest].
  apply negb_true_iff in Hc. simpl. apply IH; [| exact Hrest].
  now apply step_exclusive.
Qed.

Lemma init_exclusive : exclusive init.
Proof. intros x. split; intros _; try split; apply lookup_empty. Qed.

(** *** No handler removes a key from a terminal map *)

Lemma terminal_kept_refl (tm : tracker) : terminal_kept tm tm.
Proof. split; reflexivity. Qed.

Lemma terminal_kept_trans (tm1 tm2 tm3 : tracker) :
  terminal_kept tm1 tm2 -> terminal_kept tm2 tm3 -> terminal_kept tm1 tm3.
Proof. intros [? ?] [? ?]. split; etransitivity; eassumption. Qed.

Lemma commit_sub_keeps_terminal (record : XLogRecord) (a : Z) (tm : tracker) :
  terminal_kept tm (commit_sub record a tm).
Proof.
  unfold terminal_kept, commit_sub.
  destruct (transactions tm !! a); simpl; [| done].
  split; [set_solver | done].
Qed.

Lemma abort_sub_keeps_terminal (record : XLogRecord) (a : Z) (tm : tracker) :
  terminal_kept tm (abort_sub record a tm).
Proof.
  unfold terminal_kept, abort_sub.
  destruct (transactions tm !! a); simpl; [| done].
  split; [done | set_solver].
Qed.

Lemma commit_loop_keeps_terminal (record : XLogRecord) (l : list Z) (tm : tracker) :
  terminal_kept tm (foldr (commit_sub record) tm l).
Proof.
  induction l as [| a l IH]; simpl; [apply terminal_kept_refl |].
  eapply terminal_kept_trans; [exact IH | apply commit_sub_keeps_terminal].
Qed.

Lemma abort_loop_keeps_terminal (record : XLogRecord) (l : list Z) (tm : tracker) :
  terminal_kept tm (foldr (abort_sub record) tm l).
Proof.
  induction l as [| a l IH]; simpl; [apply terminal_kept_refl |].
  eapply terminal_kept_trans; [exact IH | apply abort_sub_keeps_terminal].
Qed.

Lemma commit_transaction_keeps_terminal (x : Z) (record : XLogRecord) (tm : tracker) :
  terminal_kept tm (_commit_transaction x record tm).
Proof.
  unfold _commit_transaction.
  destruct (transactions tm !! x); [| apply terminal_kept_refl].
  unfold set_fold. simpl.
  eapply terminal_kept_trans; [| apply commit_loop_keeps_terminal].
  split; simpl; [set_solver | done].
Qed.

Lemma abort_transaction_keeps_terminal (x : Z) (record : XLogRecord) (tm : tracker) :
  terminal_kept tm (_abort_transaction x record tm).
Proof.
  unfold _abort_transaction.
  destruct (transactions tm !! x); [| apply terminal_kept_refl].
  unfold set_fold. simpl.
  eapply terminal_kept_trans; [| apply abort_loop_keeps_terminal].
  split; simpl; [done | set_solver].
Qed.

Lemma step_keeps_terminal (c : call) (tm : tracker) :
  terminal_kept tm (step tm c).
Proof.
  destruct c as [record | parent sub]; simpl.
  - unfold process_record. destruct (String.eqb _ _).
    + unfold _process_transaction_record,
        _commit_prepared_transaction, _abort_prepared_transaction,
        _prepare_transaction, _process_other_transaction_record,
        _process_assignment, _process_invalid.
      repeat match goal with
             | |- context [if ?b then _ else _] => destruct b
             end;
        try (destruct (transactions tm !! xl_xid record));
        first [ apply commit_transaction_keeps_terminal
              | apply abort_transaction_keeps_terminal
              | apply terminal_kept_refl
              | split; simpl; reflexivity ].
    + destruct (negb _); [| apply terminal_kept_refl].
      unfold _process_general_record.
      destruct (transactions tm !! xl_xid record);
        match goal with
        | |- context [match ?m !! ?k with _ => _ end] => destruct (m !! k)
        end; split; simpl; reflexivity.
  - split; simpl; reflexivity.
Qed.

Lemma run_keeps_terminal (calls : list call) (tm : tracker) :
  terminal_kept tm (run calls tm).
Proof.
  revert tm. induction calls as [| c calls IH]; intros tm; simpl.
  - apply terminal_kept_refl.
  - eapply terminal_kept_trans; [apply step_keeps_terminal | apply IH].
Qed.

(** *** C5 *)

(** C5 (as amended).  Whatever calls are made, an xid that is a key of
    the committed (of the aborted) map stays a key of that map.  After a
    sequence of [process_record] and [add_subtransaction] calls on a
    fresh tracker none of which is late (bears an xid that is terminal
    when the call is made), no xid is a key of two of the maps active,
    committed and aborted.  The tracker does not drop late calls. *)
Theorem terminal_xids_stay_and_maps_exclusive (calls : list call) :
  (forall (tm : tracker) (x : Z),
     (is_transaction_committed x tm = true ->
        is_transaction_committed x (run calls tm) = true) /\
     (is_transaction_aborted x tm = true ->
        is_transaction_aborted x (run calls tm) = true)) /\
  (no_late_call calls init = true -> exclusive (run calls init)).
Proof.
  split.
  - intros tm x. destruct (run_keeps_terminal calls tm) as [Hc Ha].
    unfold is_transaction_committed, is_transaction_aborted.
    split; intros H; apply bool_decide_eq_true in H; apply bool_decide_eq_true;
      apply elem_of_dom; apply elem_of_dom in H; set_solver.
  - apply run_exclusive, init_exclusive.
Qed.

Lemma terminal_xids_stay_and_maps_exclusive_witness :
  let calls :=
    [ ProcessRecord (bare_record RM_HEAP_ID 0 100 0x100);
      AddSubtransaction 100 7;
      ProcessRecord (bare_record RM_HEAP_ID 0 101 0x200);
      ProcessRecord (bare_record RM_XACT_ID 0 100 0x300) ] in
  exclusive (run calls init) /\
  is_transaction_committed 100
    (run [ProcessRecord (bare_record RM_HEAP_ID 0 100 0x400)]
       (run calls init)) = true.
Proof.
  intros calls. split.
  - apply (proj2 (terminal_xids_stay_and_maps_exclusive calls)).
    vm_compute. reflexivity.
  - apply (proj1 (terminal_xids_stay_and_maps_exclusive
                    [ProcessRecord (bare_record RM_HEAP_ID 0 100 0x400)])
             (run calls init) 100).
    vm_compute. reflexivity.
Defined.

(** C5 as stated fails: after Heap xid 100 and COMMIT xid 100, a further
    Heap record bearing xid 100 creates it again as active, and xid 100 is
    then a key of the active and of the committed map. *)
Lemma late_record_recreates_terminal_xid :
  let calls :=
    [ ProcessRecord (bare_record RM_HEAP_ID 0 100 0x100);
      ProcessRecord (bare_record RM_XACT_ID 0 100 0x200);
      ProcessRecord (bare_record RM_HEAP_ID 0 100 0x300) ] in
  is_transaction_committed 100 (run (firstn 2 calls) init) = true /\
  is_transaction_active 100 (run (firstn 2 calls) init) = false /\
  is_transaction_active 100 (run calls init) = true /\
  is_transaction_committed 100 (run calls init) = true /\
  ~ exclusive (run calls init).
Proof.
  intros calls. repeat split; try (vm_compute; reflexivity).
  intros H. destruct (H 100) as [H1 _].
  assert (Hact : is_Some (transactions (run calls init) !! 100))
    by (vm_compute; eauto).
  destruct (H1 Hact) as [Hc _]. vm_compute in Hc. discriminate Hc.
Qed.

End TrackerFacts.

(** ** The record decoder *)

Module DecoderFacts.

Import BinaryReader WalParser Fixtures.
Local Open Scope reader_scope.

(** *** Cursor methods only move the position *)

Lemma frames_ret {A : Type} (a : A) : frames (ret a).
Proof. intros rd. split; reflexivity. Qed.

Lemma frames_lift {A : Type} (o : outcome A) : frames (lift o).
Proof. intros rd. split; reflexivity. Qed.

Lemma frames_bind {A B : Type} (m : M A) (f : A -> M B) :
  frames m -> (forall a, frames (f a)) -> frames (bind m f).
Proof.
  intros Hm Hf rd. unfold bind. specialize (Hm rd).
  destruct (m rd) as [[a | e |] rd1]; simpl in *; try exact Hm.
  destruct (Hf a rd1) as [H1 H2]. destruct Hm as [H3 H4].
  split; congruence.
Qed.

Lemma frames_read_bytes (n : Z) : frames (read_bytes n).
Proof.
  intros rd. unfold read_bytes.
  destruct (position rd + n >? length rd); split; reflexivity.
Qed.

Lemma frames_skip_bytes (n : Z) : frames (skip_bytes n).
Proof.
  intros rd. unfold skip_bytes.
  destruct (position rd + n >? length rd); split; reflexivity.
Qed.

Lemma frames_peek_bytes (n : Z) : frames (peek_bytes n).
Proof.
  intros rd. unfold peek_bytes.
  destruct (position rd + n >? length rd); split; reflexivity.
Qed.

Lemma frames_seek (p : Z) : frames (seek p).
Proof.
  intros rd. unfold seek.
  destruct ((p <? 0) || (p >? length rd)); split; reflexivity.
Qed.

Create HintDb frames_db.
#[local] Hint Resolve frames_ret frames_lift frames_read_bytes
  frames_skip_bytes frames_peek_bytes frames_seek : frames_db.

Ltac frames_step :=
  match goal with
  | |- frames (bind _ _) => apply frames_bind; [| intros ?]
  | |- frames (if ?b then _ else _) => destruct b
  | |- frames (match ?l with [] => _ | _ :: _ => _ end) => destruct l
  | |- frames _ => solve [auto with frames_db]
  end.

Ltac frames_tac := repeat frames_step.

Lemma frames_read_uint8 : frames read_uint8.
Proof. unfold read_uint8. frames_tac. Qed.

Lemma frames_read_uint16 : frames read_uint16.
Proof. unfold read_uint16. frames_tac. Qed.

Lemma frames_read_uint32 : frames read_uint32.
Proof. unfold read_uint32. frames_tac. Qed.

Lemma frames_read_uint64 : frames read_uint64.
Proof. unfold read_uint64. frames_tac. Qed.

#[local] Hint Resolve frames_read_uint8 frames_read_uint16 frames_read_uint32
  frames_read_uint64 : frames_db.

Lemma frames_parse_block_image : frames _parse_block_image.
Proof. unfold _parse_block_image. frames_tac. Qed.

#[local] Hint Resolve frames_parse_block_image : frames_db.

Lemma frames_parse_block_reference : frames _parse_block_reference.
Proof. unfold _parse_block_reference. frames_tac. Qed.

Lemma frames_parse_data_short : frames _parse_data_short.
Proof. unfold _parse_data_short. frames_tac. Qed.

Lemma frames_parse_data_long : frames _parse_data_long.
Proof. unfold _parse_data_long. frames_tac. Qed.

#[local] Hint Resolve frames_parse_block_reference frames_parse_data_short
  frames_parse_data_long : frames_db.

Lemma frames_parse_record_loop (fuel : nat) (data_end : Z)
    (blocks : list BlockInfo) (main_data : list byte) :
  frames (_parse_record_loop fuel data_end blocks main_data).
Proof.
  revert blocks main_data.
  induction fuel as [| fuel IH]; intros blocks main_data rd; simpl;
    destruct (tell rd <? data_end); try (split; reflexivity).
  revert rd.
  change (frames
    (let! next_byte := peek_bytes 1 in
     match next_byte with
     | [] => ret (blocks, main_data)
     | b :: _ =>
         let block_id := byte_val b in
         if block_id =? 255 then
           let! m := _parse_data_short in ret (blocks, m)
         else if block_id =? 254 then
           let! m := _parse_data_long in ret (blocks, m)
         else if (block_id =? 253) || (block_id =? 252) then
           do! read_bytes 1 in
           do! (if block_id =? 253 then skip_bytes 2 else skip_bytes 4) in
           _parse_record_loop fuel data_end blocks main_data
         else
           let! blk := _parse_block_reference in
           _parse_record_loop fuel data_end (blocks ++ [blk]) main_data
     end)).
  cbv zeta. frames_tac; apply IH.
Qed.

Lemma frames_XLogRecord_init (fuel : nat) : frames (XLogRecord_init fuel).
Proof.
  unfold XLogRecord_init. frames_tac.
  intros rd. apply frames_parse_record_loop.
Qed.

(** *** Reading the record header *)

Lemma bind_ok {A B : Type} (m : M A) (f : A -> M B) (rd rd' : reader) (b : B) :
  bind m f rd = (Ok b, rd') ->
  exists a rd1, m rd = (Ok a, rd1) /\ f a rd1 = (Ok b, rd').
Proof.
  unfold bind. destruct (m rd) as [[a | e |] rd1]; intros H;
    try discriminate H. eauto.
Qed.

(** The length field of a decoded record is what the four bytes under
    the cursor spell. *)
Lemma XLogRecord_init_tot_len (fuel : nat) (rd rd' : reader) (record : XLogRecord)
    (bs : list byte) (total_len : Z) :
  XLogRecord_init fuel rd = (Ok record, rd') ->
  peek_bytes 4 rd = (Ok bs, rd) ->
  unpack_uint 4 bs = Ok total_len ->
  xl_tot_len record = total_len.
Proof.
  unfold XLogRecord_init. intros H Hpeek Hunpack.
  apply bind_ok in H as (tot & rd1 & Hread & H).
  assert (tot = total_len) as ->.
  { unfold read_uint32 in Hread.
    apply bind_ok in Hread as (d & rd0 & Hd & Hl).
    unfold read_bytes in Hd. unfold peek_bytes in Hpeek.
    destruct (position rd + 4 >? length rd); [discriminate Hd |].
    injection Hd as <- <-. injection Hpeek as <-.
    unfold lift in Hl. congruence. }
  repeat (apply bind_ok in H as (? & ? & _ & H)).
  unfold ret in H. injection H as <- _. reflexivity.
Qed.

Lemma le_uint_nonneg (bs : list byte) : 0 <= le_uint bs.
Proof.
  induction bs as [| b bs IH]; simpl; [lia |].
  unfold byte_val. lia.
Qed.

Lemma unpack_uint_nonneg (size : Z) (bs : list byte) (v : Z) :
  unpack_uint size bs = Ok v -> 0 <= v.
Proof.
  unfold unpack_uint. destruct (_ =? _); intros H; [| discriminate H].
  injection H as <-. apply le_uint_nonneg.
Qed.

Lemma read_bytes_position (n : Z) (rd rd' : BinaryReader.reader) (d : list byte) :
  read_bytes n rd = (Ok d, rd') -> position rd' = position rd + n.
Proof.
  unfold read_bytes. destruct (position rd + n >? length rd); intros H;
    [discriminate H |]. now injection H as _ <-.
Qed.

Lemma read_uint_position (n : Z) (rd rd' : BinaryReader.reader) (v : Z) :
  (let! d := read_bytes n in lift (unpack_uint n d)) rd = (Ok v, rd') ->
  position rd' = position rd + n.
Proof.
  intros H. apply bind_ok in H as (d & rd1 & Hd & Hl).
  apply read_bytes_position in Hd. unfold lift in Hl.
  injection Hl as _ <-. exact Hd.
Qed.

Lemma WALPageHeader_init_position (rd rd' : BinaryReader.reader)
    (h : WALPageHeader) :
  WALPageHeader_init rd = (Ok h, rd') ->
  position rd' = position rd + SIZEOF_WAL_PAGE_HEADER.
Proof.
  unfold WALPageHeader_init, SIZEOF_WAL_PAGE_HEADER. intros H.
  apply bind_ok in H as (? & r1 & H1 & H).
  apply bind_ok in H as (? & r2 & H2 & H).
  apply bind_ok in H as (? & r3 & H3 & H).
  apply bind_ok in H as (? & r4 & H4 & H).
  apply bind_ok in H as (? & r5 & H5 & H).
  unfold ret in H. injection H as _ <-.
  apply read_uint_position in H1, H2, H3, H4, H5. lia.
Qed.

Lemma frames_WALPageHeader_init : frames WALPageHeader_init.
Proof. unfold WALPageHeader_init. frames_tac. Qed.

(** *** The record loop of a page *)

Lemma peek_bytes_cursor (n : Z) (c : BinaryReader.reader) :
  snd (peek_bytes n c) = c /\ exists bs, fst (peek_bytes n c) = Ok bs.
Proof.
  unfold peek_bytes. destruct (position c + n >? length c); simpl; eauto.
Qed.

Lemma on_exception_ok (e : exn) (records recs : list XLogRecord) :
  XLogReader.on_exception e records = Ok recs -> recs = records.
Proof.
  unfold XLogReader.on_exception. destruct (XLogReader.caught e); intros H;
    [now injection H | discriminate H].
Qed.

Lemma page_loop_within (page : list byte) (fuel : nat) :
  forall (records : list XLogRecord) (c : BinaryReader.reader)
         (recs : list XLogRecord),
    data c = page -> length c = Z.of_nat (List.length page) ->
    SIZEOF_WAL_PAGE_HEADER <= position c ->
    Forall (XLogReader.decoded_within page) records ->
    XLogReader.page_loop fuel (Z.of_nat (List.length page)) records c = Ok recs ->
    Forall (XLogReader.decoded_within page) recs.
Proof.
  induction fuel as [| fuel IH]; intros records c recs Hdata Hlen Hpos Hall H;
    simpl in H; destruct (tell c <? _) eqn:Htell;
    try discriminate H; try (injection H as <-; exact Hall).
  destruct (remaining_bytes c <? SIZEOF_XLOG_RECORD);
    [injection H as <-; exact Hall |].
  destruct (peek_bytes_cursor 4 c) as [Hc [bs Hbs]].
  destruct (peek_bytes 4 c) as [o c1] eqn:Hpeek. simpl in Hc, Hbs. subst c1 o.
  destruct (Z.of_nat (List.length bs) <? 4); [injection H as <-; exact Hall |].
  destruct (unpack_uint 4 bs) as [total_len | e |] eqn:Hunpack;
    [| apply on_exception_ok in H as ->; exact Hall | discriminate H].
  destruct (tell c + total_len >? Z.of_nat (List.length page)) eqn:Hfit;
    [injection H as <-; exact Hall |].
  destruct (XLogRecord_init fuel c) as [[record | e |] c2] eqn:Hinit;
    [| apply on_exception_ok in H as ->; exact Hall | discriminate H].
  pose proof (XLogRecord_init_tot_len _ _ _ _ _ _ Hinit Hpeek Hunpack) as Htot.
  pose proof (unpack_uint_nonneg _ _ _ Hunpack) as Hnonneg.
  unfold tell in *.
  assert (Hall' : Forall (XLogReader.decoded_within page) (records ++ [record])).
  { apply Forall_app. split; [exact Hall |]. constructor; [| constructor].
    exists (position c), fuel, c2. split; [exact Hpos |]. split; [lia |].
    replace (set_position (BinaryReader.init page) (position c)) with c;
      [exact Hinit |].
    destruct c as [d p l]. simpl in *. subst. reflexivity. }
  destruct (position c + total_len >=? Z.of_nat (List.length page));
    [injection H as <-; exact Hall' |].
  destruct (seek (position c + total_len) c2) as [[[] | e |] c3] eqn:Hseek;
    [| apply on_exception_ok in H as ->; exact Hall' | discriminate H].
  destruct (frames_XLogRecord_init fuel c) as [Hd2 Hl2]. rewrite Hinit in Hd2, Hl2.
  simpl in Hd2, Hl2.
  unfold seek in Hseek.
  destruct ((position c + total_len <? 0) || (position c + total_len >? length c2));
    [discriminate Hseek |]. injection Hseek as <-.
  refine (IH _ _ _ _ _ _ Hall' H); simpl; [congruence | congruence | lia].
Qed.

Lemma page_loop_stops (fuel : nat) (page_len : Z) (records : list XLogRecord)
    (c : BinaryReader.reader) :
  tell c < page_len ->
  remaining_bytes c < SIZEOF_XLOG_RECORD \/
  (forall bs, fst (peek_bytes 4 c) = Ok bs -> page_len < tell c + le_uint bs) ->
  XLogReader.page_loop (S fuel) page_len records c = Ok records.
Proof.
  intros Htell Hlong. simpl.
  destruct (tell c <? page_len) eqn:E; [| lia].
  destruct (remaining_bytes c <? SIZEOF_XLOG_RECORD) eqn:Hrem; [reflexivity |].
  destruct Hlong as [Hshort | Hlong]; [lia |].
  destruct (peek_bytes_cursor 4 c) as [Hc [bs Hbs]].
  destruct (peek_bytes 4 c) as [o c1]. simpl in Hc, Hbs. subst c1 o.
  destruct (Z.of_nat (List.length bs) <? 4); [reflexivity |].
  specialize (Hlong bs eq_refl).
  unfold unpack_uint. destruct (Z.of_nat (List.length bs) =? 4); [| reflexivity].
  destruct (tell c + le_uint bs >? page_len) eqn:E2; [reflexivity | lia].
Qed.

Lemma read_page_records_within (fuel : nat) (rd rd' : XLogReader.reader)
    (recs : list XLogRecord) :
  XLogReader._read_page_records fuel rd = (Ok recs, rd') ->
  Forall (XLogReader.decoded_within (XLogReader.current_page rd)) recs.
Proof.
  unfold XLogReader._read_page_records, XLogReader.handle_read, XLogReader.current_page.
  destruct (_ >? _); [intros H; injection H as <- _; constructor |].
  destruct (XLogReader.file_handle rd) as [off |]; [| discriminate].
  set (page := firstn _ _).
  destruct (Z.of_nat (List.length page) <? _);
    [intros H; injection H as <- _; constructor |].
  destruct (WALPageHeader_init (BinaryReader.init page))
    as [[h | e |] c] eqn:Hh;
    [| intros H; injection H as <- _; constructor | discriminate].
  destruct (negb _); [intros H; injection H as <- _; constructor |].
  intros H. injection H as H _.
  destruct (frames_WALPageHeader_init (BinaryReader.init page)) as [Hd Hl].
  rewrite Hh in Hd, Hl. simpl in Hd, Hl.
  apply WALPageHeader_init_position in Hh. simpl in Hh.
  refine (page_loop_within page fuel [] c recs Hd Hl _ _ H);
    [lia | constructor].
Qed.
(** *** The batch parser reads the file as it lies *)

Section RawFile.

Variable file : list byte.

Lemma reads_raw_seek (p : Z) (w : WALFile.walfile) (rd : BinaryReader.reader) :
  WALFile.reads_raw file w rd -> WALFile.reads_raw file w (snd (seek p rd)).
Proof.
  intros (Hd & Hl & Hr). destruct (frames_seek p rd) as [Hd' Hl'].
  repeat split; [congruence | congruence | exact Hr].
Qed.

Lemma walfile_page_loop_raw (fuel : nat) (page_end : Z) :
  forall (w : WALFile.walfile) (rd : BinaryReader.reader),
    WALFile.reads_raw file w rd ->
    WALFile.reads_raw file (snd (fst (WALFile.page_loop fuel page_end w rd)))
              (snd (WALFile.page_loop fuel page_end w rd)).
Proof.
  induction fuel as [| fuel IH]; intros w rd Hst; simpl;
    destruct (tell rd <? page_end); try exact Hst.
  destruct (remaining_bytes rd <? SIZEOF_XLOG_RECORD); [exact Hst |].
  destruct Hst as (Hd & Hl & Hr).
  destruct (frames_XLogRecord_init fuel rd) as [Hd1 Hl1].
  destruct (XLogRecord_init fuel rd) as [[record | e |] rd1] eqn:Hinit;
    simpl in Hd1, Hl1.
  - assert (Hst1 : WALFile.reads_raw file
                     (WALFile.set_records (WALFile.records w ++ [record]) w) rd1).
    { repeat split; [congruence | congruence |]. simpl.
      apply Forall_app. split; [exact Hr |]. constructor; [| constructor].
      exists (position rd), fuel, rd1.
      replace (set_position (BinaryReader.init file) (position rd)) with rd;
        [exact Hinit |].
      destruct rd as [d p l]. simpl in *. subst. reflexivity. }
    destruct (_ >=? page_end); [exact Hst1 |].
    pose proof (reads_raw_seek (tell rd + xl_tot_len record) _ _ Hst1) as Hst2.
    destruct (seek (tell rd + xl_tot_len record) rd1) as [[[] | e |] rd2];
      simpl in Hst2.
    + now apply IH.
    + destruct (WALFile.caught e); exact Hst2.
    + exact Hst2.
  - destruct (WALFile.caught e); repeat split; simpl; congruence.
  - repeat split; simpl; congruence.
Qed.

Lemma walfile_pages_raw (fuel : nat) (file_len : Z) :
  forall (w : WALFile.walfile) (rd : BinaryReader.reader),
    WALFile.reads_raw file w rd ->
    WALFile.reads_raw file (snd (fst (WALFile._parse_wal_pages fuel file_len w rd)))
              (snd (WALFile._parse_wal_pages fuel file_len w rd)).
Proof.
  induction fuel as [| fuel IH]; intros w rd Hst; simpl;
    destruct (negb (is_eof rd)); try exact Hst.
  destruct (negb (tell rd mod WALFile.WAL_BLOCK_SIZE =? 0)).
  - destruct (_ >=? file_len); [exact Hst |].
    match goal with
    | |- context [seek ?p rd] =>
        pose proof (reads_raw_seek p _ _ Hst) as Hst1;
        destruct (seek p rd) as [[[] | e |] rd1]; simpl in Hst1
    end; [now apply IH | exact Hst1 | exact Hst1].
  - destruct (remaining_bytes rd <? SIZEOF_WAL_PAGE_HEADER); [exact Hst |].
    destruct Hst as (Hd & Hl & Hr).
    destruct (frames_WALPageHeader_init rd) as [Hd1 Hl1].
    destruct (WALPageHeader_init rd) as [[h | e |] rd1]; simpl in Hd1, Hl1;
      try (repeat split; simpl; congruence).
    assert (Hst1 : WALFile.reads_raw file w rd1) by (repeat split; congruence).
    destruct (negb (magic h =? WALFile.XLOG_PAGE_MAGIC)); [now apply IH |].
    unfold WALFile._parse_page_records.
    match goal with
    | |- context [WALFile.page_loop fuel ?pe w rd1] =>
        pose proof (walfile_page_loop_raw fuel pe w rd1 Hst1) as Hst2;
        destruct (WALFile.page_loop fuel pe w rd1) as [[[[] | e |] w2] rd2];
        simpl in Hst2
    end; [now apply IH | exact Hst2 | exact Hst2].
Qed.

Lemma walfile_header_raw (w : WALFile.walfile) (rd : BinaryReader.reader) :
  WALFile.reads_raw file w rd ->
  WALFile.reads_raw file (snd (fst (WALFile._parse_wal_file_header w rd)))
            (snd (WALFile._parse_wal_file_header w rd)).
Proof.
  intros (Hd & Hl & Hr). unfold WALFile._parse_wal_file_header.
  destruct (frames_read_uint64 rd) as [Hd1 Hl1].
  destruct (read_uint64 rd) as [[v1 | e |] rd1]; simpl in Hd1, Hl1;
    try (repeat split; simpl; congruence).
  destruct (frames_read_uint32 rd1) as [Hd2 Hl2].
  destruct (read_uint32 rd1) as [[v2 | e |] rd2]; simpl in Hd2, Hl2;
    try (repeat split; simpl; congruence).
  destruct (frames_read_uint32 rd2) as [Hd3 Hl3].
  destruct (read_uint32 rd2) as [[v3 | e |] rd3]; simpl in Hd3, Hl3;
    try (repeat split; simpl; congruence).
  destruct (frames_read_uint32 rd3) as [Hd4 Hl4].
  destruct (read_uint32 rd3) as [[v4 | e |] rd4]; simpl in Hd4, Hl4;
    try (repeat split; simpl; congruence).
  destruct (frames_seek v3 rd4) as [Hd5 Hl5].
  destruct (seek v3 rd4) as [[[] | e |] rd5]; simpl in Hd5, Hl5;
    repeat split; simpl; congruence.
Qed.

Lemma walfile_parse_raw (fuel : nat) :
  Forall (WALFile.decoded_raw file)
    (WALFile.records (snd (WALFile.parse fuel file WALFile.init))).
Proof.
  unfold WALFile.parse.
  assert (H0 : WALFile.reads_raw file WALFile.init (BinaryReader.init file))
    by (repeat split; constructor).
  pose proof (walfile_header_raw _ _ H0) as H1.
  destruct (WALFile._parse_wal_file_header WALFile.init (BinaryReader.init file))
    as [[[[] | e |] w1] rd1]; simpl in H1; try (simpl; apply H1).
  pose proof (walfile_pages_raw fuel (Z.of_nat (List.length file)) _ _ H1) as H2.
  destruct (WALFile._parse_wal_pages fuel (Z.of_nat (List.length file)) w1 rd1)
    as [[o w2] rd2]. simpl in *. apply H2.
Qed.

End RawFile.

(** *** C3 *)

(** C3 (as amended).  Neither decoder stitches records across pages.
    Every record [XLogReader._read_page_records] returns was decoded at an
    offset [s >= 24] of the page just read with [s + total_len] not past
    the end of that page; and when fewer than 24 bytes are left on the
    page, or the record under the cursor would extend past the end of the
    page, the record loop of the page ends there, dropping that record
    and whatever follows it on the page.
    Every record [WALFile.parse] collects is what [XLogRecord] decodes
    from the bytes of the file as they lie from the start of the record
    on, the header of a following page included. *)
Theorem records_never_cross_a_page :
  (forall (fuel : nat) (rd rd' : XLogReader.reader) (recs : list XLogRecord),
     XLogReader._read_page_records fuel rd = (Ok recs, rd') ->
     Forall (XLogReader.decoded_within (XLogReader.current_page rd)) recs) /\
  (forall (fuel : nat) (page_len : Z) (records : list XLogRecord)
          (c : BinaryReader.reader),
     tell c < page_len ->
     remaining_bytes c < SIZEOF_XLOG_RECORD \/
     (forall bs, fst (peek_bytes 4 c) = Ok bs ->
                 page_len < tell c + le_uint bs) ->
     XLogReader.page_loop (S fuel) page_len records c = Ok records) /\
  (forall (fuel : nat) (file : list byte),
     Forall (WALFile.decoded_raw file)
       (WALFile.records (snd (WALFile.parse fuel file WALFile.init)))).
Proof.
  split; [| split].
  - exact read_page_records_within.
  - exact page_loop_stops.
  - intros fuel file. apply walfile_parse_raw.
Qed.

Lemma records_never_cross_a_page_witness :
  Forall (XLogReader.decoded_within
            (firstn (Z.to_nat 8192) cross_page_file))
    [record_value (8192 - 24 - 16) 7 0 0 10] /\
  XLogReader.page_loop 1 8192 []
    (set_position
       (BinaryReader.init (firstn (Z.to_nat 8192) cross_page_file)) 8176)
  = Ok [] /\
  XLogReader.page_loop 1 8192 []
    (set_position
       (BinaryReader.init
          (zeros 24 ++ le_bytes 4 8200 ++ zeros (Z.to_nat (8192 - 28)))) 24)
  = Ok [].
Proof.
  split; [| split].
  - refine (proj1 records_never_cross_a_page 10%nat
              (XLogReader.enter (XLogReader.init cross_page_file)) _ _ _).
    vm_compute. reflexivity.
  - apply (proj1 (proj2 records_never_cross_a_page)).
    + vm_compute. reflexivity.
    + left. vm_compute. reflexivity.
  - apply (proj1 (proj2 records_never_cross_a_page)).
    + vm_compute. reflexivity.
    + right. intros bs H. vm_compute in H. injection H as <-.
      vm_compute. reflexivity.
Defined.

(** C3 as stated fails.  In [cross_page_file] the record
    [crossing_value], of [total_len = 200] for xid 9, starts 16 bytes
    before the end of page 0 and goes on behind the header of page 1.
    [XLogReader] read to the end of the file yields the record that fills
    page 0 and, from page 1, whatever the bytes behind its header spell as
    a record header; the record of length 200 is not among them.
    [WALFile.parse] collects a record of length 200 for xid 9, but one
    read through the header of page 1: the two bytes of the page magic
    0xD099 are its [xl_info] and [xl_rmid], and it is not
    [crossing_value]. *)
Lemma cross_page_record_is_dropped :
  let rd := XLogReader.enter (XLogReader.init cross_page_file) in
  let result := XLogReader.drain 10 10 (XLogReader.read_records None None) rd in
  let parsed := WALFile.parse 20 cross_page_file WALFile.init in
  firstn 16 (skipn (Z.to_nat 8176) cross_page_file)
    = firstn 16 crossing_record /\
  firstn 184 (skipn (Z.to_nat (8192 + 24)) cross_page_file)
    = skipn 16 crossing_record /\
  fst (XLogRecord_init 5 (BinaryReader.init crossing_record))
    = Ok crossing_value /\
  snd (fst result) = XLogReader.StopIteration /\
  map (fun r => (xl_tot_len r, xl_xid r)) (fst (fst result))
    = [(8152, 7); (2560, 0)] /\
  ~ In crossing_value (fst (fst result)) /\
  fst parsed = Ok tt /\
  map (fun r => (xl_tot_len r, xl_xid r, xl_info r, xl_rmid r))
    (WALFile.records (snd parsed))
    = [(8152, 7, 0, 10); (200, 9, 0x99, 0xD0)] /\
  ~ In crossing_value (WALFile.records (snd parsed)).
Proof.
  intros rd result parsed.
  assert (Hmap : map (fun r => (xl_tot_len r, xl_xid r)) (fst (fst result))
                 = [(8152, 7); (2560, 0)]) by (vm_compute; reflexivity).
  assert (Hmap' : map (fun r => (xl_tot_len r, xl_xid r, xl_info r, xl_rmid r))
                    (WALFile.records (snd parsed))
                  = [(8152, 7, 0, 10); (200, 9, 0x99, 0xD0)])
    by (vm_compute; reflexivity).
  repeat match goal with |- _ /\ _ => split end;
    try (vm_compute; reflexivity); try assumption.
  - intros Hin.
    apply (in_map (fun r => (xl_tot_len r, xl_xid r))) in Hin.
    rewrite Hmap in Hin. simpl in Hin.
    destruct Hin as [H | [H | []]]; discriminate H.
  - intros Hin.
    apply (in_map (fun r => (xl_tot_len r, xl_xid r, xl_info r, xl_rmid r)))
      in Hin.
    rewrite Hmap' in Hin. simpl in Hin.
    destruct Hin as [H | [H | []]]; discriminate H.
Qed.

(** *** C4 *)








(** *** C10 *)

(** C10.  While the reader holds no file handle (the context manager was
    not entered, or was left), the first request for an item of
    [read_records start_lsn end_lsn] raises [RuntimeError]: no record is
    yielded, the iteration does not end normally, and the reader is left
    as it was. *)
Theorem read_records_without_handle_raises (fuel n : nat)
    (start_lsn end_lsn : option LSN.lsn) (rd : XLogReader.reader) :
  XLogReader.file_handle rd = None ->
  XLogReader.next fuel (XLogReader.read_records start_lsn end_lsn) rd
    = (XLogReader.Raised RuntimeError, XLogReader.Finished, rd) /\
  XLogReader.drain fuel (S n) (XLogReader.read_records start_lsn end_lsn) rd
    = ([], XLogReader.Raised RuntimeError, rd).
Proof.
  intros Hh. simpl. rewrite Hh. split; reflexivity.
Qed.

Lemma read_records_without_handle_raises_witness :
  let rd := XLogReader.init four_record_page in
  XLogReader.next 10 (XLogReader.read_records None None) rd
    = (XLogReader.Raised RuntimeError, XLogReader.Finished, rd) /\
  XLogReader.drain 10 5 (XLogReader.read_records None None) rd
    = ([], XLogReader.Raised RuntimeError, rd).
Proof.
  intros rd.
  exact (read_records_without_handle_raises 10 4 None None rd eq_refl).
Defined.

End DecoderFacts.

(** ** More on the byte cursor *)

Module BinaryReaderMoreFacts.

Import BinaryReader BinaryReaderMore BinaryReaderFacts.
Local Open Scope reader_scope.


Lemma firstn_then_firstn {A : Type} (l : list A) (a b : nat) :
  firstn a l ++ firstn b (skipn a l) = firstn (a + b) l.
Proof.
  revert l. induction a as [| a IH]; intros l; [reflexivity |].
  destruct l as [| x l]; simpl; [now rewrite firstn_nil |].
  now rewrite IH.
Qed.

(** X1.  On a valid cursor with at least [n >= 0] bytes left, [read_bytes n]
    returns exactly the bytes [peek_bytes n] shows, [n] of them, and moves
    the cursor [n] bytes on: it stays valid and [remaining_bytes] drops
    by [n]. *)
Theorem read_bytes_returns_what_peek_shows (rd : reader) (n : Z) :
  valid rd -> 0 <= n <= length rd - position rd ->
  exists bs,
    read_bytes n rd = (Ok bs, set_position rd (position rd + n)) /\
    peek_bytes n rd = (Ok bs, rd) /\
    Z.of_nat (List.length bs) = n /\
    valid (set_position rd (position rd + n)) /\
    remaining_bytes (set_position rd (position rd + n))
      = remaining_bytes rd - n.
Proof.
  intros Hv Hn. pose proof Hv as [Hl Hp].
  exists (py_slice (data rd) (position rd) (position rd + n)).
  unfold read_bytes, peek_bytes.
  destruct (position rd + n >? length rd) eqn:E; [lia |].
  split; [reflexivity |]. split; [reflexivity |].
  split; [apply py_slice_inside_length; lia |].
  split; [unfold valid; simpl; lia |].
  unfold remaining_bytes. simpl. lia.
Qed.

Lemma read_bytes_returns_what_peek_shows_witness :
  let rd := {| data := ["a"%byte; "b"%byte; "c"%byte];
               position := 1; length := 3 |} in
  exists bs,
    read_bytes 2 rd = (Ok bs, set_position rd 3) /\
    peek_bytes 2 rd = (Ok bs, rd) /\
    Z.of_nat (List.length bs) = 2 /\
    valid (set_position rd 3) /\
    remaining_bytes (set_position rd 3) = remaining_bytes rd - 2.
Proof.
  intros rd.
  apply (read_bytes_returns_what_peek_shows rd 2);
    unfold valid; simpl; lia.
Defined.

(** X2.  Reading [a] bytes and then [b] bytes gives the same bytes and the
    same cursor as reading [a + b] bytes at once when all of them are
    there.  When only the first [a] are there, both raise [EOFError], but
    the two-step read leaves the cursor [a] bytes further while the single
    read leaves it where it was; when not even [a] are there, both leave
    it where it was. *)
Theorem read_bytes_in_two_steps (rd : reader) (a b : Z) :
  valid rd -> 0 <= a -> 0 <= b ->
  let two := let! x := read_bytes a in
             let! y := read_bytes b in ret (x ++ y) in
  (a + b <= length rd - position rd -> two rd = read_bytes (a + b) rd) /\
  (a <= length rd - position rd < a + b ->
     two rd = (Raise EOFError, set_position rd (position rd + a)) /\
     read_bytes (a + b) rd = (Raise EOFError, rd)) /\
  (length rd - position rd < a ->
     two rd = (Raise EOFError, rd) /\
     read_bytes (a + b) rd = (Raise EOFError, rd)).
Proof.
  intros [Hl Hp] Ha Hb two. subst two. unfold bind, read_bytes, ret. simpl.
  destruct (position rd + a >? length rd) eqn:E1; simpl;
    destruct (position rd + (a + b) >? length rd) eqn:E3;
    try (destruct (position rd + a + b >? length rd) eqn:E2);
    (split; [| split]); intros H; try lia; try (split; reflexivity).
  unfold set_position. simpl. f_equal.
  - f_equal. rewrite !py_slice_inside by lia.
    replace (Z.to_nat (position rd + a))
      with (Z.to_nat a + Z.to_nat (position rd))%nat by lia.
    rewrite <- skipn_skipn.
    replace (Z.to_nat (a + b)) with (Z.to_nat a + Z.to_nat b)%nat by lia.
    apply firstn_then_firstn.
  - f_equal. lia.
Qed.

Lemma read_bytes_in_two_steps_witness :
  let rd := {| data := ["a"%byte; "b"%byte; "c"%byte];
               position := 0; length := 3 |} in
  (let! x := read_bytes 1 in let! y := read_bytes 2 in ret (x ++ y)) rd
    = read_bytes 3 rd /\
  (let! x := read_bytes 2 in let! y := read_bytes 2 in ret (x ++ y)) rd
    = (Raise EOFError, set_position rd 2) /\
  (let! x := read_bytes 4 in let! y := read_bytes 1 in ret (x ++ y)) rd
    = (Raise EOFError, rd).
Proof.
  intros rd.
  assert (Hv : valid rd) by (unfold valid; simpl; lia).
  split; [| split].
  - apply (proj1 (read_bytes_in_two_steps rd 1 2 Hv ltac:(lia) ltac:(lia))).
    simpl. lia.
  - apply (proj1 (proj2 (read_bytes_in_two_steps rd 2 2 Hv
                           ltac:(lia) ltac:(lia)))).
    simpl. lia.
  - apply (proj2 (proj2 (read_bytes_in_two_steps rd 4 1 Hv
                           ltac:(lia) ltac:(lia)))).
    simpl. lia.
Defined.

(** *** Unsigned and signed integers *)

Lemma byte_val_bound (b : byte) : 0 <= byte_val b < 256.
Proof.
  unfold byte_val. pose proof (Byte.to_N_bounded b). lia.
Qed.

Lemma le_uint_bound (bs : list byte) :
  0 <= le_uint bs < 256 ^ Z.of_nat (List.length bs).
Proof.
  induction bs as [| b bs IH]; simpl le_uint; [simpl; lia |].
  pose proof (byte_val_bound b).
  change (List.length (b :: bs)) with (S (List.length bs)).
  rewrite Nat2Z.inj_succ, Z.pow_succ_r by lia. lia.
Qed.

Lemma read_uint_value (size : Z) (rd : reader) :
  valid rd -> 0 <= size <= length rd - position rd ->
  let bs := firstn (Z.to_nat size) (skipn (Z.to_nat (position rd)) (data rd)) in
  (let! d := read_bytes size in lift (unpack_uint size d)) rd
    = (Ok (le_uint bs), set_position rd (position rd + size)) /\
  0 <= le_uint bs < 256 ^ size.
Proof.
  intros Hv Hs bs. pose proof Hv as [Hl Hp].
  assert (Hlen : Z.of_nat (List.length bs) = size).
  { subst bs. rewrite length_firstn, length_skipn. lia. }
  split.
  - unfold bind, read_bytes, lift, unpack_uint.
    destruct (position rd + size >? length rd) eqn:E; [lia |].
    rewrite py_slice_inside by lia. fold bs. rewrite Hlen, Z.eqb_refl.
    reflexivity.
  - rewrite <- Hlen. apply le_uint_bound.
Qed.

(** X3.  On a valid cursor with enough bytes left, [read_uint8],
    [read_uint16], [read_uint32] and [read_uint64] return the
    little-endian value of the next 1, 2, 4 and 8 unread bytes, a number
    in [[0, 2^8)], [[0, 2^16)], [[0, 2^32)] and [[0, 2^64)], and move the
    cursor by that many bytes. *)
Theorem unsigned_reads_are_little_endian (rd : reader) :
  valid rd ->
  let unread := skipn (Z.to_nat (position rd)) (data rd) in
  (1 <= length rd - position rd ->
     read_uint8 rd = (Ok (le_uint (firstn 1 unread)),
                      set_position rd (position rd + 1)) /\
     0 <= le_uint (firstn 1 unread) < 2 ^ 8) /\
  (2 <= length rd - position rd ->
     read_uint16 rd = (Ok (le_uint (firstn 2 unread)),
                       set_position rd (position rd + 2)) /\
     0 <= le_uint (firstn 2 unread) < 2 ^ 16) /\
  (4 <= length rd - position rd ->
     read_uint32 rd = (Ok (le_uint (firstn 4 unread)),
                       set_position rd (position rd + 4)) /\
     0 <= le_uint (firstn 4 unread) < 2 ^ 32) /\
  (8 <= length rd - position rd ->
     read_uint64 rd = (Ok (le_uint (firstn 8 unread)),
                       set_position rd (position rd + 8)) /\
     0 <= le_uint (firstn 8 unread) < 2 ^ 64).
Proof.
  intros Hv unread. subst unread.
  split; [| split; [| split]]; intros H.
  - exact (read_uint_value 1 rd Hv ltac:(lia)).
  - exact (read_uint_value 2 rd Hv ltac:(lia)).
  - exact (read_uint_value 4 rd Hv ltac:(lia)).
  - exact (read_uint_value 8 rd Hv ltac:(lia)).
Qed.

Lemma unsigned_reads_are_little_endian_witness :
  let rd := BinaryReader.init
              ["120"%byte; "086"%byte; "052"%byte; "018"%byte] in
  read_uint32 rd = (Ok 0x12345678, set_position rd 4) /\
  read_uint16 rd = (Ok 0x5678, set_position rd 2) /\
  read_uint8 rd = (Ok 0x78, set_position rd 1).
Proof.
  intros rd.
  assert (Hv : valid rd) by (unfold valid; simpl; lia).
  destruct (unsigned_reads_are_little_endian rd Hv) as (H1 & H2 & H4 & _).
  split; [| split].
  - apply H4. simpl. lia.
  - apply H2. simpl. lia.
  - apply H1. simpl. lia.
Defined.

(** X4.  Where [read_uint32] (or [read_uint64]) returns [u], [read_int32]
    ([read_int64]) returns, with the same cursor, the two's complement
    reading of the same bytes: a number [s] of the signed range with
    [s mod 2^32 = u] ([2^64]), equal to [u] below [2^31] ([2^63]) and to
    [u - 2^32] ([u - 2^64]) from there on. *)
Theorem signed_reads_wrap_the_unsigned_ones (rd rd' : reader) (u : Z) :
  (read_uint32 rd = (Ok u, rd') ->
     exists s, read_int32 rd = (Ok s, rd') /\
               - 2 ^ 31 <= s < 2 ^ 31 /\ s mod 2 ^ 32 = u /\
               (u < 2 ^ 31 -> s = u) /\ (2 ^ 31 <= u -> s = u - 2 ^ 32)) /\
  (read_uint64 rd = (Ok u, rd') ->
     exists s, read_int64 rd = (Ok s, rd') /\
               - 2 ^ 63 <= s < 2 ^ 63 /\ s mod 2 ^ 64 = u /\
               (u < 2 ^ 63 -> s = u) /\ (2 ^ 63 <= u -> s = u - 2 ^ 64)).
Proof.
  assert (Hgen : forall size bits,
    0 < size -> bits = 8 * size ->
    (let! d := read_bytes size in lift (unpack_uint size d)) rd = (Ok u, rd') ->
    exists s,
      (let! d := read_bytes size in lift (unpack_int size d)) rd = (Ok s, rd') /\
      - 2 ^ (bits - 1) <= s < 2 ^ (bits - 1) /\ s mod 2 ^ bits = u /\
      (u < 2 ^ (bits - 1) -> s = u) /\
      (2 ^ (bits - 1) <= u -> s = u - 2 ^ bits)).
  { intros size bits Hsize -> H. unfold bind in *.
    destruct (read_bytes size rd) as [[d | e |] rd1]; try discriminate H.
    unfold lift, unpack_uint, unpack_int in *.
    destruct (Z.of_nat (List.length d) =? size) eqn:E; [| discriminate H].
    injection H as <- <-. apply Z.eqb_eq in E.
    pose proof (le_uint_bound d) as Hb. rewrite E in Hb.
    assert (Hpow : 256 ^ size = 2 ^ (8 * size)).
    { change 256 with (2 ^ 8). rewrite <- Z.pow_mul_r by lia. reflexivity. }
    assert (Hhalf : 2 ^ (8 * size) = 2 * 2 ^ (8 * size - 1)).
    { rewrite <- Z.pow_succ_r by lia. f_equal. lia. }
    rewrite Hpow in Hb.
    exists (to_signed (8 * size) (le_uint d)). split; [reflexivity |].
    unfold to_signed.
    destruct (le_uint d <? 2 ^ (8 * size - 1)) eqn:Hlt.
    - repeat split; try lia. apply Z.mod_small. lia.
    - repeat split; try lia.
      rewrite <- (Z.mod_small (le_uint d) (2 ^ (8 * size))) at 2 by lia.
      rewrite <- (Z_mod_plus_full (le_uint d - 2 ^ (8 * size)) 1).
      f_equal. lia. }
  split; intros H.
  - exact (Hgen 4 32 ltac:(lia) eq_refl H).
  - exact (Hgen 8 64 ltac:(lia) eq_refl H).
Qed.

Lemma signed_reads_wrap_the_unsigned_ones_witness :
  let rd := BinaryReader.init
              ["254"%byte; "255"%byte; "255"%byte; "255"%byte] in
  exists s, read_int32 rd = (Ok s, set_position rd 4) /\
            - 2 ^ 31 <= s < 2 ^ 31 /\ s mod 2 ^ 32 = 0xFFFFFFFE /\
            (0xFFFFFFFE < 2 ^ 31 -> s = 0xFFFFFFFE) /\
            (2 ^ 31 <= 0xFFFFFFFE -> s = 0xFFFFFFFE - 2 ^ 32).
Proof.
  intros rd.
  apply (proj1 (signed_reads_wrap_the_unsigned_ones rd (set_position rd 4)
                  0xFFFFFFFE)).
  vm_compute. reflexivity.
Defined.

(** *** Strings *)









End BinaryReaderMoreFacts.

(** ** More on LSN values *)

Module LSNMoreFacts.

Import Hexadecimal LSN LSNMore.

(** *** The two halves *)

Lemma join_halves (high low : Z) :
  0 <= low < 2 ^ 32 ->
  Z.shiftr (Z.lor (Z.shiftl high 32) low) 32 = high /\
  Z.land (Z.lor (Z.shiftl high 32) low) 0xFFFFFFFF = low /\
  Z.lor (Z.shiftl high 32) low = high * 2 ^ 32 + low.
Proof.
  intros Hl.
  assert (H1 : Z.shiftr (Z.lor (Z.shiftl high 32) low) 32 = high).
  { rewrite Z.shiftr_lor, Z.shiftr_shiftl_l, Z.sub_diag, Z.shiftl_0_r by lia.
    rewrite (Z.shiftr_div_pow2 low) by lia.
    rewrite Z.div_small by lia. apply Z.lor_0_r. }
  assert (H2 : Z.land (Z.lor (Z.shiftl high 32) low) 0xFFFFFFFF = low).
  { change 0xFFFFFFFF with (Z.ones 32).
    rewrite Z.land_lor_distr_l, !Z.land_ones by lia.
    rewrite Z.shiftl_mul_pow2 by lia.
    rewrite Z.mod_mul by lia. rewrite Z.mod_small by lia. reflexivity. }
  split; [exact H1 |]. split; [exact H2 |].
  set (v := Z.lor (Z.shiftl high 32) low) in *.
  rewrite (Z.div_mod v (2 ^ 32)) by lia.
  rewrite <- Z.shiftr_div_pow2, H1 by lia.
  change 0xFFFFFFFF with (Z.ones 32) in H2.
  rewrite Z.land_ones in H2 by lia. rewrite H2. lia.
Qed.

Lemma halves_of_any_value (l : lsn) :
  value l = file_id l * 2 ^ 32 + file_offset l /\
  0 <= file_offset l < 2 ^ 32.
Proof.
  unfold file_id, file_offset. change 0xFFFFFFFF with (Z.ones 32).
  rewrite Z.land_ones, Z.shiftr_div_pow2 by lia.
  pose proof (Z.div_mod (value l) (2 ^ 32) ltac:(lia)).
  pose proof (Z.mod_pos_bound (value l) (2 ^ 32) ltac:(lia)). lia.
Qed.

(** X7.  For every LSN, [value = file_id * 2^32 + file_offset] with
    [0 <= file_offset < 2^32], and putting the two halves together again
    with [(file_id << 32) | file_offset] gives the LSN back.  Conversely
    [LSN((high << 32) | low)] has [file_id = high] and
    [file_offset = low] for every [high] and every [low] in
    [[0, 2^32)]. *)
Theorem lsn_splits_into_file_id_and_offset (l : lsn) (high low : Z) :
  (value l = file_id l * 2 ^ 32 + file_offset l /\
   0 <= file_offset l < 2 ^ 32 /\
   of_int (Z.lor (Z.shiftl (file_id l) 32) (file_offset l)) = l) /\
  (0 <= low < 2 ^ 32 ->
     file_id (of_int (Z.lor (Z.shiftl high 32) low)) = high /\
     file_offset (of_int (Z.lor (Z.shiftl high 32) low)) = low).
Proof.
  destruct (halves_of_any_value l) as [Hv Ho]. split.
  - split; [exact Hv |]. split; [exact Ho |].
    destruct (join_halves (file_id l) (file_offset l) Ho) as (_ & _ & Hj).
    unfold of_int. rewrite Hj, <- Hv. now destruct l.
  - intros Hl. destruct (join_halves high low Hl) as (H1 & H2 & _).
    unfold file_id, file_offset, of_int. simpl. now split.
Qed.

Lemma lsn_splits_into_file_id_and_offset_witness :
  file_id (of_int (Z.lor (Z.shiftl 3 32) 0x16B37B0)) = 3 /\
  file_offset (of_int (Z.lor (Z.shiftl 3 32) 0x16B37B0)) = 0x16B37B0.
Proof.
  apply (proj2 (lsn_splits_into_file_id_and_offset (mkLSN 0) 3 0x16B37B0)).
  lia.
Defined.

(** *** Order *)

(** X8.  [distance] between two LSNs with the same [file_id] is the absolute
    difference of their values, is symmetric, and is 0 only for equal
    LSNs; between LSNs with different [file_id] it raises
    [ValueError]. *)
Theorem distance_within_one_file (a b : lsn) :
  (file_id a = file_id b ->
     distance a b = Ok (Z.abs (value a - value b)) /\
     distance b a = distance a b /\
     (distance a b = Ok 0 <-> a = b)) /\
  (file_id a <> file_id b -> distance a b = Raise ValueError).
Proof.
  unfold distance.
  destruct (halves_of_any_value a) as [Ha _].
  destruct (halves_of_any_value b) as [Hb _].
  split; intros Hid.
  - rewrite Hid, Z.eqb_refl. simpl.
    assert (Hd : value a - value b = file_offset a - file_offset b)
      by (rewrite Ha, Hb, Hid; lia).
    rewrite Hd. split; [reflexivity |]. split.
    + f_equal. lia.
    + split.
      * intros H. injection H as H.
        destruct a as [x], b as [y]. simpl in *. f_equal. lia.
      * intros ->. f_equal. lia.
  - destruct (file_id a =? file_id b) eqn:E; [lia | reflexivity].
Qed.

Lemma distance_within_one_file_witness :
  distance (mkLSN 0x16B37B0) (mkLSN 0x16B38B0) = Ok 0x100 /\
  distance (mkLSN 0x16B37B0) (mkLSN 0x100000000) = Raise ValueError.
Proof.
  split.
  - apply (proj1 (distance_within_one_file (mkLSN 0x16B37B0)
                    (mkLSN 0x16B38B0))).
    reflexivity.
  - apply (proj2 (distance_within_one_file (mkLSN 0x16B37B0)
                    (mkLSN 0x100000000))).
    vm_compute. discriminate.
Defined.

(** *** Segments *)

(** X9.  With [segment_size = 0], [next_segment] and [is_segment_boundary]
    fail with [ZeroDivisionError].  With a positive [segment_size], and
    as long as the next multiple of [segment_size] above the offset is
    below [2^32], [next_segment] returns an LSN of the same file that is
    a segment boundary, lies above the LSN and at most [segment_size]
    above it, with no segment boundary of the file strictly in
    between. *)
Theorem next_segment_is_the_next_boundary (segment_size : Z) (l : lsn) :
  (segment_size = 0 ->
     next_segment segment_size l = ZeroDivisionError /\
     is_segment_boundary segment_size l = ZeroDivisionError) /\
  (0 < segment_size ->
   (file_offset l / segment_size + 1) * segment_size < 2 ^ 32 ->
   exists n,
     next_segment segment_size l = Quot n /\
     file_id n = file_id l /\
     is_segment_boundary segment_size n = Quot true /\
     value l < value n <= value l + segment_size /\
     (forall m, file_id m = file_id l -> value l < value m < value n ->
                is_segment_boundary segment_size m = Quot false)).
Proof.
  split.
  - intros ->. split; reflexivity.
  - intros Hs Hfit. unfold next_segment, is_segment_boundary.
    destruct (segment_size =? 0) eqn:E; [lia |].
    set (q := file_offset l / segment_size) in *.
    destruct (halves_of_any_value l) as [Hv Ho].
    pose proof (Z.div_mod (file_offset l) segment_size ltac:(lia)) as Hdm.
    pose proof (Z.mod_pos_bound (file_offset l) segment_size Hs) as Hmb.
    fold q in Hdm.
    assert (Hq : 0 <= q) by (apply Z.div_pos; lia).
    assert (Hnext : 0 <= (q + 1) * segment_size < 2 ^ 32) by nia.
    destruct (join_halves (file_id l) ((q + 1) * segment_size) Hnext)
      as (H1 & H2 & H3).
    eexists. split; [reflexivity |].
    unfold file_id at 1, file_offset at 1, of_int. simpl value.
    split; [exact H1 |]. rewrite H2.
    split; [now rewrite Z.mod_mul, Z.eqb_refl by lia |].
    split; [rewrite H3, Hv; nia |].
    intros m Hm Hbetween.
    destruct (halves_of_any_value m) as [Hvm Hom].
    rewrite H3, Hv, Hvm, Hm in Hbetween.
    f_equal. apply Z.eqb_neq. intros Hz.
    apply Z.mod_divide in Hz; [| lia]. destruct Hz as [k Hk].
    assert (q < k < q + 1) by nia. lia.
Qed.

Lemma next_segment_is_the_next_boundary_witness :
  exists n,
    next_segment DEFAULT_SEGMENT_SIZE (mkLSN 0x16B37B0) = Quot n /\
    file_id n = 0 /\
    is_segment_boundary DEFAULT_SEGMENT_SIZE n = Quot true /\
    0x16B37B0 < value n <= 0x16B37B0 + DEFAULT_SEGMENT_SIZE /\
    (forall m, file_id m = 0 -> 0x16B37B0 < value m < value n ->
               is_segment_boundary DEFAULT_SEGMENT_SIZE m = Quot false).
Proof.
  apply (proj2 (next_segment_is_the_next_boundary DEFAULT_SEGMENT_SIZE
                  (mkLSN 0x16B37B0))).
  - reflexivity.
  - reflexivity.
Defined.

(** *** Text of an LSN read back *)

Lemma uint_of_printed (u : uint) :
  Hex.uint_of_string (Hex.string_of_uint u) = Some u.
Proof. induction u; simpl; try rewrite IHu; reflexivity. Qed.

Lemma printed_chars (u : uint) :
  string_all Hex.is_upper_hex (Hex.string_of_uint u) = true.
Proof. induction u; simpl; try rewrite IHu; reflexivity. Qed.

Lemma printed_not_empty (n : N) :
  Hex.string_of_uint (N.to_hex_uint n) <> EmptyString.
Proof.
  destruct n as [| p]; [discriminate |].
  simpl. pose proof (HexadecimalPos.Unsigned.to_uint_nonnil p) as Hn.
  destruct (Pos.to_hex_uint p); try discriminate. now contradict Hn.
Qed.

(** What [format_X] prints for a natural number is read back by
    [int16]. *)
Lemma int16_format_X (v : Z) :
  0 <= v ->
  Hex.int16 (Hex.format_X v) = Ok v /\
  Hex.format_X v <> EmptyString /\
  string_all Hex.is_upper_hex (Hex.format_X v) = true.
Proof.
  intros Hv.
  assert (Hf : Hex.format_X v = Hex.string_of_uint (N.to_hex_uint (Z.to_N v))).
  { destruct v; try reflexivity. lia. }
  rewrite Hf. split; [| split].
  - unfold Hex.int16. pose proof (printed_not_empty (Z.to_N v)) as Hne.
    destruct (Hex.string_of_uint (N.to_hex_uint (Z.to_N v))) eqn:E;
      [now contradict Hne |].
    rewrite <- E, uint_of_printed, HexadecimalN.Unsigned.of_to.
    f_equal. lia.
  - apply printed_not_empty.
  - apply printed_chars.
Qed.

Lemma string_all_app (p : ascii -> bool) (s t : string) :
  string_all p (s ++ t) = string_all p s && string_all p t.
Proof.
  induction s as [| c s IH]; simpl; [reflexivity |].
  now rewrite IH, andb_assoc.
Qed.

Lemma string_all_weaken (p q : ascii -> bool) (s : string) :
  (forall c, p c = true -> q c = true) ->
  string_all p s = true -> string_all q s = true.
Proof.
  intros Hpq. induction s as [| c s IH]; simpl; [reflexivity |].
  intros H. apply andb_prop in H as [Hc Hs].
  now rewrite (Hpq c Hc), IH.
Qed.

Lemma contains_none (sep : ascii) (s : string) :
  string_all (fun c => negb (Ascii.eqb c sep)) s = true ->
  contains sep s = false /\ split sep s = [s].
Proof.
  induction s as [| c s IH]; simpl; [easy |].
  intros H. apply andb_prop in H as [Hc Hs].
  apply negb_true_iff in Hc. rewrite Hc. simpl.
  destruct (IH Hs) as [-> ->]. easy.
Qed.

Lemma split_at_separator (sep : ascii) (h l : string) :
  string_all (fun c => negb (Ascii.eqb c sep)) h = true ->
  contains sep (h ++ String sep l) = true /\
  split sep (h ++ String sep l) = h :: split sep l.
Proof.
  induction h as [| c h IH]; simpl.
  - intros _. rewrite Ascii.eqb_refl. easy.
  - intros H. apply andb_prop in H as [Hc Hs].
    apply negb_true_iff in Hc. rewrite Hc. simpl.
    destruct (IH Hs) as [-> ->]. easy.
Qed.

Lemma hex_is_not (sep : ascii) :
  Hex.is_upper_hex sep = false ->
  forall c, Hex.is_upper_hex c = true -> negb (Ascii.eqb c sep) = true.
Proof.
  intros Hsep c Hc. apply negb_true_iff, Ascii.eqb_neq. intros ->. congruence.
Qed.

Lemma of_string_to_string (l : lsn) :
  0 <= value l -> of_string (to_string l) = Ok l.
Proof.
  intros Hv. destruct (halves_of_any_value l) as [Hsum Ho].
  assert (Hid : 0 <= file_id l).
  { unfold file_id. apply Z.shiftr_nonneg. exact Hv. }
  destruct (int16_format_X (file_id l) Hid) as (Hh & Hhne & Hhc).
  destruct (int16_format_X (file_offset l) ltac:(lia)) as (Hl & _ & Hlc).
  unfold of_string, _parse_string, to_string.
  destruct (split_at_separator "/" (Hex.format_X (file_id l))
              (Hex.format_X (file_offset l))) as [Hc Hs].
  { revert Hhc. apply string_all_weaken, hex_is_not. reflexivity. }
  destruct (contains_none "/" (Hex.format_X (file_offset l))) as [_ Hs2].
  { revert Hlc. apply string_all_weaken, hex_is_not. reflexivity. }
  change (Hex.format_X (file_id l) ++ "/" ++ Hex.format_X (file_offset l))%string
    with (Hex.format_X (file_id l)
          ++ String "/" (Hex.format_X (file_offset l)))%string.
  rewrite Hc, Hs, Hs2. cbn [negb].
  destruct (Hex.format_X (file_id l)) eqn:E; [now contradict Hhne |].
  rewrite Hh, Hl.
  destruct (join_halves (file_id l) (file_offset l) Ho) as (_ & _ & Hj).
  rewrite Hj, <- Hsum. now destruct l.
Qed.

(** X10.  For every LSN with a value [>= 0], parsing its text form
    ([to_string], upper-case hex halves joined by a slash) gives the LSN
    back. *)
Theorem lsn_value_round_trip (l : lsn) :
  0 <= value l -> of_string (to_string l) = Ok l.
Proof. apply of_string_to_string. Qed.

Lemma lsn_value_round_trip_witness :
  of_string (to_string (mkLSN 0x5000016B37B0)) = Ok (mkLSN 0x5000016B37B0).
Proof.
  apply (lsn_value_round_trip (mkLSN 0x5000016B37B0)). simpl. lia.
Defined.

(** *** Ranges *)

Lemma strip_nothing (s : string) :
  string_all (fun c => negb (is_space c)) s = true -> strip s = s.
Proof.
  intros H. unfold strip.
  assert (Hl : lstrip s = s).
  { destruct s as [| c s]; [reflexivity |]. simpl in *.
    apply andb_prop in H as [Hc _]. apply negb_true_iff in Hc.
    now rewrite Hc. }
  rewrite Hl. induction s as [| c s IH]; [reflexivity |].
  simpl in *. apply andb_prop in H as [Hc Hs]. apply negb_true_iff in Hc.
  rewrite IH.
  - destruct s; [now rewrite Hc | reflexivity].
  - exact Hs.
  - destruct s as [| c' s]; [reflexivity |]. simpl in *.
    apply andb_prop in Hs as [Hc' _]. apply negb_true_iff in Hc'.
    now rewrite Hc'.
Qed.

(** The text of an LSN with a natural value: hexadecimal digits around
    one [/]. *)
Lemma to_string_chars (l : lsn) :
  0 <= value l ->
  string_all (fun c => Hex.is_upper_hex c || Ascii.eqb c "/") (to_string l)
  = true.
Proof.
  intros Hv. destruct (halves_of_any_value l) as [_ Ho].
  assert (Hid : 0 <= file_id l).
  { unfold file_id. apply Z.shiftr_nonneg. exact Hv. }
  destruct (int16_format_X (file_id l) Hid) as (_ & _ & Hhc).
  destruct (int16_format_X (file_offset l) ltac:(lia)) as (_ & _ & Hlc).
  unfold to_string. rewrite string_all_app.
  change ("/" ++ Hex.format_X (file_offset l))%string
    with (String "/" (Hex.format_X (file_offset l))).
  cbn [string_all].
  rewrite (string_all_weaken _ _ _ (fun c H => orb_true_intro _ _ (or_introl H))
             Hhc).
  rewrite (string_all_weaken _ _ _ (fun c H => orb_true_intro _ _ (or_introl H))
             Hlc).
  reflexivity.
Qed.

Lemma lsn_char_is_plain (c : ascii) :
  Hex.is_upper_hex c || Ascii.eqb c "/" = true ->
  negb (is_space c) = true /\ negb (Ascii.eqb c "-") = true.
Proof.
  destruct c as [[] [] [] [] [] [] [] []]; simpl; intros H;
    try discriminate H; split; reflexivity.
Qed.

(** X11.  For LSNs with values [>= 0], [parse_lsn_range] of
    [format_lsn_range start end] returns the pair [(start, end)]. *)
Theorem lsn_range_round_trip (a b : lsn) :
  0 <= value a -> 0 <= value b ->
  parse_lsn_range (format_lsn_range a b) = Ok (a, b).
Proof.
  intros Ha Hb. unfold parse_lsn_range, format_lsn_range.
  pose proof (to_string_chars a Ha) as Hca.
  pose proof (to_string_chars b Hb) as Hcb.
  destruct (split_at_separator "-" (to_string a) (to_string b)) as [Hc Hs].
  { revert Hca. apply string_all_weaken. intros c H.
    apply (lsn_char_is_plain c H). }
  destruct (contains_none "-" (to_string b)) as [_ Hs2].
  { revert Hcb. apply string_all_weaken. intros c H.
    apply (lsn_char_is_plain c H). }
  change (to_string a ++ "-" ++ to_string b)%string
    with (to_string a ++ String "-" (to_string b))%string.
  rewrite Hc, Hs, Hs2. cbn [negb].
  rewrite !strip_nothing.
  - now rewrite !of_string_to_string.
  - revert Hcb. apply string_all_weaken. intros c H.
    apply (lsn_char_is_plain c H).
  - revert Hca. apply string_all_weaken. intros c H.
    apply (lsn_char_is_plain c H).
Qed.

Lemma lsn_range_round_trip_witness :
  parse_lsn_range (format_lsn_range (mkLSN 0x16B37B0) (mkLSN 0x3000016B38B0))
  = Ok (mkLSN 0x16B37B0, mkLSN 0x3000016B38B0).
Proof.
  apply (lsn_range_round_trip (mkLSN 0x16B37B0) (mkLSN 0x3000016B38B0));
    simpl; lia.
Defined.

End LSNMoreFacts.

(** ** More on the record decoder *)

Module DecoderMoreFacts.

Import BinaryReader WalParser Fixtures RecordLayout.
Import BinaryReaderFacts DecoderFacts BinaryReaderMoreFacts.
Local Open Scope reader_scope.

(** *** Resource manager names *)

Lemma format_int_inj (a b : Z) : format_int a = format_int b -> a = b.
Proof.
  unfold format_int. intros H.
  assert (Hn : forall z, Z.to_int z <> Decimal.Pos Decimal.Nil /\
                         Z.to_int z <> Decimal.Neg Decimal.Nil).
  { intros [| p | p]; simpl; split; try discriminate;
      intros E; injection E as E;
      now apply DecimalPos.Unsigned.to_uint_nonnil in E. }
  apply DecimalZ.to_int_inj.
  assert (Some (Z.to_int a) = Some (Z.to_int b)) as E; [| now injection E].
  rewrite <- (DecimalString.NilZero.isi (Z.to_int a)) by apply Hn.
  rewrite <- (DecimalString.NilZero.isi (Z.to_int b)) by apply Hn.
  now rewrite H.
Qed.

Lemma append_cancel_r (x y s : string) :
  (x ++ s = y ++ s)%string -> x = y.
Proof.
  assert (L : forall a b, String.length (a ++ b) =
                          (String.length a + String.length b)%nat).
  { induction a; simpl; intros; [reflexivity | now rewrite IHa]. }
  revert y. induction x as [| c x IH]; intros [| d y] H; simpl in H.
  - reflexivity.
  - apply (f_equal String.length) in H. simpl in H.
    rewrite !L in H. simpl in H. lia.
  - apply (f_equal String.length) in H. simpl in H.
    rewrite !L in H. simpl in H. lia.
  - injection H as -> H. f_equal. now apply IH.
Qed.

Lemma append_cancel_l (s x y : string) :
  (s ++ x = s ++ y)%string -> x = y.
Proof.
  induction s as [| c s IH]; simpl; intros H; [exact H |].
  injection H as H. now apply IH.
Qed.

Lemma known_rmgr (rmid : Z) :
  0 <= rmid <= 24 ->
  In (get_rmgr_name rmid) (map snd RMGR_IDS) /\
  assoc_get rmid RMGR_IDS = Some (get_rmgr_name rmid).
Proof.
  intros H.
  assert (K : rmid = 0 \/ rmid = 1 \/ rmid = 2 \/ rmid = 3 \/ rmid = 4 \/
    rmid = 5 \/ rmid = 6 \/ rmid = 7 \/ rmid = 8 \/ rmid = 9 \/ rmid = 10 \/
    rmid = 11 \/ rmid = 12 \/ rmid = 13 \/ rmid = 14 \/ rmid = 15 \/
    rmid = 16 \/ rmid = 17 \/ rmid = 18 \/ rmid = 19 \/ rmid = 20 \/
    rmid = 21 \/ rmid = 22 \/ rmid = 23 \/ rmid = 24) by lia.
  repeat (destruct K as [-> | K]); try subst rmid;
    (split; [vm_compute; tauto | reflexivity]).
Qed.

Lemma unknown_rmgr (rmid : Z) :
  ~ 0 <= rmid <= 24 ->
  get_rmgr_name rmid = ("Unknown(" ++ format_int rmid ++ ")")%string.
Proof.
  intros H. unfold get_rmgr_name, RMGR_IDS. cbn [assoc_get].
  repeat match goal with
         | |- context [?k =? rmid] => destruct (k =? rmid) eqn:?; [lia |]
         end.
  reflexivity.
Qed.

Lemma table_names_differ (a b : Z) (n : string) :
  assoc_get a RMGR_IDS = Some n -> assoc_get b RMGR_IDS = Some n -> a = b.
Proof.
  unfold RMGR_IDS. cbn [assoc_get]. intros Ha Hb.
  repeat match type of Ha with
         | context [?k =? a] => destruct (Z.eqb_spec k a); [subst a |]
         end;
  try discriminate Ha;
  injection Ha as <-;
  repeat match type of Hb with
         | context [?k =? b] => destruct (Z.eqb_spec k b); [subst b |]
         end;
  try discriminate Hb; try reflexivity.
Qed.

Lemma table_name_is_not_unknown (n s : string) :
  In n (map snd RMGR_IDS) -> n <> ("Unknown(" ++ s)%string.
Proof.
  simpl. intros H E. subst n.
  repeat (destruct H as [H | H]; [discriminate H |]). exact H.
Qed.

Lemma rmgr_name_inj (a b : Z) :
  get_rmgr_name a = get_rmgr_name b -> a = b.
Proof.
  intros H.
  destruct (Z_le_dec 0 a) as [Ha0 |];
    [destruct (Z_le_dec a 24) as [Ha |] |];
    (destruct (Z_le_dec 0 b) as [Hb0 |];
     [destruct (Z_le_dec b 24) as [Hb |] |]).
  all: try (destruct (known_rmgr a (conj Ha0 Ha)) as [Ia Ka]).
  all: try (destruct (known_rmgr b (conj Hb0 Hb)) as [Ib Kb]).
  all: try (rewrite (unknown_rmgr a) in * by lia).
  all: try (rewrite (unknown_rmgr b) in * by lia).
  all: try (exfalso; eapply table_name_is_not_unknown; [exact Ia | exact H]).
  all: try (exfalso; eapply table_name_is_not_unknown;
            [exact Ib | symmetry; exact H]).
  all: try (apply append_cancel_l, append_cancel_r in H;
            now apply format_int_inj).
  rewrite H in Ka. exact (table_names_differ a b _ Ka Kb).
Qed.

(** X12.  [get_rmgr_name] gives different names to different resource
    manager ids, whether they are in the table (0..24) or printed as
    [Unknown(id)]: grouping records by name, as the statistics do, is
    grouping them by id. *)
Theorem rmgr_names_identify_the_ids (a b : Z) :
  a <> b -> get_rmgr_name a <> get_rmgr_name b.
Proof. intros Hab H. apply Hab. now apply rmgr_name_inj. Qed.

Lemma rmgr_names_identify_the_ids_witness :
  get_rmgr_name 9 <> get_rmgr_name 10 /\
  get_rmgr_name 25 <> get_rmgr_name (-25).
Proof.
  split.
  - apply (rmgr_names_identify_the_ids 9 10). lia.
  - apply (rmgr_names_identify_the_ids 25 (-25)). lia.
Defined.

(** *** Reading at an offset behind the cursor *)

Lemma bind_step {A B : Type} (m : M A) (f : A -> M B) (rd rd' : reader) (a : A) :
  m rd = (Ok a, rd') -> bind m f rd = f a rd'.
Proof. intros H. unfold bind. now rewrite H. Qed.

Lemma bind_raise {A B : Type} (m : M A) (f : A -> M B) (rd rd' : reader)
    (e : exn) :
  m rd = (Raise e, rd') -> bind m f rd = (Raise e, rd').
Proof. intros H. unfold bind. now rewrite H. Qed.

Lemma valid_moved (rd : reader) (off : Z) :
  valid rd -> 0 <= off <= length rd - position rd ->
  valid (set_position rd (position rd + off)).
Proof. intros [Hl Hp] Ho. split; simpl; lia. Qed.

Lemma field_moved (rd : reader) (off off' n : Z) :
  valid rd -> 0 <= off -> 0 <= off' ->
  field off' n (set_position rd (position rd + off)) = field (off + off') n rd.
Proof.
  intros [Hl Hp] Ho Ho'. unfold field, unread. simpl.
  rewrite !skipn_skipn. do 2 f_equal. lia.
Qed.

Lemma read_bytes_at (off n : Z) (rd : reader) :
  valid rd -> 0 <= off -> 0 <= n -> off + n <= length rd - position rd ->
  read_bytes n (set_position rd (position rd + off))
  = (Ok (field off n rd), set_position rd (position rd + (off + n))).
Proof.
  intros [Hl Hp] Ho Hn Hfit. unfold read_bytes. simpl.
  destruct (position rd + off + n >? length rd) eqn:E; [lia |].
  rewrite py_slice_inside by lia. f_equal.
  - f_equal. unfold field, unread. rewrite skipn_skipn. do 2 f_equal. lia.
  - unfold set_position. simpl. f_equal. lia.
Qed.

Lemma read_bytes_eof (off n : Z) (rd : reader) :
  length rd - position rd < off + n ->
  read_bytes n (set_position rd (position rd + off))
  = (Raise EOFError, set_position rd (position rd + off)).
Proof.
  intros Hfit. unfold read_bytes. simpl.
  destruct (position rd + off + n >? length rd) eqn:E; [reflexivity | lia].
Qed.

Lemma skip_bytes_at (off n : Z) (rd : reader) :
  off + n <= length rd - position rd ->
  skip_bytes n (set_position rd (position rd + off))
  = (Ok tt, set_position rd (position rd + (off + n))).
Proof.
  intros Hfit. unfold skip_bytes. simpl.
  destruct (position rd + off + n >? length rd) eqn:E; [lia |].
  unfold set_position. simpl. do 2 f_equal. lia.
Qed.

Lemma skip_bytes_eof (off n : Z) (rd : reader) :
  length rd - position rd < off + n ->
  skip_bytes n (set_position rd (position rd + off))
  = (Raise EOFError, set_position rd (position rd + off)).
Proof.
  intros Hfit. unfold skip_bytes. simpl.
  destruct (position rd + off + n >? length rd) eqn:E; [reflexivity | lia].
Qed.

Lemma field_length (off n : Z) (rd : reader) :
  valid rd -> 0 <= off -> 0 <= n -> off + n <= length rd - position rd ->
  Z.of_nat (List.length (field off n rd)) = n.
Proof.
  intros [Hl Hp] Ho Hn Hfit. unfold field, unread.
  rewrite length_firstn, !length_skipn. lia.
Qed.

Lemma read_uint_at (off n : Z) (rd : reader) :
  valid rd -> 0 <= off -> 0 <= n -> off + n <= length rd - position rd ->
  (let! d := read_bytes n in lift (unpack_uint n d))
    (set_position rd (position rd + off))
  = (Ok (uint_at off n rd), set_position rd (position rd + (off + n))).
Proof.
  intros Hv Ho Hn Hfit.
  rewrite (bind_step _ _ _ _ _ (read_bytes_at off n rd Hv Ho Hn Hfit)).
  unfold lift, unpack_uint. rewrite field_length by assumption.
  now rewrite Z.eqb_refl.
Qed.

Lemma read_uint_eof (off n : Z) (rd : reader) :
  length rd - position rd < off + n ->
  (let! d := read_bytes n in lift (unpack_uint n d))
    (set_position rd (position rd + off))
  = (Raise EOFError, set_position rd (position rd + off)).
Proof.
  intros Hfit. now rewrite (bind_raise _ _ _ _ _ (read_bytes_eof off n rd Hfit)).
Qed.

Lemma peek_bytes_at (off n : Z) (rd : reader) :
  valid rd -> 0 <= off -> 0 <= n -> off + n <= length rd - position rd ->
  peek_bytes n (set_position rd (position rd + off))
  = (Ok (field off n rd), set_position rd (position rd + off)).
Proof.
  intros [Hl Hp] Ho Hn Hfit. unfold peek_bytes. simpl.
  destruct (position rd + off + n >? length rd) eqn:E; [lia |].
  rewrite py_slice_inside by lia. do 2 f_equal.
  unfold field, unread. rewrite skipn_skipn. do 2 f_equal. lia.
Qed.

Lemma at_cursor (rd : reader) : rd = set_position rd (position rd + 0).
Proof. destruct rd. unfold set_position. simpl. f_equal. lia. Qed.

(** The header fields, read one after the other. *)
Lemma header_fields (rd : reader) {B : Type}
    (k : Z -> Z -> Z -> Z -> Z -> Z -> M B) :
  valid rd -> 24 <= length rd - position rd ->
  (let! xl_tot_len := read_uint32 in
   let! xl_xid := read_uint32 in
   let! xl_prev_value := read_uint64 in
   let! xl_info := read_uint8 in
   let! xl_rmid := read_uint8 in
   do! skip_bytes 2 in
   let! xl_crc := read_uint32 in
   k xl_tot_len xl_xid xl_prev_value xl_info xl_rmid xl_crc) rd
  = k (uint_at 0 4 rd) (uint_at 4 4 rd) (uint_at 8 8 rd) (uint_at 16 1 rd)
      (uint_at 17 1 rd) (uint_at 20 4 rd)
      (set_position rd (position rd + 24)).
Proof.
  intros Hv Hfit.
  rewrite (at_cursor rd) at 1.
  unfold read_uint32, read_uint64, read_uint8.
  rewrite (bind_step _ _ _ _ _ (read_uint_at 0 4 rd Hv ltac:(lia) ltac:(lia) ltac:(lia))).
  rewrite (bind_step _ _ _ _ _ (read_uint_at (0 + 4) 4 rd Hv ltac:(lia) ltac:(lia) ltac:(lia))).
  rewrite (bind_step _ _ _ _ _ (read_uint_at (0 + 4 + 4) 8 rd Hv ltac:(lia) ltac:(lia) ltac:(lia))).
  rewrite (bind_step _ _ _ _ _ (read_uint_at (0 + 4 + 4 + 8) 1 rd Hv ltac:(lia) ltac:(lia) ltac:(lia))).
  rewrite (bind_step _ _ _ _ _ (read_uint_at (0 + 4 + 4 + 8 + 1) 1 rd Hv ltac:(lia) ltac:(lia) ltac:(lia))).
  rewrite (bind_step _ _ _ _ _ (skip_bytes_at (0 + 4 + 4 + 8 + 1 + 1) 2 rd ltac:(lia))).
  rewrite (bind_step _ _ _ _ _ (read_uint_at (0 + 4 + 4 + 8 + 1 + 1 + 2) 4 rd Hv ltac:(lia) ltac:(lia) ltac:(lia))).
  reflexivity.
Qed.

Lemma header_only (fuel : nat) (rd : reader) :
  valid rd -> 24 <= length rd - position rd ->
  uint_at 0 4 rd <= 24 ->
  XLogRecord_init fuel rd
  = (Ok {| xl_tot_len := uint_at 0 4 rd; xl_xid := uint_at 4 4 rd;
           xl_prev := LSN.of_int (uint_at 8 8 rd);
           xl_info := uint_at 16 1 rd; xl_rmid := uint_at 17 1 rd;
           xl_crc := uint_at 20 4 rd; blocks := []; main_data := [] |},
     set_position rd (position rd + 24)).
Proof.
  intros Hv Hfit Hlen. unfold XLogRecord_init.
  rewrite (header_fields rd _ Hv Hfit).
  unfold bind, _parse_record_data, tell. simpl position.
  destruct fuel as [| fuel]; simpl _parse_record_loop; unfold tell;
    simpl position;
    (destruct (position rd + 24 <?
               position rd + 24 + uint_at 0 4 rd - SIZEOF_XLOG_RECORD) eqn:E;
     [unfold SIZEOF_XLOG_RECORD in E; lia | reflexivity]).
Qed.

(** X13.  When at least 24 bytes are left and the length field (the first
    four bytes, little-endian) is at most 24, in particular when it is 0,
    [XLogRecord] decodes the six header fields from their offsets 0, 4, 8,
    16, 17 and 20, leaves [blocks] and [main_data] empty, and leaves the
    cursor exactly 24 bytes further, whatever the iteration budget. *)
Theorem header_only_record (fuel : nat) (rd : reader) :
  valid rd -> 24 <= length rd - position rd ->
  uint_at 0 4 rd <= 24 ->
  XLogRecord_init fuel rd
  = (Ok {| xl_tot_len := uint_at 0 4 rd; xl_xid := uint_at 4 4 rd;
           xl_prev := LSN.of_int (uint_at 8 8 rd);
           xl_info := uint_at 16 1 rd; xl_rmid := uint_at 17 1 rd;
           xl_crc := uint_at 20 4 rd; blocks := []; main_data := [] |},
     set_position rd (position rd + 24)).
Proof. apply header_only. Qed.

Lemma header_only_record_witness :
  let rd := BinaryReader.init (record_header_bytes 0 7 0x18 0 10 ++ zeros 8) in
  XLogRecord_init 0 rd
  = (Ok {| xl_tot_len := 0; xl_xid := 7; xl_prev := LSN.of_int 0x18;
           xl_info := 0; xl_rmid := 10; xl_crc := 0;
           blocks := []; main_data := [] |},
     set_position rd 24).
Proof.
  intros rd.
  apply (header_only_record 0 rd).
  - unfold valid. simpl. lia.
  - simpl. lia.
  - vm_compute. discriminate.
Defined.

(** *** A record whose body is one main-data entry *)

Lemma tag_byte (off : Z) (rd : reader) :
  valid rd -> 0 <= off -> off + 1 <= length rd - position rd ->
  exists b, field off 1 rd = [b] /\ byte_val b = uint_at off 1 rd.
Proof.
  intros Hv Ho Hfit.
  pose proof (field_length off 1 rd Hv Ho ltac:(lia) Hfit) as Hlen.
  unfold uint_at. destruct (field off 1 rd) as [| b [| c l]];
    simpl in Hlen; try lia.
  exists b. split; [reflexivity |]. simpl. lia.
Qed.

Lemma parse_data_at (off w : Z) (rd : reader) :
  valid rd -> 0 <= off -> 0 <= w ->
  off + 1 + w <= length rd - position rd ->
  let n := uint_at (off + 1) w rd in
  let m := do! read_bytes 1 in
           let! data_length :=
             (let! d := read_bytes w in lift (unpack_uint w d)) in
           read_bytes data_length in
  (off + 1 + w + n <= length rd - position rd ->
     m (set_position rd (position rd + off))
     = (Ok (field (off + 1 + w) n rd),
        set_position rd (position rd + (off + 1 + w + n)))) /\
  (length rd - position rd < off + 1 + w + n ->
     m (set_position rd (position rd + off))
     = (Raise EOFError, set_position rd (position rd + (off + 1 + w)))).
Proof.
  intros Hv Ho Hw Hfit n m.
  assert (Hn : 0 <= n) by apply le_uint_nonneg.
  subst m.
  rewrite (bind_step _ _ _ _ _
             (read_bytes_at off 1 rd Hv ltac:(lia) ltac:(lia) ltac:(lia))).
  rewrite (bind_step _ _ _ _ _
             (read_uint_at (off + 1) w rd Hv ltac:(lia) ltac:(lia) ltac:(lia))).
  fold n. split; intros Hd.
  - apply (read_bytes_at (off + 1 + w) n rd Hv); lia.
  - apply (read_bytes_eof (off + 1 + w) n rd); lia.
Qed.

Lemma main_data_loop (fuel : nat) (rd : reader) (w data_end : Z) :
  valid rd ->
  position rd + 24 < data_end ->
  24 + 1 + w <= length rd - position rd ->
  (w = 4 /\ uint_at 24 1 rd = 254) \/ (w = 1 /\ uint_at 24 1 rd = 255) ->
  let n := uint_at 25 w rd in
  (25 + w + n <= length rd - position rd ->
     _parse_record_loop (S fuel) data_end [] []
       (set_position rd (position rd + 24))
     = (Ok ([], field (25 + w) n rd),
        set_position rd (position rd + (25 + w + n)))) /\
  (length rd - position rd < 25 + w + n ->
     _parse_record_loop (S fuel) data_end [] []
       (set_position rd (position rd + 24))
     = (Raise EOFError, set_position rd (position rd + (25 + w)))).
Proof.
  intros Hv Hend Hfit Htag n.
  destruct (tag_byte 24 rd Hv ltac:(lia) ltac:(lia)) as (b & Hb & Hval).
  assert (Hw : 0 <= w) by (destruct Htag as [[-> _] | [-> _]]; lia).
  destruct (parse_data_at 24 w rd Hv ltac:(lia) Hw ltac:(lia)) as [Hok Heof].
  change (24 + 1) with 25 in Hok, Heof. fold n in Hok, Heof.
  cbn [_parse_record_loop]. unfold tell. simpl position.
  destruct (position rd + 24 <? data_end) eqn:E; [clear E | lia].
  rewrite (bind_step _ _ _ _ _
             (peek_bytes_at 24 1 rd Hv ltac:(lia) ltac:(lia) ltac:(lia))).
  rewrite Hb, Hval.
  destruct Htag as [[-> Htag] | [-> Htag]]; rewrite Htag;
    try change (254 =? 255) with false; try change (254 =? 254) with true;
    try change (255 =? 255) with true;
    cbv iota; unfold _parse_data_long, _parse_data_short,
      read_uint32, read_uint8;
    (split; intros Hd;
     [ now rewrite (bind_step _ _ _ _ _ (Hok Hd))
     | now rewrite (bind_raise _ _ _ _ _ (Heof Hd)) ]).
Qed.

(** X14.  A record whose length field exceeds 24 and whose body starts with
    the tag 254 (long form, four length bytes) or 255 (short form, one
    length byte): when the announced data bytes are there, [XLogRecord]
    returns the header fields, no block and these bytes as [main_data],
    with the cursor just behind them; how far that is depends on the
    length byte(s) of the entry only, not on the record's length field.
    When the announced bytes are not all there, it raises [EOFError] and
    leaves the cursor behind the length byte(s) of the entry. *)
Theorem main_data_record (fuel : nat) (rd : reader) (w : Z) :
  valid rd ->
  24 < uint_at 0 4 rd ->
  24 + 1 + w <= length rd - position rd ->
  (w = 4 /\ uint_at 24 1 rd = 254) \/ (w = 1 /\ uint_at 24 1 rd = 255) ->
  let n := uint_at 25 w rd in
  (25 + w + n <= length rd - position rd ->
     XLogRecord_init (S fuel) rd
     = (Ok {| xl_tot_len := uint_at 0 4 rd; xl_xid := uint_at 4 4 rd;
              xl_prev := LSN.of_int (uint_at 8 8 rd);
              xl_info := uint_at 16 1 rd; xl_rmid := uint_at 17 1 rd;
              xl_crc := uint_at 20 4 rd; blocks := [];
              main_data := field (25 + w) n rd |},
        set_position rd (position rd + (25 + w + n)))) /\
  (length rd - position rd < 25 + w + n ->
     XLogRecord_init (S fuel) rd
     = (Raise EOFError, set_position rd (position rd + (25 + w)))).
Proof.
  intros Hv Hlen Hfit Htag n.
  assert (Hw : 0 <= w) by (destruct Htag as [[-> _] | [-> _]]; lia).
  unfold XLogRecord_init.
  rewrite (header_fields rd _ Hv ltac:(lia)).
  destruct (main_data_loop fuel rd w
              (position rd + 24 + uint_at 0 4 rd - SIZEOF_XLOG_RECORD)
              Hv ltac:(unfold SIZEOF_XLOG_RECORD; lia) Hfit Htag)
    as [Hok Heof].
  fold n in Hok, Heof.
  split; intros Hd.
  - unfold bind, _parse_record_data, tell. simpl position.
    now rewrite (Hok Hd).
  - unfold bind, _parse_record_data, tell. simpl position.
    now rewrite (Heof Hd).
Qed.

Lemma main_data_record_witness :
  let rd := BinaryReader.init
              (record_header_bytes 25 7 0x18 0 10 ++
               ["255"%byte; "003"%byte; "a"%byte; "b"%byte; "c"%byte;
                "d"%byte]) in
  let cut := BinaryReader.init
              (record_header_bytes 200 7 0x18 0 10 ++
               ["254"%byte; "003"%byte; "000"%byte; "000"%byte; "000"%byte;
                "a"%byte; "b"%byte]) in
  XLogRecord_init 1 rd
  = (Ok {| xl_tot_len := 25; xl_xid := 7; xl_prev := LSN.of_int 0x18;
           xl_info := 0; xl_rmid := 10; xl_crc := 0; blocks := [];
           main_data := ["a"%byte; "b"%byte; "c"%byte] |},
     set_position rd 29) /\
  XLogRecord_init 1 cut = (Raise EOFError, set_position cut 29).
Proof.
  intros rd cut. split.
  - apply (proj1 (main_data_record 0 rd 1
                    ltac:(unfold valid; simpl; lia)
                    ltac:(vm_compute; reflexivity)
                    ltac:(simpl; lia)
                    ltac:(right; split; reflexivity))).
    vm_compute. discriminate.
  - apply (proj2 (main_data_record 0 cut 4
                    ltac:(unfold valid; simpl; lia)
                    ltac:(vm_compute; reflexivity)
                    ltac:(simpl; lia)
                    ltac:(left; split; reflexivity))).
    vm_compute. reflexivity.
Defined.

(** *** A header that is cut short *)

Ltac header_fails :=
  erewrite bind_raise;
  [| first [apply read_uint_eof | apply skip_bytes_eof]; lia];
  reflexivity.

Ltac header_reads rd Hv :=
  erewrite bind_step;
  [| first [apply (read_uint_at _ _ rd Hv) | apply (skip_bytes_at _ _ rd)];
     lia].

(** X15.  With fewer than 24 bytes left, [XLogRecord] raises [EOFError]
    whatever the iteration budget, and leaves the cursor not where it
    started but behind the last header field that was still complete. *)
Theorem truncated_record_header (fuel : nat) (rd : reader) :
  valid rd -> length rd - position rd < 24 ->
  XLogRecord_init fuel rd
  = (Raise EOFError,
     set_position rd
       (position rd + fields_that_fit (length rd - position rd))).
Proof.
  intros Hv Hfit. unfold XLogRecord_init, fields_that_fit.
  rewrite (at_cursor rd) at 1.
  unfold read_uint32, read_uint64, read_uint8.
  repeat
    match goal with
    | |- context [if ?l <? ?k then _ else _] =>
        destruct (Z.ltb_spec l k); [header_fails | header_reads rd Hv]
    end.
  header_fails.
Qed.

Lemma truncated_record_header_witness :
  let rd := BinaryReader.init (le_bytes 4 100 ++ le_bytes 4 7 ++ zeros 3) in
  XLogRecord_init 5 rd = (Raise EOFError, set_position rd 8).
Proof.
  intros rd.
  apply (truncated_record_header 5 rd).
  - unfold valid. simpl. lia.
  - simpl. lia.
Defined.

(** *** The record decoder always comes to an end *)

Lemma ends_well_bind {A B : Type} (m : M A) (f : A -> M B) (rd : reader)
    (k k1 k2 : Z) (Q : A -> Prop) (R : B -> Prop) :
  ends_well rd k1 Q (m rd) ->
  (forall a rd', Q a -> valid rd' -> data rd' = data rd ->
     position rd + k1 <= position rd' -> ends_well rd' k2 R (f a rd')) ->
  0 <= k1 -> 0 <= k2 -> k <= k1 + k2 ->
  ends_well rd k R (bind m f rd).
Proof.
  intros Hm Hf H1 H2 Hk. unfold bind.
  destruct (m rd) as [[a | e |] rd1]; simpl in Hm; [| | contradiction].
  - destruct Hm as (Ha & Hv & Hd & Hp).
    specialize (Hf a rd1 Ha Hv Hd Hp).
    destruct (f a rd1) as [[b | e |] rd2]; simpl in *; [| | contradiction].
    + destruct Hf as (Hb & Hv2 & Hd2 & Hp2).
      split; [exact Hb |]. split; [exact Hv2 |]. split; [congruence | lia].
    + destruct Hf as (He & Hv2 & Hd2 & Hp2).
      split; [exact He |]. split; [exact Hv2 |]. split; [congruence | lia].
  - exact Hm.
Qed.

Lemma advances_bind {A B : Type} (m : M A) (f : A -> M B)
    (k k1 k2 : Z) (Q : A -> Prop) (R : B -> Prop) :
  advances m k1 Q -> (forall a, Q a -> advances (f a) k2 R) ->
  0 <= k1 -> 0 <= k2 -> k <= k1 + k2 ->
  advances (bind m f) k R.
Proof.
  intros Hm Hf H1 H2 Hk rd Hv.
  apply (ends_well_bind m f rd k k1 k2 Q R); auto.
  intros a rd' Ha Hv' _ _. now apply Hf.
Qed.

Lemma advances_ret {A : Type} (a : A) (Q : A -> Prop) :
  Q a -> advances (ret a) 0 Q.
Proof.
  intros Ha rd Hv. simpl.
  split; [exact Ha |]. split; [exact Hv |]. split; [reflexivity | lia].
Qed.

Lemma advances_read_bytes (n : Z) :
  0 <= n -> advances (read_bytes n) n (fun _ => True).
Proof.
  intros Hn rd [Hl Hp]. unfold read_bytes.
  destruct (position rd + n >? length rd) eqn:E; simpl;
    unfold valid; simpl; repeat split; auto; lia.
Qed.

Lemma advances_skip_bytes (n : Z) :
  0 <= n -> advances (skip_bytes n) n (fun _ => True).
Proof.
  intros Hn rd [Hl Hp]. unfold skip_bytes.
  destruct (position rd + n >? length rd) eqn:E; simpl;
    unfold valid; simpl; repeat split; auto; lia.
Qed.

Lemma advances_read_uint (n : Z) :
  0 <= n ->
  advances (let! d := read_bytes n in lift (unpack_uint n d)) n
           (fun v => 0 <= v).
Proof.
  intros Hn rd [Hl Hp]. unfold bind, read_bytes.
  destruct (position rd + n >? length rd) eqn:E; simpl.
  - unfold valid. repeat split; auto; lia.
  - unfold unpack_uint. rewrite py_slice_inside_length by lia.
    rewrite Z.eqb_refl. simpl. unfold valid. simpl.
    repeat split; auto; try lia. apply le_uint_nonneg.
Qed.

Lemma advances_weaken {A : Type} (m : M A) (k k' : Z) (Q Q' : A -> Prop) :
  advances m k Q -> k' <= k -> (forall a, Q a -> Q' a) ->
  advances m k' Q'.
Proof.
  intros Hm Hk HQ rd Hv. specialize (Hm rd Hv).
  destruct (m rd) as [[a | e |] rd1]; simpl in *; auto.
  destruct Hm as (Ha & Hv1 & Hd & Hp).
  split; [now apply HQ |]. split; [exact Hv1 |]. split; [exact Hd | lia].
Qed.

Lemma advances_bind0 {A B : Type} (m : M A) (f : A -> M B)
    (Q : A -> Prop) (R : B -> Prop) :
  advances m 0 Q -> (forall a, Q a -> advances (f a) 0 R) ->
  advances (bind m f) 0 R.
Proof.
  intros Hm Hf. apply (advances_bind m f 0 0 0 Q R); auto; lia.
Qed.

Lemma advances_read_bytes0 (n : Z) :
  0 <= n -> advances (read_bytes n) 0 (fun _ => True).
Proof.
  intros Hn. apply (advances_weaken _ n 0 (fun _ => True)); auto.
  now apply advances_read_bytes.
Qed.

Lemma advances_skip_bytes0 (n : Z) :
  0 <= n -> advances (skip_bytes n) 0 (fun _ => True).
Proof.
  intros Hn. apply (advances_weaken _ n 0 (fun _ => True)); auto.
  now apply advances_skip_bytes.
Qed.

Lemma advances_read_uint0 (n : Z) :
  0 <= n ->
  advances (let! d := read_bytes n in lift (unpack_uint n d)) 0
           (fun v => 0 <= v).
Proof.
  intros Hn. apply (advances_weaken _ n 0 (fun v => 0 <= v)); auto.
  now apply advances_read_uint.
Qed.

Ltac advances_step :=
  cbv zeta;
  lazymatch goal with
  | |- advances (bind (if _ then _ else _) _) 0 _ =>
      eapply (advances_bind0 _ _ (fun _ => True)); [| intros ? _]
  | |- advances (bind _ _) 0 _ =>
      eapply advances_bind0; [| intros ? ?]
  | |- advances (if ?c then _ else _) 0 _ => destruct c
  | |- advances (ret _) 0 _ => apply advances_ret; exact I
  | |- advances (read_bytes _) 0 _ =>
      apply advances_read_bytes0; cbv beta in *; lia
  | |- advances (skip_bytes _) 0 _ =>
      apply advances_skip_bytes0; cbv beta in *; lia
  | |- advances read_uint8 0 _ => apply (advances_read_uint0 1); lia
  | |- advances read_uint16 0 _ => apply (advances_read_uint0 2); lia
  | |- advances read_uint32 0 _ => apply (advances_read_uint0 4); lia
  | |- advances read_uint64 0 _ => apply (advances_read_uint0 8); lia
  end.

Lemma advances_parse_block_image :
  advances _parse_block_image 0 (fun _ => True).
Proof. unfold _parse_block_image. repeat advances_step. Qed.

Lemma advances_parse_block_reference :
  advances _parse_block_reference 1 (fun _ => True).
Proof.
  unfold _parse_block_reference.
  eapply (advances_bind _ _ 1 1 0);
    [apply (advances_read_uint 1); lia | intros block_id _ | lia | lia | lia].
  repeat first [advances_step | apply advances_parse_block_image].
Qed.

Lemma advances_parse_data_short :
  advances _parse_data_short 0 (fun _ => True).
Proof. unfold _parse_data_short. repeat advances_step. Qed.

Lemma advances_parse_data_long :
  advances _parse_data_long 0 (fun _ => True).
Proof. unfold _parse_data_long. repeat advances_step. Qed.

Lemma same_length (rd rd' : reader) :
  valid rd -> valid rd' -> data rd' = data rd -> length rd' = length rd.
Proof. intros [Hl _] [Hl' _] Hd. congruence. Qed.

Lemma record_loop_ends_well (fuel : nat) :
  forall (data_end : Z) (blocks : list BlockInfo) (main_data : list byte)
         (rd : reader),
    valid rd -> (bytes_left rd < fuel)%nat ->
    ends_well rd 0 (fun _ => True)
      (_parse_record_loop fuel data_end blocks main_data rd).
Proof.
  induction fuel as [| fuel IH]; intros data_end blocks main_data rd Hv Hfuel;
    [lia |].
  cbn [_parse_record_loop].
  destruct (tell rd <? data_end).
  2: { simpl. split; [exact I |]. split; [exact Hv |].
       split; [reflexivity | lia]. }
  assert (Hrec : forall blocks' rd' k,
            1 <= k -> valid rd' -> data rd' = data rd ->
            position rd + k <= position rd' ->
            ends_well rd' 0 (fun _ => True)
              (_parse_record_loop fuel data_end blocks' main_data rd')).
  { intros blocks' rd' k Hk Hv' Hd Hp. apply IH; [exact Hv' |].
    pose proof (same_length rd rd' Hv Hv' Hd) as Hl.
    destruct Hv' as [_ Hp']. unfold bytes_left in *. lia. }
  unfold bind at 1. unfold peek_bytes.
  assert (Hpeek : forall bs,
    ends_well rd 0 (fun _ => True)
      (match bs with
       | [] => ret (blocks, main_data)
       | b :: _ =>
           if byte_val b =? 255
           then let! m := _parse_data_short in ret (blocks, m)
           else
             if byte_val b =? 254
             then let! m := _parse_data_long in ret (blocks, m)
             else
               if (byte_val b =? 253) || (byte_val b =? 252)
               then
                 do! read_bytes 1 in
                 do! (if byte_val b =? 253 then skip_bytes 2
                      else skip_bytes 4) in
                 _parse_record_loop fuel data_end blocks main_data
               else
                 let! blk := _parse_block_reference in
                 _parse_record_loop fuel data_end (blocks ++ [blk]) main_data
       end rd)).
  { intros [| b bs].
    - now apply advances_ret.
    - destruct (byte_val b =? 255).
      { apply (advances_bind0 _ _ (fun _ => True) (fun _ => True));
          [apply advances_parse_data_short | | exact Hv].
        intros m _. now apply advances_ret. }
      destruct (byte_val b =? 254).
      { apply (advances_bind0 _ _ (fun _ => True) (fun _ => True));
          [apply advances_parse_data_long | | exact Hv].
        intros m _. now apply advances_ret. }
      destruct ((byte_val b =? 253) || (byte_val b =? 252)).
      + apply (ends_well_bind _ _ rd 0 1 0 (fun _ => True) (fun _ => True));
          try lia.
        * apply advances_read_bytes; [lia | exact Hv].
        * intros _ rd1 _ Hv1 Hd1 Hp1.
          apply (ends_well_bind _ _ rd1 0 0 0 (fun _ => True) (fun _ => True));
            try lia.
          -- destruct (byte_val b =? 253);
               apply advances_skip_bytes0; try lia; exact Hv1.
          -- intros _ rd2 _ Hv2 Hd2 Hp2.
             apply (Hrec blocks rd2 1); [lia | exact Hv2 | congruence | lia].
      + apply (ends_well_bind _ _ rd 0 1 0 (fun _ => True) (fun _ => True));
          try lia.
        * apply advances_parse_block_reference. exact Hv.
        * intros blk rd1 _ Hv1 Hd1 Hp1.
          apply (Hrec (blocks ++ [blk]) rd1 1);
            [lia | exact Hv1 | exact Hd1 | exact Hp1]. }
  destruct (position rd + 1 >? length rd); apply Hpeek.
Qed.

(** X16.  On a valid cursor, [XLogRecord] comes to an end within as many
    rounds of its body loop as there are bytes left plus one: it either
    returns, with the cursor at least 24 bytes further, or raises
    [EOFError] (never [struct.error]); in both cases the buffer is
    untouched and the cursor is still inside it and not before where it
    started. *)
Theorem record_decoder_comes_to_an_end (fuel : nat) (rd : reader) :
  valid rd -> (bytes_left rd < fuel)%nat ->
  match XLogRecord_init fuel rd with
  | (Ok record, rd') =>
      valid rd' /\ data rd' = data rd /\ position rd + 24 <= position rd'
  | (Raise e, rd') =>
      e = EOFError /\ valid rd' /\ data rd' = data rd /\
      position rd <= position rd'
  | (Timeout, _) => False
  end.
Proof.
  intros Hv Hfuel.
  assert (H : ends_well rd 24 (fun _ : XLogRecord => True)
                (XLogRecord_init fuel rd)).
  { unfold XLogRecord_init.
    eapply (ends_well_bind _ _ rd 24 4 20);
      [apply (advances_read_uint 4); [lia | exact Hv] | | lia | lia | lia].
    intros tot rd1 _ Hv1 Hd1 Hp1.
    eapply (ends_well_bind _ _ rd1 20 4 16);
      [apply (advances_read_uint 4); [lia | exact Hv1] | | lia | lia | lia].
    intros x rd2 _ Hv2 Hd2 Hp2.
    eapply (ends_well_bind _ _ rd2 16 8 8);
      [apply (advances_read_uint 8); [lia | exact Hv2] | | lia | lia | lia].
    intros prev rd3 _ Hv3 Hd3 Hp3.
    eapply (ends_well_bind _ _ rd3 8 1 7);
      [apply (advances_read_uint 1); [lia | exact Hv3] | | lia | lia | lia].
    intros info rd4 _ Hv4 Hd4 Hp4.
    eapply (ends_well_bind _ _ rd4 7 1 6);
      [apply (advances_read_uint 1); [lia | exact Hv4] | | lia | lia | lia].
    intros rmid rd5 _ Hv5 Hd5 Hp5.
    eapply (ends_well_bind _ _ rd5 6 2 4);
      [apply (advances_skip_bytes 2); [lia | exact Hv5] | | lia | lia | lia].
    intros _ rd6 _ Hv6 Hd6 Hp6.
    eapply (ends_well_bind _ _ rd6 4 4 0);
      [apply (advances_read_uint 4); [lia | exact Hv6] | | lia | lia | lia].
    intros crc rd7 _ Hv7 Hd7 Hp7.
    eapply (ends_well_bind _ _ rd7 0 0 0 (fun _ => True));
      [ | | lia | lia | lia].
    - unfold _parse_record_data. apply record_loop_ends_well; [exact Hv7 |].
      assert (Hd : data rd7 = data rd) by congruence.
      pose proof (same_length rd rd7 Hv Hv7 Hd) as Hl.
      destruct Hv7 as [_ Hp']. unfold bytes_left in *. lia.
    - intros body rd8 _ Hv8 _ _. now apply advances_ret. }
  destruct (XLogRecord_init fuel rd) as [[record | e |] rd']; simpl in H.
  - destruct H as (_ & Hv' & Hd & Hp). auto.
  - exact H.
  - exact H.
Qed.

Lemma record_decoder_comes_to_an_end_witness :
  let rd := BinaryReader.init
              (record_header_bytes 200 7 0x18 0 10 ++
               ["253"%byte; "001"%byte; "002"%byte;
                "255"%byte; "001"%byte; "a"%byte]) in
  match XLogRecord_init 31 rd with
  | (Ok record, rd') =>
      valid rd' /\ data rd' = data rd /\ position rd + 24 <= position rd'
  | (Raise e, rd') =>
      e = EOFError /\ valid rd' /\ data rd' = data rd /\
      position rd <= position rd'
  | (Timeout, _) => False
  end.
Proof.
  intros rd.
  apply (record_decoder_comes_to_an_end 31 rd).
  - unfold valid. simpl. lia.
  - unfold bytes_left. simpl. lia.
Defined.

(** *** A record header of zeros stops neither page loop *)

Lemma seek_back (rd : reader) (k : Z) :
  valid rd -> 
  seek (position rd) (set_position rd (position rd + k)) = (Ok tt, rd).
Proof.
  intros [Hl Hp]. unfold seek. simpl.
  destruct ((position rd <? 0) || (position rd >? length rd)) eqn:E.
  - apply orb_prop in E as [E | E]; lia.
  - destruct rd. reflexivity.
Qed.

Lemma set_records_same (w : WALFile.walfile) :
  WALFile.set_records (WALFile.records w) w = w.
Proof. now destruct w. Qed.

(** X17.  When at least 24 bytes are left before the end of the page and the
    length field under the cursor is 0, the record loop of
    [WALFile._parse_page_records] never ends: whatever the iteration
    budget [fuel], it is used up, with the cursor back where it was and
    [fuel] copies of the same header-only record appended to
    [records]. *)
Theorem zero_length_record_hangs_parse (fuel : nat) (page_end : Z)
    (w : WALFile.walfile) (rd : reader) :
  valid rd -> 24 <= length rd - position rd -> position rd < page_end ->
  uint_at 0 4 rd = 0 ->
  let record :=
    {| xl_tot_len := 0; xl_xid := uint_at 4 4 rd;
       xl_prev := LSN.of_int (uint_at 8 8 rd);
       xl_info := uint_at 16 1 rd; xl_rmid := uint_at 17 1 rd;
       xl_crc := uint_at 20 4 rd; blocks := []; main_data := [] |} in
  WALFile.page_loop fuel page_end w rd
  = (Timeout,
     WALFile.set_records (WALFile.records w ++ repeat record fuel) w, rd).
Proof.
  intros Hv Hfit Hend Hzero record. revert w.
  induction fuel as [| fuel IH]; intros w; cbn [WALFile.page_loop];
    unfold tell; (destruct (position rd <? page_end) eqn:E; [clear E | lia]).
  - simpl repeat. now rewrite app_nil_r, set_records_same.
  - unfold remaining_bytes, SIZEOF_XLOG_RECORD.
    destruct (Z.max 0 (length rd - position rd) <? 24) eqn:E; [lia | clear E].
    rewrite (header_only fuel rd Hv Hfit ltac:(lia)).
    rewrite Hzero. fold record. cbn [xl_tot_len]. rewrite Z.add_0_r.
    destruct (position rd >=? page_end) eqn:E; [lia | clear E].
    rewrite (seek_back rd 24 Hv).
    rewrite IH. destruct w. unfold WALFile.set_records. simpl.
    do 3 f_equal. rewrite <- app_assoc. reflexivity.
Qed.

Lemma zero_length_record_hangs_parse_witness :
  let rd := set_position
              (BinaryReader.init (page_header_bytes 0 1 0 0 ++ zeros 40)) 24 in
  WALFile.page_loop 3 8192 WALFile.init rd
  = (Timeout,
     WALFile.set_records
       (repeat {| xl_tot_len := 0; xl_xid := 0; xl_prev := LSN.of_int 0;
                  xl_info := 0; xl_rmid := 0; xl_crc := 0;
                  blocks := []; main_data := [] |} 3) WALFile.init, rd).
Proof.
  intros rd.
  apply (zero_length_record_hangs_parse 3 8192 WALFile.init rd).
  - unfold valid. simpl. lia.
  - simpl. lia.
  - simpl. lia.
  - reflexivity.
Defined.

(** X18.  When at least 24 bytes are left before the end of the page and the
    length field under the cursor is 0, the record loop of
    [XLogReader._read_page_records] never ends: every iteration budget is
    used up. *)
Theorem zero_length_record_hangs_reader (fuel : nat) (page_len : Z)
    (records : list XLogRecord) (rd : reader) :
  valid rd -> 24 <= length rd - position rd -> position rd < page_len ->
  uint_at 0 4 rd = 0 ->
  XLogReader.page_loop fuel page_len records rd = Timeout.
Proof.
  intros Hv Hfit Hend Hzero. revert records.
  induction fuel as [| fuel IH]; intros records; cbn [XLogReader.page_loop];
    unfold tell; (destruct (position rd <? page_len) eqn:E; [clear E | lia]);
    [reflexivity |].
  unfold remaining_bytes, SIZEOF_XLOG_RECORD.
  destruct (Z.max 0 (length rd - position rd) <? 24) eqn:E; [lia | clear E].
  pose proof (peek_bytes_at 0 4 rd Hv ltac:(lia) ltac:(lia) ltac:(lia))
    as Hpeek.
  rewrite <- (at_cursor rd) in Hpeek. rewrite Hpeek.
  rewrite (field_length 0 4 rd Hv) by lia.
  change (4 <? 4) with false. cbv iota.
  unfold unpack_uint. rewrite (field_length 0 4 rd Hv) by lia.
  change (4 =? 4) with true. cbv iota.
  fold (uint_at 0 4 rd). rewrite Hzero.
  rewrite Z.add_0_r.
  destruct (position rd >? page_len) eqn:E; [lia | clear E].
  rewrite (header_only fuel rd Hv Hfit ltac:(lia)).
  destruct (position rd >=? page_len) eqn:E; [lia | clear E].
  rewrite (seek_back rd 24 Hv).
  apply IH.
Qed.

Lemma zero_length_record_hangs_reader_witness :
  let page := page_header_bytes 0 1 0 0 ++ zeros (Z.to_nat 8168) in
  XLogReader.page_loop 5 8192 [] (set_position (BinaryReader.init page) 24)
  = Timeout.
Proof.
  intros page.
  apply (zero_length_record_hangs_reader 5 8192 []
           (set_position (BinaryReader.init page) 24)).
  - unfold valid. vm_compute. split; [reflexivity |]. split; discriminate.
  - vm_compute. discriminate.
  - simpl. lia.
  - vm_compute. reflexivity.
Defined.

End DecoderMoreFacts.

(** ** More on the streaming reader and the batch parser *)

Module ReaderMoreFacts.

Import WalParser ReaderNotions.
Import BinaryReaderFacts DecoderFacts DecoderMoreFacts.

(** *** Pages are read at page boundaries *)

Lemma read_page_in_step (fuel : nat) (rd : XLogReader.reader) :
  in_step rd ->
  let rd' := snd (XLogReader._read_page_records fuel rd) in
  in_step rd' /\
  XLogReader.file_size rd' = XLogReader.file_size rd /\
  (XLogReader.current_position rd <= XLogReader.file_size rd ->
   XLogReader.current_position rd' <= XLogReader.file_size rd').
Proof.
  intros (Hsize & Hhandle & Hmod & Hpos). unfold XLogReader._read_page_records.
  destruct (XLogReader.current_position rd + XLogReader.WAL_BLOCK_SIZE >?
            XLogReader.file_size rd) eqn:E.
  { simpl. unfold in_step. tauto. }
  unfold XLogReader.handle_read. rewrite Hhandle.
  set (page := firstn _ _).
  assert (Hlen : Z.of_nat (length page) = XLogReader.WAL_BLOCK_SIZE).
  { subst page. rewrite length_firstn, length_skipn.
    unfold XLogReader.WAL_BLOCK_SIZE in *. lia. }
  assert (Hgoal : forall o : outcome (list XLogRecord),
    let rd' := snd (o, XLogReader.advance (Z.of_nat (length page))
      {| XLogReader.wal_file := XLogReader.wal_file rd;
         XLogReader.file_size := XLogReader.file_size rd;
         XLogReader.file_handle :=
           Some (XLogReader.current_position rd + Z.of_nat (length page));
         XLogReader.current_position := XLogReader.current_position rd |}) in
    in_step rd' /\
    XLogReader.file_size rd' = XLogReader.file_size rd /\
    (XLogReader.current_position rd <= XLogReader.file_size rd ->
     XLogReader.current_position rd' <= XLogReader.file_size rd')).
  { intros o. simpl. unfold in_step. simpl. rewrite Hlen.
    split; [| split; [reflexivity | lia]].
    split; [exact Hsize |]. split; [reflexivity |].
    split; [| unfold XLogReader.WAL_BLOCK_SIZE; lia].
    unfold XLogReader.WAL_BLOCK_SIZE in *.
    rewrite <- Zplus_mod_idemp_l, Hmod. reflexivity. }
  destruct (Z.of_nat (length page) <? XLogReader.WAL_BLOCK_SIZE);
    [apply Hgoal |].
  destruct (WALPageHeader_init (BinaryReader.init page)) as [[h | e |] c];
    try apply Hgoal.
  destruct (negb (magic h =? XLogReader.XLOG_PAGE_MAGIC)); apply Hgoal.
Qed.

Lemma while_pages_in_step (fuel : nat) :
  forall (e : option LSN.lsn) (rd : XLogReader.reader),
    in_step rd -> in_step (snd (XLogReader.while_pages fuel e rd)).
Proof.
  induction fuel as [| fuel IH]; intros e rd Hin;
    cbn [XLogReader.while_pages];
    destruct (XLogReader.current_position rd <? XLogReader.file_size rd);
    try exact Hin.
  destruct (XLogReader.past_end e (XLogReader._current_lsn rd));
    [exact Hin |].
  destruct (read_page_in_step fuel rd Hin) as [Hin' _].
  destruct (XLogReader._read_page_records fuel rd) as [[recs | x |] rd'];
    simpl in Hin'; try exact Hin'.
  destruct recs as [| r recs]; simpl.
  - now apply IH.
  - destruct (XLogReader.past_end e (XLogReader._record_lsn r)); exact Hin'.
Qed.

Lemma seek_to_lsn_in_step (l : LSN.lsn) (rd : XLogReader.reader) :
  in_step rd -> in_step (snd (XLogReader._seek_to_lsn l rd)).
Proof.
  intros (Hsize & Hhandle & Hmod & Hpos). unfold XLogReader._seek_to_lsn.
  rewrite Hhandle. simpl. unfold in_step. simpl.
  split; [exact Hsize |]. split; [reflexivity |].
  assert (0 <= LSN.file_offset l).
  { unfold LSN.file_offset. apply Z.land_nonneg. right. lia. }
  unfold XLogReader.WAL_BLOCK_SIZE. split.
  - apply Z_mod_mult.
  - apply Z.mul_nonneg_nonneg; [| lia]. apply Z.div_pos; lia.
Qed.

Lemma next_in_step (fuel : nat) (g : XLogReader.generator)
    (rd : XLogReader.reader) :
  in_step rd -> in_step (snd (XLogReader.next fuel g rd)).
Proof.
  intros Hin. pose proof Hin as (Hsize & Hhandle & Hmod & Hpos).
  destruct g as [s e | e recs |]; cbn [XLogReader.next].
  - rewrite Hhandle. destruct s as [l |].
    + pose proof (seek_to_lsn_in_step l rd Hin) as Hin'.
      destruct (XLogReader._seek_to_lsn l rd) as [[[] | x |] rd'];
        simpl in Hin'; try exact Hin'.
      now apply while_pages_in_step.
    + now apply while_pages_in_step.
  - destruct recs as [| r recs]; simpl.
    + now apply while_pages_in_step.
    + destruct (XLogReader.past_end e (XLogReader._record_lsn r)); exact Hin.
  - exact Hin.
Qed.

Lemma drain_in_step (fuel n : nat) :
  forall (g : XLogReader.generator) (rd : XLogReader.reader),
    in_step rd -> in_step (snd (XLogReader.drain fuel n g rd)).
Proof.
  induction n as [| n IH]; intros g rd Hin; cbn [XLogReader.drain];
    [exact Hin |].
  pose proof (next_in_step fuel g rd Hin) as Hin'.
  destruct (XLogReader.next fuel g rd) as [[it g'] rd']. simpl in Hin'.
  destruct it; try exact Hin'.
  specialize (IH g' rd' Hin').
  destruct (XLogReader.drain fuel n g' rd') as [[recs last] rd''].
  exact IH.
Qed.

(** X19.  Whatever the file, the LSN bounds and the number of records asked
    for, after iterating over [read_records] of a freshly entered reader
    the file object stands at [current_position], and that is a
    non-negative multiple of the page size 8192. *)
Theorem pages_are_read_at_page_boundaries (content : list byte)
    (start_lsn end_lsn : option LSN.lsn) (fuel n : nat) :
  let rd := snd (XLogReader.drain fuel n
                   (XLogReader.read_records start_lsn end_lsn)
                   (XLogReader.enter (XLogReader.init content))) in
  XLogReader.file_handle rd = Some (XLogReader.current_position rd) /\
  XLogReader.current_position rd mod XLogReader.WAL_BLOCK_SIZE = 0 /\
  0 <= XLogReader.current_position rd.
Proof.
  intros rd.
  assert (Hin : in_step rd).
  { apply drain_in_step. unfold in_step. simpl. auto with zarith. }
  destruct Hin as (_ & H1 & H2 & H3). auto.
Qed.

(** *** A last page that is not complete *)

Lemma while_pages_never_stops (fuel : nat) :
  forall rd : XLogReader.reader,
    in_step rd ->
    XLogReader.current_position rd <= XLogReader.file_size rd ->
    XLogReader.file_size rd mod XLogReader.WAL_BLOCK_SIZE <> 0 ->
    let r := XLogReader.while_pages fuel None rd in
    fst (fst r) <> XLogReader.StopIteration /\
    (forall record, fst (fst r) = XLogReader.Yield record ->
       open_ended (snd (fst r)) /\ in_step (snd r) /\
       XLogReader.current_position (snd r) <= XLogReader.file_size (snd r) /\
       XLogReader.file_size (snd r) mod XLogReader.WAL_BLOCK_SIZE <> 0).
Proof.
  induction fuel as [| fuel IH]; intros rd Hin Hle Hpart;
    pose proof Hin as (Hsize & Hhandle & Hmod & Hpos);
    cbn [XLogReader.while_pages];
    (destruct (XLogReader.current_position rd <? XLogReader.file_size rd)
       eqn:E;
     [| assert (XLogReader.current_position rd = XLogReader.file_size rd)
          by lia; congruence]).
  - simpl. split; [discriminate |]. intros record H. discriminate H.
  - cbn [XLogReader.past_end].
    destruct (read_page_in_step fuel rd Hin) as (Hin' & Hsize' & Hle').
    specialize (Hle' Hle).
    destruct (XLogReader._read_page_records fuel rd) as [[recs | x |] rd'];
      simpl in Hin', Hsize', Hle'.
    + destruct recs as [| r recs]; simpl.
      * apply IH; [exact Hin' | exact Hle' | congruence].
      * split; [discriminate |]. intros record _.
        split; [exact I |]. split; [exact Hin' |].
        split; [exact Hle' | congruence].
    + simpl. split; [discriminate |]. intros record H. discriminate H.
    + simpl. split; [discriminate |]. intros record H. discriminate H.
Qed.

Lemma drain_never_stops (fuel n : nat) :
  forall (g : XLogReader.generator) (rd : XLogReader.reader),
    open_ended g -> in_step rd ->
    XLogReader.current_position rd <= XLogReader.file_size rd ->
    XLogReader.file_size rd mod XLogReader.WAL_BLOCK_SIZE <> 0 ->
    snd (fst (XLogReader.drain fuel n g rd)) <> XLogReader.StopIteration.
Proof.
  induction n as [| n IH]; intros g rd Hg Hin Hle Hpart;
    cbn [XLogReader.drain]; [discriminate |].
  pose proof Hin as (Hsize & Hhandle & Hmod & Hpos).
  assert (Hnext :
    fst (fst (XLogReader.next fuel g rd)) <> XLogReader.StopIteration /\
    (forall record,
       fst (fst (XLogReader.next fuel g rd)) = XLogReader.Yield record ->
       open_ended (snd (fst (XLogReader.next fuel g rd))) /\
       in_step (snd (XLogReader.next fuel g rd)) /\
       XLogReader.current_position (snd (XLogReader.next fuel g rd))
         <= XLogReader.file_size (snd (XLogReader.next fuel g rd)) /\
       XLogReader.file_size (snd (XLogReader.next fuel g rd))
         mod XLogReader.WAL_BLOCK_SIZE <> 0)).
  { destruct g as [[l |] [e |] | [e |] recs |]; simpl in Hg; try contradiction;
      cbn [XLogReader.next].
    - rewrite Hhandle. now apply while_pages_never_stops.
    - destruct recs as [| r recs]; simpl.
      + now apply while_pages_never_stops.
      + split; [discriminate |]. intros record _. auto. }
  destruct (XLogReader.next fuel g rd) as [[it g'] rd'].
  simpl in Hnext. destruct Hnext as [Hstop Hyield].
  destruct it as [record | | x |]; simpl; try discriminate;
    [| congruence].
  destruct (Hyield record eq_refl) as (Hg' & Hin' & Hle' & Hpart').
  specialize (IH g' rd' Hg' Hin' Hle' Hpart').
  destruct (XLogReader.drain fuel n g' rd') as [[recs last] rd''].
  exact IH.
Qed.

(** X20.  On a file whose size is not a multiple of the page size 8192 (a
    last page that is not complete, or a file shorter than a page),
    iterating over [read_records()] without LSN bounds never ends with
    [StopIteration]: whatever the budget and the number of items asked
    for, the iteration is still running or was ended by an exception. *)
Theorem read_records_never_finishes_on_a_partial_page
    (content : list byte) (fuel n : nat) :
  Z.of_nat (length content) mod XLogReader.WAL_BLOCK_SIZE <> 0 ->
  snd (fst (XLogReader.drain fuel n (XLogReader.read_records None None)
              (XLogReader.enter (XLogReader.init content))))
  <> XLogReader.StopIteration.
Proof.
  intros Hpart. apply drain_never_stops.
  - exact I.
  - unfold in_step. simpl. auto with zarith.
  - simpl. lia.
  - exact Hpart.
Qed.

Lemma read_records_never_finishes_on_a_partial_page_witness :
  snd (fst (XLogReader.drain 50 50 (XLogReader.read_records None None)
              (XLogReader.enter
                 (XLogReader.init (Fixtures.zeros 100)))))
  <> XLogReader.StopIteration.
Proof.
  apply (read_records_never_finishes_on_a_partial_page
           (Fixtures.zeros 100) 50 50).
  vm_compute. discriminate.
Defined.

(** *** The file header of the batch parser *)

Lemma init_valid (d : list byte) : BinaryReader.valid (BinaryReader.init d).
Proof. unfold BinaryReader.valid. simpl. lia. Qed.

Ltac file_header_reads rd Hv :=
  match goal with
  | |- context [BinaryReader.bind (BinaryReader.read_bytes ?n) ?f
                  (BinaryReader.set_position rd (_ + ?off))] =>
      first
        [ rewrite (read_uint_at off n rd Hv) by (simpl; lia)
        | rewrite (read_uint_eof off n rd) by (simpl; lia) ]
  end.

Lemma file_header_fails (file_data : list byte) (w : WALFile.walfile) :
  let rd := BinaryReader.init file_data in
  let xlog_blcksz := RecordLayout.uint_at 12 4 rd in
  (Z.of_nat (length file_data) < 20 ->
     exists rd', WALFile._parse_wal_file_header w rd
                 = (Raise EOFError, w, rd')) /\
  (20 <= Z.of_nat (length file_data) < xlog_blcksz ->
     exists w' rd', WALFile._parse_wal_file_header w rd
                    = (Raise ValueError, w', rd') /\
                    WALFile.records w' = WALFile.records w).
Proof.
  intros rd xlog_blcksz.
  assert (Hv : BinaryReader.valid rd) by apply init_valid.
  assert (Hlen : BinaryReader.length rd = Z.of_nat (length file_data))
    by reflexivity.
  assert (Hpos : BinaryReader.position rd = 0) by reflexivity.
  unfold WALFile._parse_wal_file_header.
  change (BinaryReader.read_uint64 rd)
    with (BinaryReader.read_uint64
            (BinaryReader.set_position rd (BinaryReader.position rd + 0))).
  unfold BinaryReader.read_uint64, BinaryReader.read_uint32.
  split; intros Hsize.
  - destruct (Z_lt_le_dec (Z.of_nat (length file_data)) 8);
      [| destruct (Z_lt_le_dec (Z.of_nat (length file_data)) 12);
         [| destruct (Z_lt_le_dec (Z.of_nat (length file_data)) 16)]];
      repeat (file_header_reads rd Hv; cbv iota beta);
      eexists; reflexivity.
  - repeat (file_header_reads rd Hv; cbv iota beta).
    change (RecordLayout.uint_at (0 + 8 + 4) 4 rd) with xlog_blcksz.
    unfold BinaryReader.seek. simpl BinaryReader.length.
    destruct ((xlog_blcksz <? 0) || (xlog_blcksz >? Z.of_nat (length file_data)))
      eqn:E.
    + eexists. eexists. split; reflexivity.
    + apply orb_false_elim in E as [_ E]. lia.
Qed.

(** X21.  [WALFile.parse] on a file of fewer than 20 bytes raises [EOFError],
    and on a longer file whose block-size field (bytes 12..15,
    little-endian) exceeds the file length it raises [ValueError]; in both
    cases no record has been added. *)
Theorem parse_fails_before_the_first_page (fuel : nat)
    (file_data : list byte) (w : WALFile.walfile) :
  let r := WALFile.parse fuel file_data w in
  let xlog_blcksz := RecordLayout.uint_at 12 4 (BinaryReader.init file_data) in
  (Z.of_nat (length file_data) < 20 ->
     fst r = Raise EOFError /\ WALFile.records (snd r) = WALFile.records w) /\
  (20 <= Z.of_nat (length file_data) < xlog_blcksz ->
     fst r = Raise ValueError /\ WALFile.records (snd r) = WALFile.records w).
Proof.
  intros r xlog_blcksz. subst r. unfold WALFile.parse.
  destruct (file_header_fails file_data w) as [Heof Hvalue].
  split; intros Hsize.
  - destruct (Heof Hsize) as (rd' & ->). simpl. split; reflexivity.
  - destruct (Hvalue Hsize) as (w' & rd' & -> & Hrecords). simpl.
    split; [reflexivity | exact Hrecords].
Qed.

Lemma parse_fails_before_the_first_page_witness :
  (let r := WALFile.parse 9 (Fixtures.zeros 19) WALFile.init in
   fst r = Raise EOFError /\ WALFile.records (snd r) = []) /\
  (let r := WALFile.parse 9
              (Fixtures.zeros 12 ++ Fixtures.le_bytes 4 8192 ++
               Fixtures.zeros 100) WALFile.init in
   fst r = Raise ValueError /\ WALFile.records (snd r) = []).
Proof.
  split.
  - apply (proj1 (parse_fails_before_the_first_page 9 (Fixtures.zeros 19)
                    WALFile.init)).
    simpl. lia.
  - apply (proj2 (parse_fails_before_the_first_page 9
                    (Fixtures.zeros 12 ++ Fixtures.le_bytes 4 8192 ++
                     Fixtures.zeros 100) WALFile.init)).
    vm_compute. split; [discriminate | reflexivity].
Defined.

End ReaderMoreFacts.

(** ** More on the transaction tracker *)

Module TrackerMoreFacts.

Import WalParser TransactionManager TrackerMore.
Import TrackerFacts.

(** *** Which handlers a Transaction record can reach *)

Lemma get_info_range (record : XLogRecord) : 0 <= get_info record < 16.
Proof.
  unfold get_info, XLR_INFO_MASK.
  change 15 with (Z.ones 4). rewrite Z.land_ones by lia.
  apply Z.mod_pos_bound. lia.
Qed.

Lemma transaction_record_dispatch (record : XLogRecord) (tm : tracker) :
  _process_transaction_record record tm
  = if get_info record =? 0
    then _commit_transaction (xl_xid record) record tm
    else _process_other_transaction_record record (get_info record) tm.
Proof.
  unfold _process_transaction_record.
  pose proof (get_info_range record) as H.
  destruct (get_info record =? 0) eqn:E0; [reflexivity |].
  repeat match goal with
         | |- context [get_info record =? ?k] =>
             destruct (Z.eqb_spec (get_info record) k); [lia |]
         end.
  reflexivity.
Qed.

(** *** Nothing is ever aborted *)

Lemma commit_loop_aborted (record : XLogRecord) (l : list Z) (tm : tracker) :
  aborted_transactions (foldr (commit_sub record) tm l)
    = aborted_transactions tm /\
  aborted_count (foldr (commit_sub record) tm l) = aborted_count tm.
Proof.
  induction l as [| a l [IH1 IH2]]; [easy |].
  simpl. unfold commit_sub at 1 3.
  destruct (transactions _ !! a); simpl; easy.
Qed.

Lemma step_aborted (c : call) (tm : tracker) :
  aborted_transactions (step tm c) = aborted_transactions tm /\
  aborted_count (step tm c) = aborted_count tm.
Proof.
  destruct c as [record | p s]; simpl.
  - unfold process_record.
    destruct (String.eqb _ _).
    + rewrite transaction_record_dispatch.
      destruct (get_info record =? 0).
      * unfold _commit_transaction.
        destruct (transactions tm !! xl_xid record); [| easy].
        unfold set_fold. simpl.
        match goal with
        | |- context [foldr _ ?t ?l] =>
            destruct (commit_loop_aborted record l t) as [-> ->]
        end.
        easy.
      * unfold _process_other_transaction_record.
        destruct (transactions tm !! xl_xid record); easy.
    + destruct (negb _); [| easy].
      unfold _process_general_record.
      destruct (transactions tm !! xl_xid record); simpl.
      * destruct (transactions tm !! xl_xid record); easy.
      * rewrite lookup_insert_eq. easy.
  - easy.
Qed.

(** X22.  No sequence of [process_record] and [add_subtransaction] calls
    changes the map of aborted transactions or [aborted_count]: on a
    tracker that starts empty, no transaction is ever recorded as
    aborted. *)
Theorem tracker_never_aborts (calls : list call) (tm : tracker) :
  aborted_transactions (run calls tm) = aborted_transactions tm /\
  aborted_count (run calls tm) = aborted_count tm.
Proof.
  revert tm. unfold run.
  induction calls as [| c calls IH]; intros tm; [easy |].
  simpl. destruct (IH (step tm c)) as [-> ->]. apply step_aborted.
Qed.

(** *** The entries of the maps *)

Lemma well_kept_commit_sub (record : XLogRecord) (a : Z) (tm : tracker) :
  well_kept tm -> well_kept (commit_sub record a tm).
Proof.
  intros [Hact Hcom]. unfold commit_sub.
  destruct (transactions tm !! a) as [ta |] eqn:Ha; [| easy].
  destruct (Hact a ta Ha) as (Hx & _ & _).
  split; simpl; intros x t Hlook.
  - destruct (decide (x = a)) as [-> | Hne].
    + rewrite lookup_delete_eq in Hlook. discriminate Hlook.
    + rewrite lookup_delete_ne in Hlook by done. now apply Hact.
  - destruct (decide (x = a)) as [-> | Hne].
    + rewrite lookup_insert_eq in Hlook. injection Hlook as <-. simpl.
      split; [exact Hx |]. split; [reflexivity | eexists; reflexivity].
    + rewrite lookup_insert_ne in Hlook by done. now apply Hcom.
Qed.

Lemma well_kept_commit_loop (record : XLogRecord) (l : list Z) (tm : tracker) :
  well_kept tm -> well_kept (foldr (commit_sub record) tm l).
Proof.
  intros H. induction l as [| a l IH]; [exact H |].
  simpl. now apply well_kept_commit_sub.
Qed.

Lemma well_kept_commit_transaction (x : Z) (record : XLogRecord)
    (tm : tracker) :
  well_kept tm -> well_kept (_commit_transaction x record tm).
Proof.
  intros [Hact Hcom]. unfold _commit_transaction.
  destruct (transactions tm !! x) as [tx |] eqn:Hx; [| easy].
  destruct (Hact x tx Hx) as (Hxid & _ & _).
  unfold set_fold. simpl. apply well_kept_commit_loop.
  split; simpl; intros y t Hlook.
  - destruct (decide (y = x)) as [-> | Hne].
    + rewrite lookup_delete_eq in Hlook. discriminate Hlook.
    + rewrite lookup_delete_ne in Hlook by done. now apply Hact.
  - destruct (decide (y = x)) as [-> | Hne].
    + rewrite lookup_insert_eq in Hlook. injection Hlook as <-. simpl.
      split; [exact Hxid |]. split; [reflexivity | eexists; reflexivity].
    + rewrite lookup_insert_ne in Hlook by done. now apply Hcom.
Qed.

Lemma well_kept_update (x : Z) (v : TransactionInfo) (tm : tracker) :
  xid v = x -> state v = IN_PROGRESS -> commit_lsn v = None ->
  well_kept tm ->
  well_kept (set_transactions (<[ x := v ]> (transactions tm)) tm).
Proof.
  intros Hx Hs Hc [Hact Hcom]. split; simpl; [| exact Hcom].
  intros y t Hlook. destruct (decide (y = x)) as [-> | Hne].
  - rewrite lookup_insert_eq in Hlook. injection Hlook as <-. easy.
  - rewrite lookup_insert_ne in Hlook by done. now apply Hact.
Qed.

Lemma well_kept_create (x : Z) (record : XLogRecord) (tm : tracker) :
  well_kept tm -> well_kept (_create_transaction x record tm).
Proof.
  intros [Hact Hcom]. split; simpl; [| exact Hcom].
  intros y t Hlook. destruct (decide (y = x)) as [-> | Hne].
  - rewrite lookup_insert_eq in Hlook. injection Hlook as <-. easy.
  - rewrite lookup_insert_ne in Hlook by done. now apply Hact.
Qed.

Lemma well_kept_step (c : call) (tm : tracker) :
  well_kept tm -> well_kept (step tm c).
Proof.
  intros Hk. pose proof Hk as [Hact Hcom].
  destruct c as [record | p s]; simpl.
  - unfold process_record.
    destruct (String.eqb _ _).
    + rewrite transaction_record_dispatch.
      destruct (get_info record =? 0).
      * now apply well_kept_commit_transaction.
      * unfold _process_other_transaction_record.
        destruct (transactions tm !! xl_xid record) as [t |] eqn:Ht.
        -- destruct (Hact _ t Ht) as (H1 & H2 & H3).
           now apply well_kept_update.
        -- now apply well_kept_create.
    + destruct (negb _); [| exact Hk].
      unfold _process_general_record.
      destruct (transactions tm !! xl_xid record) as [t |] eqn:Ht.
      * rewrite Ht. destruct (Hact _ t Ht) as (H1 & H2 & H3).
        now apply well_kept_update.
      * assert (Hc : transactions
                       (_create_transaction (xl_xid record) record tm)
                     !! xl_xid record
                     = Some (add_record record
                               (new_info (xl_xid record)
                                  (Some (prev_text record)) None)))
          by (simpl; apply lookup_insert_eq).
        rewrite Hc. apply well_kept_update; try reflexivity.
        now apply well_kept_create.
  - unfold add_subtransaction. split; simpl; [| exact Hcom].
    assert (Hact1 : forall x t,
      match transactions tm !! p with
      | Some parent =>
          <[ p := info_add_subtransaction s parent ]> (transactions tm)
      | None => transactions tm
      end !! x = Some t ->
      xid t = x /\ state t = IN_PROGRESS /\ commit_lsn t = None).
    { intros x t. destruct (transactions tm !! p) as [tp |] eqn:Hp;
        [| apply Hact].
      destruct (decide (x = p)) as [-> | Hne].
      - rewrite lookup_insert_eq. intros H. injection H as <-. simpl.
        now apply Hact.
      - rewrite lookup_insert_ne by done. apply Hact. }
    intros x t.
    destruct (_ !! s) as [ts |] eqn:Hs; [apply Hact1 |].
    destruct (decide (x = s)) as [-> | Hne].
    + rewrite lookup_insert_eq. intros H. injection H as <-. easy.
    + rewrite lookup_insert_ne by done. apply Hact1.
Qed.

(** X23.  After every sequence of [process_record] and [add_subtransaction]
    calls on a fresh tracker, every entry sits under its own xid, every
    active entry is in state in-progress without a commit LSN (none is
    ever prepared), and every committed entry is in state committed with
    a commit LSN. *)
Theorem tracked_entries_are_consistent (calls : list call) :
  well_kept (run calls init).
Proof.
  assert (H : forall tm, well_kept tm -> well_kept (run calls tm)).
  { unfold run. induction calls as [| c calls IH]; intros tm Hk; [exact Hk |].
    simpl. apply IH. now apply well_kept_step. }
  apply H. split; simpl; intros x t Hlook;
    rewrite lookup_empty in Hlook; discriminate Hlook.
Qed.

(** *** The first record of a transaction *)

Lemma general_rmgr (record : XLogRecord) :
  xl_rmid record <> 1 ->
  String.eqb (get_rmgr_name (xl_rmid record)) "Transaction" = false.
Proof.
  intros Hne. apply String.eqb_neq. intros H. apply Hne.
  apply (DecoderMoreFacts.rmgr_name_inj _ 1). exact H.
Qed.

(** X24.  For a record of a resource manager other than Transaction with a
    non-zero xid: when the xid is not active, [process_record] creates the
    transaction, raises [total_transactions] by one, and the
    transaction's record list then holds the record twice; when the xid
    is active, the record is appended once and [total_transactions]
    stays. *)
Theorem first_record_is_stored_twice (record : XLogRecord) (tm : tracker) :
  xl_rmid record <> 1 -> xl_xid record <> 0 ->
  let x := xl_xid record in
  let tm' := process_record record tm in
  (transactions tm !! x = None ->
     get_transaction_records x tm' = [record; record] /\
     total_transactions tm' = total_transactions tm + 1) /\
  (forall t, transactions tm !! x = Some t ->
     get_transaction_records x tm' = records t ++ [record] /\
     total_transactions tm' = total_transactions tm).
Proof.
  intros Hrm Hx x tm'. subst tm'. unfold process_record.
  rewrite (general_rmgr record Hrm).
  destruct (Z.eqb_spec (xl_xid record) 0) as [| _]; [contradiction |].
  simpl negb. cbv iota. unfold _process_general_record. fold x.
  unfold get_transaction_records, get_transaction.
  split.
  - intros Hnone. rewrite Hnone.
    cbn [_create_transaction transactions]. rewrite lookup_insert_eq.
    cbn [set_transactions transactions]. rewrite lookup_insert_eq.
    split; reflexivity.
  - intros t Hsome. rewrite Hsome. rewrite Hsome.
    cbn [set_transactions transactions]. rewrite lookup_insert_eq.
    split; reflexivity.
Qed.

Lemma first_record_is_stored_twice_witness :
  let record := Fixtures.bare_record 10 0 7 0x18 in
  get_transaction_records 7 (process_record record init) = [record; record] /\
  get_transaction_records 7 (process_record record (process_record record init))
    = [record; record; record].
Proof.
  intros record.
  destruct (first_record_is_stored_twice record init
              ltac:(simpl; lia) ltac:(simpl; lia)) as [Hnew _].
  destruct (first_record_is_stored_twice record (process_record record init)
              ltac:(simpl; lia) ltac:(simpl; lia)) as [_ Hold].
  split.
  - apply Hnew. reflexivity.
  - assert (Hlook : transactions (process_record record init) !! xl_xid record
                    = Some (add_record record
                              (add_record record
                                 (new_info 7 (Some (prev_text record)) None))))
      by (vm_compute; reflexivity).
    exact (proj1 (Hold _ Hlook)).
Defined.

(** *** A COMMIT record seen again *)

(** X25.  Processing the same COMMIT record (resource manager Transaction,
    low four info bits 0) a second time changes nothing: the tracker after
    two rounds is the tracker after one. *)
Theorem commit_record_is_idempotent (record : XLogRecord) (tm : tracker) :
  xl_rmid record = 1 -> Z.land (xl_info record) 15 = 0 ->
  process_record record (process_record record tm) = process_record record tm.
Proof.
  intros Hrm Hinfo. unfold process_record.
  rewrite (transaction_rmgr record Hrm).
  rewrite !transaction_record_dispatch.
  unfold get_info, XLR_INFO_MASK. rewrite Hinfo. simpl Z.eqb. cbv iota.
  destruct (transactions tm !! xl_xid record) as [t |] eqn:Ht.
  - destruct (commit_transaction_active record _ t tm Ht) as (_ & [Hgone _] & _).
    unfold _commit_transaction at 1. now rewrite Hgone.
  - unfold _commit_transaction. rewrite Ht. now rewrite Ht.
Qed.

Lemma commit_record_is_idempotent_witness :
  let heap := Fixtures.bare_record 10 0 7 0x18 in
  let commit := Fixtures.bare_record 1 0 7 0x40 in
  let tm := process_record heap init in
  process_record commit (process_record commit tm) = process_record commit tm.
Proof.
  intros heap commit tm.
  apply (commit_record_is_idempotent commit tm); reflexivity.
Defined.

End TrackerMoreFacts.
